(** * QuantumSatLink: the BB84 simulation core, embedded and verified

    The development follows the Python sources under [backend/qkd]:
    [basis.py], [photon.py], [atmosphere.py], [weather.py], [attacks.py],
    [eve.py], [qber.py] and the driver [bb84.py]; the bit and byte
    conversions of [backend/utils/math_utils.py] and the key derivation of
    [backend/encryption/aes.py] come last.

    Modelling conventions.
    - Python [float]s are exact rationals ([Q]); [int]s are [Z]; list
      positions and lengths are [nat].
    - The process-wide generator of Python's [random] module is the only
      effect besides object mutation.  Code that draws from it is a tree
      [Prog A] whose nodes are the two primitives every call of the module
      used here reduces to: [random.random()] (a float in [[0,1)]) and
      [randbelow n] (an integer in [[0,n)]).  The tree is read three ways:
      [wp] quantifies over every outcome of the generator, [run] replays a
      recorded tape of draws, and [Pr] computes the probability of an event.
    - [Photon] objects are mutable and compared by identity ([id]) in the
      driver, so they live in a store ([heap]) and lists hold references. *)

From Stdlib Require Import QArith Qround Qminmax ZArith String Ascii HexString Lia ZifyNat Lqa.
From stdpp Require Import base option list gmap strings pretty.

Close Scope Q_scope.
Local Open Scope nat_scope.
Local Open Scope string_scope.
Local Open Scope list_scope.

(** ** Rational helpers *)

Definition Qltb (x y : Q) : bool := negb (Qle_bool y x).

(** Python's [int(x)] on a float truncates toward zero. *)
Definition int_of_float (x : Q) : Z :=
  if Qle_bool 0 x then Qfloor x else Qceiling x.

(** Python's [round(x, nd)]: scale, round half to even, scale back. *)
Definition round_half_even (x : Q) : Z :=
  let f := Qfloor x in
  let d := (x - inject_Z f)%Q in
  if Qltb d (1 # 2) then f
  else if Qltb (1 # 2) d then (f + 1)%Z
  else if Z.even f then f else (f + 1)%Z.

Definition round (x : Q) (nd : nat) : Q :=
  let s := inject_Z (10 ^ Z.of_nat nd) in
  (inject_Z (round_half_even (x * s)) / s)%Q.

(** ** The random-program monad *)

Inductive exn : Type :=
| ZeroDivisionError
| IndexError
| KeyError
| ValueError.

Inductive Prog (A : Type) : Type :=
| Ret (a : A)
| Raise (e : exn)
| Random (k : Q -> Prog A)
| Randbelow (n : nat) (k : nat -> Prog A).

Arguments Ret {A} a.
Arguments Raise {A} e.
Arguments Random {A} k.
Arguments Randbelow {A} n k.

Fixpoint bind {A B : Type} (p : Prog A) (f : A -> Prog B) : Prog B :=
  match p with
  | Ret a => f a
  | Raise e => Raise e
  | Random k => Random (fun r => bind (k r) f)
  | Randbelow n k => Randbelow n (fun i => bind (k i) f)
  end.

#[global] Instance prog_ret : MRet Prog := @Ret.
#[global] Instance prog_bind : MBind Prog := fun A B f p => bind p f.

(** [random.random()] *)
Definition random : Prog Q := Random Ret.
(** [random._randbelow(n)] *)
Definition randbelow (n : nat) : Prog nat := Randbelow n Ret.
(** [random.choice(seq)] is [seq[randbelow(len(seq))]]. *)
Definition choice {A : Type} (seq : list A) : Prog A :=
  i ← randbelow (length seq);
  match seq !! i with
  | Some x => Ret x
  | None => Raise IndexError
  end.
(** [random.randint(a, b)] is [a + randbelow(b - a + 1)]. *)
Definition randint (a b : Z) : Prog Z :=
  i ← randbelow (Z.to_nat (b - a + 1));
  Ret (a + Z.of_nat i)%Z.
(** [random.uniform(a, b)] is [a + (b - a) * random()]. *)
Definition uniform (a b : Q) : Prog Q :=
  r ← random;
  Ret (a + (b - a) * r)%Q.

(** Every outcome of the generator: [wp p post exc] holds when every run of
    [p] either returns a value satisfying [post] or raises an exception
    satisfying [exc]. *)
Fixpoint wp {A : Type} (p : Prog A) (post : A -> Prop) (exc : exn -> Prop) : Prop :=
  match p with
  | Ret a => post a
  | Raise e => exc e
  | Random k => forall r : Q, (0 <= r)%Q -> (r < 1)%Q -> wp (k r) post exc
  | Randbelow n k => forall i : nat, i < n -> wp (k i) post exc
  end.

Definition no_raise : exn -> Prop := fun _ => False.
Definition may_raise : exn -> Prop := fun _ => True.

(** Replaying a tape of recorded draws.  A float draw [r] answers
    [randbelow n] with [floor (r * n)]; [randbelow 0] has no answer. *)
Inductive result (A : Type) : Type :=
| Ok (a : A)
| Err (e : exn).
Arguments Ok {A} a.
Arguments Err {A} e.

Definition below_of_draw (r : Q) (n : nat) : nat :=
  Z.to_nat (Qfloor (r * inject_Z (Z.of_nat n))).

Fixpoint run {A : Type} (p : Prog A) (tape : list Q) : option (result A) :=
  match p with
  | Ret a => Some (Ok a)
  | Raise e => Some (Err e)
  | Random k =>
      match tape with
      | [] => None
      | r :: tape' => run (k r) tape'
      end
  | Randbelow n k =>
      match n, tape with
      | S _, r :: tape' => run (k (below_of_draw r n)) tape'
      | _, _ => None
      end
  end.

Definition valid_draw (r : Q) : Prop := (0 <= r)%Q /\ (r < 1)%Q.

(** Probability of an event.  [random.random()] returns a uniformly
    distributed multiple of [1/N] in [[0,1)] (CPython: [N = 2^53]);
    [randbelow n] is uniform on [[0,n)]. *)
Fixpoint Qsum (n : nat) (f : nat -> Q) : Q :=
  match n with
  | O => 0%Q
  | S n' => (Qsum n' f + f n')%Q
  end.

Definition Qnat (n : nat) : Q := inject_Z (Z.of_nat n).

Fixpoint Pr (N : nat) {A : Type} (p : Prog A) (ev : result A -> bool) : Q :=
  match p with
  | Ret a => if ev (Ok a) then 1%Q else 0%Q
  | Raise e => if ev (Err e) then 1%Q else 0%Q
  | Random k => (Qsum N (fun i => Pr N (k (Qnat i / Qnat N)%Q) ev) / Qnat N)%Q
  | Randbelow n k => (Qsum n (fun i => Pr N (k i) ev) / Qnat n)%Q
  end.

(** The event "the program returns exactly [x]". *)
Definition returns {A : Type} `{EqDecision A} (x : A) (res : result A) : bool :=
  match res with
  | Ok a => bool_decide (a = x)
  | Err _ => false
  end.

(** The grid of draws resolves the threshold [p] when [p * N] is a whole
    number of grid points. *)
Definition grid_resolves (N : nat) (p : Q) : Prop :=
  exists m : nat, m <= N /\ (Qnat m == p * Qnat N)%Q.

(** ** basis.py *)

Inductive BasisType : Type :=
| RECTILINEAR
| DIAGONAL.

#[global] Instance BasisType_eq_dec : EqDecision BasisType.
Proof. solve_decision. Defined.

(** [BasisType.value] *)
Definition BasisType_value (b : BasisType) : string :=
  match b with
  | RECTILINEAR => "+"
  | DIAGONAL => "×"
  end.

Definition random_basis : Prog BasisType :=
  choice [RECTILINEAR; DIAGONAL].

Fixpoint generate_random_bases (count : nat) : Prog (list BasisType) :=
  match count with
  | O => Ret []
  | S count' =>
      b ← random_basis;
      bs ← generate_random_bases count';
      Ret (b :: bs)
  end.

Definition bases_match (basis1 basis2 : BasisType) : bool :=
  bool_decide (basis1 = basis2).

Definition detector_error : Q := 0.008%Q.

Definition measure_photon (bit : Z) (preparation_basis measurement_basis : BasisType)
  : Prog (Z * bool) :=
  if bool_decide (preparation_basis = measurement_basis) then
    r ← random;
    let measured_bit := if Qltb r detector_error then (1 - bit)%Z else bit in
    Ret (measured_bit, true)
  else
    measured_bit ← choice [0%Z; 1%Z];
    Ret (measured_bit, false).

(** ** photon.py *)

Inductive PhotonState : Type :=
| HORIZONTAL
| VERTICAL
| DIAGONAL_45
| DIAGONAL_135.

#[global] Instance PhotonState_eq_dec : EqDecision PhotonState.
Proof. solve_decision. Defined.

Record Photon : Type := mkPhoton {
  bit : Z;
  preparation_basis : BasisType;
  state : PhotonState;
  is_transmitted : bool;
  is_intercepted : bool
}.

#[global] Instance Photon_eq_dec : EqDecision Photon.
Proof. solve_decision. Defined.

(** [Photon.create]: the value of the new object. *)
Definition create (bit : Z) (basis : BasisType) : Photon :=
  let state :=
    match basis with
    | RECTILINEAR => if (bit =? 0)%Z then HORIZONTAL else VERTICAL
    | DIAGONAL => if (bit =? 0)%Z then DIAGONAL_45 else DIAGONAL_135
    end in
  mkPhoton bit basis state true false.

(** ** The object store

    A [Photon] variable in Python holds a reference.  The store is a list of
    photon objects, a reference is a position in it, and [id(photon)] is that
    position.  Allocation appends, so a reference stays valid for ever. *)

Abbreviation loc := nat (only parsing).
Abbreviation heap := (list Photon) (only parsing).

#[global] Instance Photon_inhabited : Inhabited Photon :=
  populate (mkPhoton 0 RECTILINEAR HORIZONTAL false false).

Definition deref (h : heap) (l : loc) : Photon := h !!! l.

Definition alloc (p : Photon) (h : heap) : loc * heap := (length h, h ++ [p]).

(** [photon.bit = v], [photon.is_transmitted = v], [photon.is_intercepted = v] *)
Definition set_bit (l : loc) (v : Z) (h : heap) : heap :=
  alter (fun p => mkPhoton v (preparation_basis p) (state p) (is_transmitted p) (is_intercepted p)) l h.
Definition set_is_transmitted (l : loc) (v : bool) (h : heap) : heap :=
  alter (fun p => mkPhoton (bit p) (preparation_basis p) (state p) v (is_intercepted p)) l h.
Definition set_is_intercepted (l : loc) (v : bool) (h : heap) : heap :=
  alter (fun p => mkPhoton (bit p) (preparation_basis p) (state p) (is_transmitted p) v) l h.

(** ** atmosphere.py

    [math.exp] belongs to the Python runtime; the channel takes it as the
    parameter [math_exp]. *)

(** A rational stand-in for [math.exp], used only where a run is evaluated on
    concrete numbers: the Taylor polynomial of degree 12, whose error is below
    [1e-18] on the exponents [-0.2 .. 0] that valid distances produce. *)
Fixpoint exp_horner (x : Q) (k n : nat) : Q :=
  match n with
  | O => 1%Q
  | S n' => (1 + x / Qnat k * exp_horner x (S k) n')%Q
  end.

Definition exp_taylor (x : Q) : Q := Qred (exp_horner x 1 12).

Record AtmosphericChannel : Type := mkAtmosphericChannel {
  distance_km : Q;
  base_loss_rate : Q;
  scattering_coefficient : Q;
  turbulence_factor : Q
}.

(** [AtmosphericChannel.__init__] with its defaults. *)
Definition AtmosphericChannel_init (distance_km : Q) : AtmosphericChannel :=
  mkAtmosphericChannel distance_km 0.15%Q 0.0001%Q 0.05%Q.

Definition calculate_total_loss (math_exp : Q -> Q) (self : AtmosphericChannel) : Prog Q :=
  let distance_loss := (1 - math_exp (- scattering_coefficient self * distance_km self))%Q in
  let absorption := base_loss_rate self in
  turbulence ← uniform 0%Q (turbulence_factor self);
  Ret (Qmin 0.95%Q (distance_loss + absorption + turbulence)%Q).

Fixpoint transmit_loop (distance_km : Q) (loss_probability : Q) (photons : list loc)
    (transmitted_photons : list loc) (h : heap) : Prog (list loc * heap) :=
  match photons with
  | [] => Ret (transmitted_photons, h)
  | photon :: photons' =>
      r ← random;
      if Qltb loss_probability r then
        let h := set_is_transmitted photon true h in
        let atmospheric_error_rate := (0.01 + (distance_km / 2000) * 0.02)%Q in
        r' ← random;
        let h := if Qltb r' atmospheric_error_rate
                 then set_bit photon (1 - bit (deref h photon))%Z h else h in
        transmit_loop distance_km loss_probability photons' (transmitted_photons ++ [photon]) h
      else
        let h := set_is_transmitted photon false h in
        transmit_loop distance_km loss_probability photons' transmitted_photons h
  end.

Definition transmit_photons (math_exp : Q -> Q) (self : AtmosphericChannel)
    (photons : list loc) (h : heap) : Prog (list loc * heap) :=
  loss_probability ← calculate_total_loss math_exp self;
  transmit_loop (distance_km self) loss_probability photons [] h.

Definition get_transmission_efficiency (math_exp : Q -> Q) (self : AtmosphericChannel) : Prog Q :=
  loss ← calculate_total_loss math_exp self;
  let efficiency := ((1 - loss) * 100)%Q in
  Ret (round efficiency 2).

(** The dictionary returned by [get_channel_stats]. *)
Record ChannelStats : Type := mkChannelStats {
  cs_distance_km : Q;
  cs_total_loss_probability : Q;
  cs_transmission_efficiency : Q;
  cs_distance_attenuation : Q;
  cs_base_atmospheric_loss : Q;
  cs_scattering_coefficient : Q;
  cs_turbulence_factor : Q
}.

Definition get_channel_stats (math_exp : Q -> Q) (self : AtmosphericChannel) : Prog ChannelStats :=
  total_loss ← calculate_total_loss math_exp self;
  let distance_loss := (1 - math_exp (- scattering_coefficient self * distance_km self))%Q in
  transmission_efficiency ← get_transmission_efficiency math_exp self;
  Ret (mkChannelStats (distance_km self) (round total_loss 4) transmission_efficiency
         (round distance_loss 4) (base_loss_rate self) (scattering_coefficient self)
         (turbulence_factor self)).

(** ** weather.py *)

Definition CLEAR : string := "clear".
Definition LIGHT_HAZE : string := "light_haze".
Definition HEAVY_CLOUDS : string := "heavy_clouds".
Definition RAIN : string := "rain".

Definition LOSS_FACTORS : gmap string Q :=
  list_to_map [(CLEAR, 1.0%Q); (LIGHT_HAZE, 1.3%Q); (HEAVY_CLOUDS, 2.5%Q); (RAIN, 10.0%Q)].

Definition ERROR_FACTORS : gmap string Q :=
  list_to_map [(CLEAR, 1.0%Q); (LIGHT_HAZE, 1.2%Q); (HEAVY_CLOUDS, 1.8%Q); (RAIN, 3.0%Q)].

Definition get_weather_description (weather : string) : string :=
  let descriptions : gmap string string :=
    list_to_map [(CLEAR, "Clear sky, optimal conditions");
                 (LIGHT_HAZE, "Light atmospheric haze, minor attenuation");
                 (HEAVY_CLOUDS, "Heavy cloud cover, significant attenuation");
                 (RAIN, "Rain or heavy precipitation, QKD not recommended")] in
  default "Unknown weather condition" (descriptions !! weather).

(** The statistics dictionary of [apply_weather_effects]. *)
Record WeatherStats : Type := mkWeatherStats {
  ws_weather_condition : string;
  ws_additional_loss_factor : Q;
  ws_photons_lost_to_weather : nat;
  ws_total_photons_lost : nat;
  ws_weather_description : string
}.

(** [sum(1 for p in photon_states if p is None)] *)
Definition count_None {A : Type} (photon_states : list (option A)) : nat :=
  length (filter (fun p => p = None) photon_states).

Fixpoint weather_loop (threshold : Q) (photon_states : list (option Z))
    (result : list (option Z)) (photons_lost_to_weather : nat)
    : Prog (list (option Z) * nat) :=
  match photon_states with
  | [] => Ret (result, photons_lost_to_weather)
  | None :: rest => weather_loop threshold rest (result ++ [None]) photons_lost_to_weather
  | Some photon :: rest =>
      r ← random;
      if Qltb r threshold then
        weather_loop threshold rest (result ++ [None]) (photons_lost_to_weather + 1)
      else
        weather_loop threshold rest (result ++ [Some photon]) photons_lost_to_weather
  end.

Definition apply_weather_effects (photon_states : list (option Z)) (weather : string)
    : Prog (list (option Z) * WeatherStats) :=
  let weather := if decide (is_Some (LOSS_FACTORS !! weather)) then weather else CLEAR in
  match LOSS_FACTORS !! weather with
  | None => Raise KeyError
  | Some loss_factor =>
      match length photon_states with
      | O => Raise ZeroDivisionError
      | S _ =>
          let base_loss_rate := (Qnat (count_None photon_states) / Qnat (length photon_states))%Q in
          let weather_loss_rate := Qmin 0.95%Q (base_loss_rate * loss_factor)%Q in
          '(result, photons_lost_to_weather) ←
            weather_loop (weather_loss_rate - base_loss_rate)%Q photon_states [] 0;
          Ret (result,
               mkWeatherStats weather loss_factor photons_lost_to_weather
                 (count_None result) (get_weather_description weather))
      end
  end.

Definition calculate_weather_qber_factor (weather : string) : Q :=
  default (default 1.0%Q (ERROR_FACTORS !! CLEAR)) (ERROR_FACTORS !! weather).

(** ** attacks.py

    The five strategies work on a list of optional bits ([None] is a lost
    photon) and a list of basis glyphs. *)

Definition INTERCEPT_RESEND : string := "intercept_resend".
Definition BEAM_SPLITTING : string := "beam_splitting".
Definition PHOTON_NUMBER_SPLITTING : string := "photon_number_splitting".
Definition DETECTOR_BLINDING : string := "detector_blinding".
Definition JAMMED_LINK : string := "jammed_link".

(** The statistics dictionaries, one shape per strategy; the textual entries
    are fixed per strategy. *)
Inductive AttackStats : Type :=
| InterceptResendStats (photons_intercepted errors_introduced : nat)
| BeamSplittingStats (photons_tapped : nat)
| PNSStats (multi_photon_pulses_exploited errors_introduced : nat)
| DetectorBlindingStats (detectors_blinded fake_signals_sent : nat)
| JammedLinkStats (photons_lost_to_jamming : nat).

Definition attack_type (st : AttackStats) : string :=
  match st with
  | InterceptResendStats _ _ => "Intercept-Resend"
  | BeamSplittingStats _ => "Beam-Splitting"
  | PNSStats _ _ => "Photon Number Splitting (PNS)"
  | DetectorBlindingStats _ _ => "Detector Blinding"
  | JammedLinkStats _ => "Jammed Link (DoS)"
  end.

Fixpoint intercept_resend_loop (bases : list string) (interception_rate : Q)
    (i : nat) (photon_states : list (option Z))
    (result : list (option Z)) (intercepted errors_introduced : nat)
    : Prog (list (option Z) * AttackStats) :=
  match photon_states with
  | [] => Ret (result, InterceptResendStats intercepted errors_introduced)
  | None :: rest =>
      intercept_resend_loop bases interception_rate (S i) rest (result ++ [None])
        intercepted errors_introduced
  | Some photon :: rest =>
      r ← random;
      if Qltb r interception_rate then
        eve_basis ← choice ["+"; "x"];
        match bases !! i with
        | None => Raise IndexError
        | Some basis =>
            if negb (String.eqb eve_basis basis) then
              r' ← random;
              if Qltb r' 0.5%Q then
                intercept_resend_loop bases interception_rate (S i) rest
                  (result ++ [Some (1 - photon)%Z]) (intercepted + 1) (errors_introduced + 1)
              else
                intercept_resend_loop bases interception_rate (S i) rest
                  (result ++ [Some photon]) (intercepted + 1) errors_introduced
            else
              intercept_resend_loop bases interception_rate (S i) rest
                (result ++ [Some photon]) (intercepted + 1) errors_introduced
        end
      else
        intercept_resend_loop bases interception_rate (S i) rest
          (result ++ [Some photon]) intercepted errors_introduced
  end.

Definition apply_intercept_resend_attack (photon_states : list (option Z))
    (bases : list string) (interception_rate : Q) : Prog (list (option Z) * AttackStats) :=
  intercept_resend_loop bases interception_rate 0 photon_states [] 0 0.

Fixpoint beam_splitting_loop (tap_rate : Q) (photon_states : list (option Z))
    (result : list (option Z)) (tapped : nat) : Prog (list (option Z) * AttackStats) :=
  match photon_states with
  | [] => Ret (result, BeamSplittingStats tapped)
  | None :: rest => beam_splitting_loop tap_rate rest (result ++ [None]) tapped
  | Some photon :: rest =>
      r ← random;
      if Qltb r tap_rate then
        beam_splitting_loop tap_rate rest (result ++ [None]) (tapped + 1)
      else
        beam_splitting_loop tap_rate rest (result ++ [Some photon]) tapped
  end.

Definition apply_beam_splitting_attack (photon_states : list (option Z)) (tap_rate : Q)
    : Prog (list (option Z) * AttackStats) :=
  beam_splitting_loop tap_rate photon_states [] 0.

Fixpoint pns_loop (bases : list string) (multi_photon_rate : Q)
    (i : nat) (photon_states : list (option Z))
    (result : list (option Z)) (exploited errors : nat)
    : Prog (list (option Z) * AttackStats) :=
  match photon_states with
  | [] => Ret (result, PNSStats exploited errors)
  | None :: rest =>
      pns_loop bases multi_photon_rate (S i) rest (result ++ [None]) exploited errors
  | Some photon :: rest =>
      r ← random;
      if Qltb r multi_photon_rate then
        eve_basis ← choice ["+"; "x"];
        match bases !! i with
        | None => Raise IndexError
        | Some basis =>
            if negb (String.eqb eve_basis basis) then
              r' ← random;
              if Qltb r' 0.1%Q then
                pns_loop bases multi_photon_rate (S i) rest
                  (result ++ [Some (1 - photon)%Z]) (exploited + 1) (errors + 1)
              else
                pns_loop bases multi_photon_rate (S i) rest
                  (result ++ [Some photon]) (exploited + 1) errors
            else
              pns_loop bases multi_photon_rate (S i) rest
                (result ++ [Some photon]) (exploited + 1) errors
        end
      else
        pns_loop bases multi_photon_rate (S i) rest (result ++ [Some photon]) exploited errors
  end.

Definition apply_pns_attack (photon_states : list (option Z)) (bases : list string)
    (multi_photon_rate : Q) : Prog (list (option Z) * AttackStats) :=
  pns_loop bases multi_photon_rate 0 photon_states [] 0 0.

Fixpoint detector_blinding_loop (blind_rate : Q) (photon_states : list (option Z))
    (result : list (option Z)) (blinded_detections fake_signals : nat)
    : Prog (list (option Z) * AttackStats) :=
  match photon_states with
  | [] => Ret (result, DetectorBlindingStats blinded_detections fake_signals)
  | None :: rest =>
      detector_blinding_loop blind_rate rest (result ++ [None]) blinded_detections fake_signals
  | Some photon :: rest =>
      r ← random;
      if Qltb r blind_rate then
        fake_bit ← randint 0 1;
        detector_blinding_loop blind_rate rest (result ++ [Some fake_bit])
          (blinded_detections + 1) (fake_signals + 1)
      else
        detector_blinding_loop blind_rate rest (result ++ [Some photon])
          blinded_detections fake_signals
  end.

Definition apply_detector_blinding_attack (photon_states : list (option Z))
    (bases : list string) (blind_rate : Q) : Prog (list (option Z) * AttackStats) :=
  detector_blinding_loop blind_rate photon_states [] 0 0.

Fixpoint jammed_link_loop (photon_states : list (option Z))
    (result : list (option Z)) (noise_photons : nat) : Prog (list (option Z) * AttackStats) :=
  match photon_states with
  | [] => Ret (result, JammedLinkStats noise_photons)
  | None :: rest => jammed_link_loop rest (result ++ [None]) noise_photons
  | Some photon :: rest =>
      r ← random;
      if Qltb r 0.6%Q then
        jammed_link_loop rest (result ++ [None]) (noise_photons + 1)
      else
        r' ← random;
        if Qltb r' 0.5%Q then
          jammed_link_loop rest (result ++ [Some (1 - photon)%Z]) noise_photons
        else
          jammed_link_loop rest (result ++ [Some photon]) noise_photons
  end.

Definition apply_jammed_link_attack (photon_states : list (option Z))
    : Prog (list (option Z) * AttackStats) :=
  jammed_link_loop photon_states [] 0.

Definition apply_eve_attack (photon_states : list (option Z)) (bases : list string)
    (attack_type : string) (intensity : Q) : Prog (list (option Z) * AttackStats) :=
  if String.eqb attack_type INTERCEPT_RESEND then
    apply_intercept_resend_attack photon_states bases intensity
  else if String.eqb attack_type BEAM_SPLITTING then
    apply_beam_splitting_attack photon_states (intensity * 0.6)%Q
  else if String.eqb attack_type PHOTON_NUMBER_SPLITTING then
    apply_pns_attack photon_states bases 0.15%Q
  else if String.eqb attack_type DETECTOR_BLINDING then
    apply_detector_blinding_attack photon_states bases (intensity * 0.8)%Q
  else if String.eqb attack_type JAMMED_LINK then
    apply_jammed_link_attack photon_states
  else
    apply_intercept_resend_attack photon_states bases intensity.

(** ** eve.py *)

(** One entry of [EveAttack.measurements]. *)
Record Measurement : Type := mkMeasurement {
  m_index : nat;
  m_eve_basis : string;
  m_measured_bit : Z;
  m_bases_matched : bool;
  m_original_bit : Z
}.

Record EveAttack : Type := mkEveAttack {
  interception_rate : Q;
  intercepted_count : nat;
  measurements : list Measurement
}.

Definition EveAttack_init (interception_rate : Q) : EveAttack :=
  mkEveAttack interception_rate 0 [].

Fixpoint intercept_loop (alice_bases : list BasisType) (i : nat) (photons : list loc)
    (self : EveAttack) (modified_photons : list loc) (eve_bases : list (option BasisType))
    (h : heap) : Prog (EveAttack * list loc * list (option BasisType) * heap) :=
  match photons with
  | [] => Ret (self, modified_photons, eve_bases, h)
  | photon :: photons' =>
      r ← random;
      if Qltb r (interception_rate self) then
        let h := set_is_intercepted photon true h in
        let self := mkEveAttack (interception_rate self) (intercepted_count self + 1)
                      (measurements self) in
        eve_basis ← random_basis;
        let eve_bases := eve_bases ++ [Some eve_basis] in
        match alice_bases !! i with
        | None => Raise IndexError
        | Some alice_basis =>
            '(measured_bit, bases_matched) ←
              measure_photon (bit (deref h photon)) alice_basis eve_basis;
            let self := mkEveAttack (interception_rate self) (intercepted_count self)
                          (measurements self ++
                             [mkMeasurement i (BasisType_value eve_basis) measured_bit
                                bases_matched (bit (deref h photon))]) in
            let '(new_photon, h) := alloc (create measured_bit eve_basis) h in
            let h := set_is_intercepted new_photon true h in
            intercept_loop alice_bases (S i) photons' self
              (modified_photons ++ [new_photon]) eve_bases h
        end
      else
        intercept_loop alice_bases (S i) photons' self
          (modified_photons ++ [photon]) (eve_bases ++ [None]) h
  end.

Definition intercept_and_resend (self : EveAttack) (photons : list loc)
    (alice_bases : list BasisType) (h : heap)
    : Prog (EveAttack * list loc * list (option BasisType) * heap) :=
  let self := mkEveAttack (interception_rate self) 0 [] in
  intercept_loop alice_bases 0 photons self [] [] h.

(** The dictionary returned by [get_attack_stats]. *)
Record EveStats : Type := mkEveStats {
  es_active : bool;
  es_interception_rate : Q;
  es_photons_intercepted : nat;
  es_basis_matches : nat;
  es_measurement_errors : nat;
  es_measurements : list Measurement
}.

Definition get_attack_stats (self : EveAttack) : EveStats :=
  let basis_matches := length (filter (fun m => m_bases_matched m = true) (measurements self)) in
  let bit_errors :=
    length (filter (fun m => m_measured_bit m <> m_original_bit m) (measurements self)) in
  mkEveStats (Qltb 0 (interception_rate self)) (interception_rate self)
    (intercepted_count self) basis_matches bit_errors (take 10 (measurements self)).

(** ** qber.py *)

(** [random.sample(population, k)] as CPython computes it for the sizes asked
    for here (the branch that copies the population into a pool, taken
    whenever [n <= 21 + 4 ^ ceil (log4 (3 * k))]): draw a position among the
    first [n - i] cells, take its element, and move the last of those cells
    into the vacancy. *)
Fixpoint sample_pool {A : Type} (pool : list A) (n i k : nat) : Prog (list A) :=
  match k with
  | O => Ret []
  | S k' =>
      j ← randbelow (n - i);
      match pool !! j, pool !! (n - i - 1) with
      | Some x, Some y =>
          rest ← sample_pool (<[j := y]> pool) n (S i) k';
          Ret (x :: rest)
      | _, _ => Raise IndexError
      end
  end.

Definition sample {A : Type} (population : list A) (k : nat) : Prog (list A) :=
  if decide (k <= length population)
  then sample_pool population (length population) 0 k
  else Raise ValueError.

(** The error-counting loop of [calculate_qber]. *)
Fixpoint count_errors (alice_bits : list Z) (bob_bits : list (option Z))
    (tested_indices : list nat) (errors : nat) : Prog nat :=
  match tested_indices with
  | [] => Ret errors
  | idx :: rest =>
      match alice_bits !! idx, bob_bits !! idx with
      | Some a, Some b =>
          if decide (Some a <> b)
          then count_errors alice_bits bob_bits rest (errors + 1)
          else count_errors alice_bits bob_bits rest errors
      | _, _ => Raise IndexError
      end
  end.

Definition calculate_qber (alice_bits : list Z) (bob_bits : list (option Z))
    (matching_indices : list nat) (test_sample_size : option nat)
    : Prog (Q * list nat * nat * nat) :=
  match matching_indices with
  | [] => Ret (0.0%Q, [], 0, 0)
  | _ :: _ =>
      let test_sample_size :=
        match test_sample_size with
        | None => Nat.max 10 (length matching_indices / 2)
        | Some k => k
        end in
      let test_sample_size := Nat.min test_sample_size (length matching_indices) in
      tested_indices ← sample matching_indices test_sample_size;
      errors ← count_errors alice_bits bob_bits tested_indices 0;
      let qber :=
        if (errors =? 0)%nat && (0 <? test_sample_size)%nat then
          let qber := (100.0 / Qnat test_sample_size)%Q in
          if Qltb qber 0.5%Q then 0.5%Q else qber
        else
          if (0 <? test_sample_size)%nat
          then (Qnat errors / Qnat test_sample_size * 100.0)%Q
          else 0.0%Q in
      Ret (qber, tested_indices, errors, test_sample_size)
  end.

Definition apply_privacy_amplification (raw_key : list Z) (qber : Q) : list Z :=
  let keep (shrink_factor : Q) :=
    let new_length := Z.max 1 (int_of_float (Qnat (length raw_key) * shrink_factor)%Q) in
    take (Z.to_nat new_length) raw_key in
  if Qltb qber 5.0%Q then keep 0.9%Q
  else if Qltb qber 11.0%Q then keep 0.7%Q
  else if Qltb qber 15.0%Q then keep 0.5%Q
  else [].

(** ** bb84.py *)

(** The dictionary [error_analysis] built by [_error_testing]. *)
Record ErrorAnalysis : Type := mkErrorAnalysis {
  ea_qber_percentage : Q;
  ea_errors_detected : nat;
  ea_bits_tested : nat;
  ea_tested_indices : list nat;
  ea_matching_bases_count : nat;
  ea_basis_match_rate : Q;
  ea_security_level : string;
  ea_assessment : string;
  ea_eve_active : bool;
  ea_safe_to_use_key : bool
}.

(** The state of a [BB84Protocol] object; a dictionary attribute that starts
    as [{}] is [None] until it is assigned. *)
Record BB84Protocol : Type := mkBB84Protocol {
  num_bits : nat;
  eve_active : bool;
  eve_attack_type : string;
  weather : string;
  time_of_day : string;
  telescope_aperture_cm : Q;
  atmosphere : AtmosphericChannel;
  eve : option EveAttack;
  alice_bits : list Z;
  alice_bases : list BasisType;
  alice_photons : list loc;
  bob_bases : list BasisType;
  bob_bits : list (option Z);
  bob_received_photons : list loc;
  matching_indices : list nat;
  sifted_key : list Z;
  final_key : list Z;
  qber : Q;
  error_analysis : option ErrorAnalysis;
  eve_stats : option EveStats;
  weather_stats : option WeatherStats
}.

(** Attribute assignments [self.f = v]. *)
Definition set_alice_bits (v : list Z) (self : BB84Protocol) : BB84Protocol :=
  mkBB84Protocol (num_bits self) (eve_active self) (eve_attack_type self) (weather self) (time_of_day self) (telescope_aperture_cm self) (atmosphere self) (eve self) v (alice_bases self) (alice_photons self) (bob_bases self) (bob_bits self) (bob_received_photons self) (matching_indices self) (sifted_key self) (final_key self) (qber self) (error_analysis self) (eve_stats self) (weather_stats self).
Definition set_alice_bases (v : list BasisType) (self : BB84Protocol) : BB84Protocol :=
  mkBB84Protocol (num_bits self) (eve_active self) (eve_attack_type self) (weather self) (time_of_day self) (telescope_aperture_cm self) (atmosphere self) (eve self) (alice_bits self) v (alice_photons self) (bob_bases self) (bob_bits self) (bob_received_photons self) (matching_indices self) (sifted_key self) (final_key self) (qber self) (error_analysis self) (eve_stats self) (weather_stats self).
Definition set_alice_photons (v : list loc) (self : BB84Protocol) : BB84Protocol :=
  mkBB84Protocol (num_bits self) (eve_active self) (eve_attack_type self) (weather self) (time_of_day self) (telescope_aperture_cm self) (atmosphere self) (eve self) (alice_bits self) (alice_bases self) v (bob_bases self) (bob_bits self) (bob_received_photons self) (matching_indices self) (sifted_key self) (final_key self) (qber self) (error_analysis self) (eve_stats self) (weather_stats self).
Definition set_bob_bases (v : list BasisType) (self : BB84Protocol) : BB84Protocol :=
  mkBB84Protocol (num_bits self) (eve_active self) (eve_attack_type self) (weather self) (time_of_day self) (telescope_aperture_cm self) (atmosphere self) (eve self) (alice_bits self) (alice_bases self) (alice_photons self) v (bob_bits self) (bob_received_photons self) (matching_indices self) (sifted_key self) (final_key self) (qber self) (error_analysis self) (eve_stats self) (weather_stats self).
Definition set_bob_bits (v : list (option Z)) (self : BB84Protocol) : BB84Protocol :=
  mkBB84Protocol (num_bits self) (eve_active self) (eve_attack_type self) (weather self) (time_of_day self) (telescope_aperture_cm self) (atmosphere self) (eve self) (alice_bits self) (alice_bases self) (alice_photons self) (bob_bases self) v (bob_received_photons self) (matching_indices self) (sifted_key self) (final_key self) (qber self) (error_analysis self) (eve_stats self) (weather_stats self).
Definition set_bob_received_photons (v : list loc) (self : BB84Protocol) : BB84Protocol :=
  mkBB84Protocol (num_bits self) (eve_active self) (eve_attack_type self) (weather self) (time_of_day self) (telescope_aperture_cm self) (atmosphere self) (eve self) (alice_bits self) (alice_bases self) (alice_photons self) (bob_bases self) (bob_bits self) v (matching_indices self) (sifted_key self) (final_key self) (qber self) (error_analysis self) (eve_stats self) (weather_stats self).
Definition set_matching_indices (v : list nat) (self : BB84Protocol) : BB84Protocol :=
  mkBB84Protocol (num_bits self) (eve_active self) (eve_attack_type self) (weather self) (time_of_day self) (telescope_aperture_cm self) (atmosphere self) (eve self) (alice_bits self) (alice_bases self) (alice_photons self) (bob_bases self) (bob_bits self) (bob_received_photons self) v (sifted_key self) (final_key self) (qber self) (error_analysis self) (eve_stats self) (weather_stats self).
Definition set_sifted_key (v : list Z) (self : BB84Protocol) : BB84Protocol :=
  mkBB84Protocol (num_bits self) (eve_active self) (eve_attack_type self) (weather self) (time_of_day self) (telescope_aperture_cm self) (atmosphere self) (eve self) (alice_bits self) (alice_bases self) (alice_photons self) (bob_bases self) (bob_bits self) (bob_received_photons self) (matching_indices self) v (final_key self) (qber self) (error_analysis self) (eve_stats self) (weather_stats self).
Definition set_final_key (v : list Z) (self : BB84Protocol) : BB84Protocol :=
  mkBB84Protocol (num_bits self) (eve_active self) (eve_attack_type self) (weather self) (time_of_day self) (telescope_aperture_cm self) (atmosphere self) (eve self) (alice_bits self) (alice_bases self) (alice_photons self) (bob_bases self) (bob_bits self) (bob_received_photons self) (matching_indices self) (sifted_key self) v (qber self) (error_analysis self) (eve_stats self) (weather_stats self).
Definition set_qber (v : Q) (self : BB84Protocol) : BB84Protocol :=
  mkBB84Protocol (num_bits self) (eve_active self) (eve_attack_type self) (weather self) (time_of_day self) (telescope_aperture_cm self) (atmosphere self) (eve self) (alice_bits self) (alice_bases self) (alice_photons self) (bob_bases self) (bob_bits self) (bob_received_photons self) (matching_indices self) (sifted_key self) (final_key self) v (error_analysis self) (eve_stats self) (weather_stats self).
Definition set_error_analysis (v : option ErrorAnalysis) (self : BB84Protocol) : BB84Protocol :=
  mkBB84Protocol (num_bits self) (eve_active self) (eve_attack_type self) (weather self) (time_of_day self) (telescope_aperture_cm self) (atmosphere self) (eve self) (alice_bits self) (alice_bases self) (alice_photons self) (bob_bases self) (bob_bits self) (bob_received_photons self) (matching_indices self) (sifted_key self) (final_key self) (qber self) v (eve_stats self) (weather_stats self).
Definition set_eve_stats (v : option EveStats) (self : BB84Protocol) : BB84Protocol :=
  mkBB84Protocol (num_bits self) (eve_active self) (eve_attack_type self) (weather self) (time_of_day self) (telescope_aperture_cm self) (atmosphere self) (eve self) (alice_bits self) (alice_bases self) (alice_photons self) (bob_bases self) (bob_bits self) (bob_received_photons self) (matching_indices self) (sifted_key self) (final_key self) (qber self) (error_analysis self) v (weather_stats self).
Definition set_weather_stats (v : option WeatherStats) (self : BB84Protocol) : BB84Protocol :=
  mkBB84Protocol (num_bits self) (eve_active self) (eve_attack_type self) (weather self) (time_of_day self) (telescope_aperture_cm self) (atmosphere self) (eve self) (alice_bits self) (alice_bases self) (alice_photons self) (bob_bases self) (bob_bits self) (bob_received_photons self) (matching_indices self) (sifted_key self) (final_key self) (qber self) (error_analysis self) (eve_stats self) v.

Definition BB84Protocol_init (num_bits : nat) (eve_active : bool) (eve_interception_rate : Q)
    (eve_attack_type : string) (distance_km : Q) (weather : string) (time_of_day : string)
    (telescope_aperture_cm : Q) : BB84Protocol :=
  mkBB84Protocol num_bits eve_active eve_attack_type weather time_of_day telescope_aperture_cm
    (AtmosphericChannel_init distance_km)
    (if eve_active then Some (EveAttack_init eve_interception_rate) else None)
    [] [] [] [] [] [] [] [] [] 0.0%Q None None None.

(** [[random.randint(0, 1) for _ in range(n)]] *)
Fixpoint random_bits (n : nat) : Prog (list Z) :=
  match n with
  | O => Ret []
  | S n' =>
      b ← randint 0 1;
      bs ← random_bits n';
      Ret (b :: bs)
  end.

(** [[Photon.create(bit, basis) for bit, basis in zip(bits, bases)]] *)
Fixpoint create_photons (bits_bases : list (Z * BasisType)) (h : heap) : list loc * heap :=
  match bits_bases with
  | [] => ([], h)
  | (bit, basis) :: rest =>
      let '(photon, h) := alloc (create bit basis) h in
      let '(photons, h) := create_photons rest h in
      (photon :: photons, h)
  end.

Definition _alice_prepare (self : BB84Protocol) (h : heap) : Prog (BB84Protocol * heap) :=
  bits ← random_bits (num_bits self);
  let self := set_alice_bits bits self in
  bases ← generate_random_bases (num_bits self);
  let self := set_alice_bases bases self in
  let '(photons, h) := create_photons (zip (alice_bits self) (alice_bases self)) h in
  Ret (set_alice_photons photons self, h).

Definition _eve_intercept (self : BB84Protocol) (h : heap) : Prog (BB84Protocol * heap) :=
  match eve self with
  | None => Ret (self, h)
  | Some eve0 =>
      '(eve1, photons, eve_bases, h) ←
        intercept_and_resend eve0 (alice_photons self) (alice_bases self) h;
      let self := mkBB84Protocol (num_bits self) (eve_active self) (eve_attack_type self)
                    (weather self) (time_of_day self) (telescope_aperture_cm self)
                    (atmosphere self) (Some eve1)
                    (alice_bits self) (alice_bases self) photons
                    (bob_bases self) (bob_bits self) (bob_received_photons self)
                    (matching_indices self) (sifted_key self) (final_key self)
                    (qber self) (error_analysis self) (eve_stats self) (weather_stats self) in
      Ret (set_eve_stats (Some (get_attack_stats eve1)) self, h)
  end.

Definition _atmospheric_transmission (math_exp : Q -> Q) (self : BB84Protocol) (h : heap)
    : Prog (BB84Protocol * heap) :=
  '(received, h) ← transmit_photons math_exp (atmosphere self) (alice_photons self) h;
  Ret (set_bob_received_photons received self, h).

(** The loop that marks the photons the weather removed.  A photon's [bit]
    is always an integer, so the source's tests [photon.bit is not None]
    always succeed. *)
Fixpoint mark_weather_losses (photons_bits : list (loc * option Z)) (h : heap) : heap :=
  match photons_bits with
  | [] => h
  | (photon, affected_bit) :: rest =>
      let h := match affected_bit with
               | None => set_is_transmitted photon false h
               | Some _ => h
               end in
      mark_weather_losses rest h
  end.

Definition _apply_weather_effects (self : BB84Protocol) (h : heap)
    : Prog (BB84Protocol * heap) :=
  let received_bits := map (fun photon => Some (bit (deref h photon))) (bob_received_photons self) in
  '(affected_bits, stats) ← apply_weather_effects received_bits (weather self);
  let self := set_weather_stats (Some stats) self in
  Ret (self, mark_weather_losses (zip (bob_received_photons self) affected_bits) h).

(** [{id(photon): i for i, photon in enumerate(photons) if photon.is_transmitted}] *)
Fixpoint received_indices_from (h : heap) (i : nat) (photons : list loc)
    (d : gmap loc nat) : gmap loc nat :=
  match photons with
  | [] => d
  | photon :: rest =>
      received_indices_from h (S i) rest
        (if is_transmitted (deref h photon) then <[photon := i]> d else d)
  end.

Fixpoint measure_loop (h : heap) (received_indices : gmap loc nat)
    (bob_bases : list BasisType) (photons : list loc) (bob_bits : list (option Z))
    : Prog (list (option Z)) :=
  match photons with
  | [] => Ret bob_bits
  | photon :: rest =>
      match received_indices !! photon with
      | None => measure_loop h received_indices bob_bases rest bob_bits
      | Some original_idx =>
          match bob_bases !! original_idx with
          | None => Raise IndexError
          | Some bob_basis =>
              '(measured_bit, _) ←
                measure_photon (bit (deref h photon)) (preparation_basis (deref h photon))
                  bob_basis;
              if decide (original_idx < length bob_bits)
              then measure_loop h received_indices bob_bases rest
                     (<[original_idx := Some measured_bit]> bob_bits)
              else Raise IndexError
          end
      end
  end.

Definition _bob_measure (self : BB84Protocol) (h : heap) : Prog BB84Protocol :=
  bases ← generate_random_bases (num_bits self);
  let self := set_bob_bases bases self in
  let self := set_bob_bits (replicate (num_bits self) None) self in
  let received_indices := received_indices_from h 0 (alice_photons self) ∅ in
  bits ← measure_loop h received_indices (bob_bases self) (bob_received_photons self)
           (bob_bits self);
  Ret (set_bob_bits bits self).

Fixpoint reconcile_loop (alice_bases bob_bases : list BasisType) (bob_bits : list (option Z))
    (idxs : list nat) (matching_indices : list nat) (sifted_key : list Z)
    : Prog (list nat * list Z) :=
  match idxs with
  | [] => Ret (matching_indices, sifted_key)
  | i :: rest =>
      match bob_bits !! i with
      | None => Raise IndexError
      | Some None =>
          reconcile_loop alice_bases bob_bases bob_bits rest matching_indices sifted_key
      | Some (Some b) =>
          match alice_bases !! i, bob_bases !! i with
          | Some a, Some b' =>
              if decide (a = b')
              then reconcile_loop alice_bases bob_bases bob_bits rest
                     (matching_indices ++ [i]) (sifted_key ++ [b])
              else reconcile_loop alice_bases bob_bases bob_bits rest
                     matching_indices sifted_key
          | _, _ => Raise IndexError
          end
      end
  end.

Definition _basis_reconciliation (self : BB84Protocol) : Prog BB84Protocol :=
  '(matching, sifted) ←
    reconcile_loop (alice_bases self) (bob_bases self) (bob_bits self)
      (seq 0 (num_bits self)) [] [];
  Ret (set_sifted_key sifted (set_matching_indices matching self)).

(** [[l[i] for i in idxs]] *)
Fixpoint index_all {A : Type} (l : list A) (idxs : list nat) : Prog (list A) :=
  match idxs with
  | [] => Ret []
  | i :: rest =>
      match l !! i with
      | None => Raise IndexError
      | Some x => xs ← index_all l rest; Ret (x :: xs)
      end
  end.

(** The security assessment of [_error_testing]: level and text. *)
Definition security_assessment (qber : Q) : string * string :=
  if Qltb qber 5.0%Q then
    ("SECURE", "Normal atmospheric noise levels")
  else if Qltb qber 11.0%Q then
    ("ACCEPTABLE", "Slightly elevated error rate, within acceptable bounds")
  else if Qltb qber 15.0%Q then
    ("SUSPICIOUS", "High error rate detected - possible eavesdropping")
  else
    ("ABORT", "CRITICAL: Error rate too high - eavesdropper detected!").

Definition _error_testing (self : BB84Protocol) : Prog BB84Protocol :=
  alice_sifted ← index_all (alice_bits self) (matching_indices self);
  bob_sifted ← index_all (bob_bits self) (matching_indices self);
  '(qber, tested_indices_in_sifted, errors, total_tested) ←
    calculate_qber alice_sifted bob_sifted (seq 0 (length (matching_indices self))) None;
  tested_indices_original ← index_all (matching_indices self) tested_indices_in_sifted;
  let '(security_level, assessment) := security_assessment qber in
  let basis_match_rate :=
    if (0 <? num_bits self)%nat
    then (Qnat (length (matching_indices self)) / Qnat (num_bits self) * 100)%Q
    else 0%Q in
  let analysis :=
    mkErrorAnalysis (round qber 2) errors total_tested tested_indices_original
      (length (matching_indices self)) (round basis_match_rate 2)
      security_level assessment (eve_active self) (Qltb qber 11.0%Q) in
  Ret (set_qber qber (set_error_analysis (Some analysis) self)).

(** [[alice_bits[matching[i]] for i in range(len(sifted_key)) if matching[i] not in tested]] *)
Fixpoint untested_bits (alice_bits : list Z) (matching_indices : list nat)
    (tested_original_set : gset nat) (idxs : list nat) : Prog (list Z) :=
  match idxs with
  | [] => Ret []
  | i :: rest =>
      match matching_indices !! i with
      | None => Raise IndexError
      | Some m =>
          if decide (m ∈ tested_original_set)
          then untested_bits alice_bits matching_indices tested_original_set rest
          else
            match alice_bits !! m with
            | None => Raise IndexError
            | Some b =>
                bs ← untested_bits alice_bits matching_indices tested_original_set rest;
                Ret (b :: bs)
            end
      end
  end.

(** [[sifted_key[i] for i in range(len(sifted_key)) if matching[i] not in tested]] *)
Fixpoint untested_sifted (sifted_key : list Z) (matching_indices : list nat)
    (tested_original_set : gset nat) (idxs : list nat) : Prog (list Z) :=
  match idxs with
  | [] => Ret []
  | i :: rest =>
      match matching_indices !! i with
      | None => Raise IndexError
      | Some m =>
          if decide (m ∈ tested_original_set)
          then untested_sifted sifted_key matching_indices tested_original_set rest
          else
            match sifted_key !! i with
            | None => Raise IndexError
            | Some b =>
                bs ← untested_sifted sifted_key matching_indices tested_original_set rest;
                Ret (b :: bs)
            end
      end
  end.

Definition _privacy_amplification (self : BB84Protocol) : Prog BB84Protocol :=
  let tested_original_set : gset nat :=
    list_to_set (match error_analysis self with
                 | Some analysis => ea_tested_indices analysis
                 | None => []
                 end) in
  let idxs := seq 0 (length (sifted_key self)) in
  alice_untested ← untested_bits (alice_bits self) (matching_indices self)
                     tested_original_set idxs;
  bob_untested ← untested_sifted (sifted_key self) (matching_indices self)
                   tested_original_set idxs;
  let corrected_key := alice_untested in
  Ret (set_final_key (apply_privacy_amplification corrected_key (qber self)) self).

(** [format(value, 'x')] *)
Definition format_x (value : Z) : string :=
  match value with
  | Z0 => "0"
  | Zpos p => HexString.Raw.of_pos p ""
  | Zneg p => String "-" (HexString.Raw.of_pos p "")
  end.

(** [sum(bit << (3 - j) for j, bit in enumerate(nibble))], from position [j] on. *)
Fixpoint nibble_value (j : nat) (nibble : list Z) : Z :=
  match nibble with
  | [] => 0%Z
  | bit :: rest => (Z.shiftl bit (3 - Z.of_nat j) + nibble_value (S j) rest)%Z
  end.

(** The loop [for i in range(0, len(padded), 4)], with [count] steps left. *)
Fixpoint hex_loop (count i : nat) (padded : list Z) (hex_str : string) : string :=
  match count with
  | O => hex_str
  | S count' =>
      let nibble := take 4 (drop i padded) in
      let value := nibble_value 0 nibble in
      hex_loop count' (i + 4) padded (hex_str +:+ format_x value)
  end.

Definition _bits_to_hex (bits : list Z) : string :=
  match bits with
  | [] => ""
  | _ :: _ =>
      let padded :=
        if decide (length bits mod 4 <> 0)
        then bits ++ replicate (4 - length bits mod 4) 0%Z
        else bits in
      hex_loop ((length padded + 3) / 4) 0 padded ""
  end.

(** The dictionary returned by [run_protocol]. *)
Record Trace : Type := mkTrace {
  tr_alice_bits : list Z;
  tr_alice_bases : list string;
  tr_bob_bases : list string;
  tr_bob_bits : list (option Z);
  tr_matching_indices : list nat;
  tr_matches : list bool;
  tr_sifted_key : list Z;
  tr_final_key : list Z;
  tr_final_key_length : nat;
  tr_final_key_hex : string;
  tr_total_bits_sent : nat;
  tr_photons_received : nat;
  tr_transmission_efficiency : Q;
  tr_basis_match_rate : Q;
  tr_key_efficiency : Q;
  tr_qber : Q;
  tr_error_analysis : option ErrorAnalysis;
  tr_channel_stats : ChannelStats;
  tr_eve_active : bool;
  tr_eve_stats : option EveStats;
  tr_secure : bool;
  tr_security_level : string
}.

(** [[alice_bases[i] == bob_bases[i] for i in range(num_bits)]] *)
Fixpoint matches_list (alice_bases bob_bases : list BasisType) (idxs : list nat)
    : Prog (list bool) :=
  match idxs with
  | [] => Ret []
  | i :: rest =>
      match alice_bases !! i, bob_bases !! i with
      | Some a, Some b =>
          ms ← matches_list alice_bases bob_bases rest;
          Ret (bool_decide (a = b) :: ms)
      | _, _ => Raise IndexError
      end
  end.

Definition _generate_trace (math_exp : Q -> Q) (self : BB84Protocol) : Prog Trace :=
  matches ← matches_list (alice_bases self) (bob_bases self) (seq 0 (num_bits self));
  match num_bits self with
  | O => Raise ZeroDivisionError
  | S _ =>
      let percent (count : nat) := round (Qnat count / Qnat (num_bits self) * 100)%Q 2 in
      channel_stats ← get_channel_stats math_exp (atmosphere self);
      Ret (mkTrace
             (alice_bits self)
             (map BasisType_value (alice_bases self))
             (map BasisType_value (bob_bases self))
             (bob_bits self)
             (matching_indices self)
             matches
             (sifted_key self)
             (final_key self)
             (length (final_key self))
             (_bits_to_hex (final_key self))
             (num_bits self)
             (length (bob_received_photons self))
             (percent (length (bob_received_photons self)))
             (percent (length (matching_indices self)))
             (percent (length (final_key self)))
             (qber self)
             (error_analysis self)
             channel_stats
             (eve_active self)
             (if eve_active self then eve_stats self else None)
             (match error_analysis self with
              | Some analysis => ea_safe_to_use_key analysis
              | None => false
              end)
             (match error_analysis self with
              | Some analysis => ea_security_level analysis
              | None => "UNKNOWN"
              end))
  end.

(** The stages of [run_protocol] that precede Bob's measurement. *)
Definition transport_stages (math_exp : Q -> Q) (self : BB84Protocol) (h : heap)
    : Prog (BB84Protocol * heap) :=
  '(self, h) ← _alice_prepare self h;
  '(self, h) ← (if eve_active self && bool_decide (is_Some (eve self))
                then _eve_intercept self h
                else Ret (self, h));
  '(self, h) ← _atmospheric_transmission math_exp self h;
  _apply_weather_effects self h.

Definition run_protocol (math_exp : Q -> Q) (self : BB84Protocol) (h : heap) : Prog Trace :=
  '(self, h) ← transport_stages math_exp self h;
  self ← _bob_measure self h;
  self ← _basis_reconciliation self;
  self ← _error_testing self;
  self ← _privacy_amplification self;
  _generate_trace math_exp self.

(** ** Specification-side definitions

    What the specification says in its own words, to be compared with the
    code above. *)

Definition is_bit (b : Z) : Prop := b = 0%Z \/ b = 1%Z.

(** §4.7: the shrink factor by QBER. *)
Definition shrink_factor (q : Q) : Q :=
  if Qlt_le_dec q 5 then 0.9%Q
  else if Qlt_le_dec q 11 then 0.7%Q
  else if Qlt_le_dec q 15 then 0.5%Q
  else 0%Q.

(** §4.7: "Output length = max(1, floor(len · factor)) when factor > 0, else 0". *)
Definition amplified_length (len : nat) (q : Q) : nat :=
  if Qlt_le_dec 0 (shrink_factor q)
  then Nat.max 1 (Z.to_nat (Qfloor (Qnat len * shrink_factor q)))
  else 0.

(** §4.6: the security classification table. *)
Definition security_level_of (q : Q) : string :=
  if Qlt_le_dec q 5 then "SECURE"
  else if Qlt_le_dec q 11 then "ACCEPTABLE"
  else if Qlt_le_dec q 15 then "SUSPICIOUS"
  else "ABORT".

(** §4.6: the sample size, the error count over the tested positions, and
    the reported QBER with its zero-error floor. *)
Definition sample_size_of (m : nat) : nat := Nat.min (Nat.max 10 (m / 2)) m.

Definition bit_differs (alice_bits : list Z) (bob_bits : list (option Z)) (idx : nat) : bool :=
  match alice_bits !! idx, bob_bits !! idx with
  | Some a, Some b => negb (bool_decide (Some a = b))
  | _, _ => false
  end.

Definition error_count (alice_bits : list Z) (bob_bits : list (option Z))
    (tested : list nat) : nat :=
  length (filter (fun idx => bit_differs alice_bits bob_bits idx = true) tested).

Definition qber_of (errors sample_size : nat) : Q :=
  if decide (errors = 0 /\ 0 < sample_size)
  then Qmax 0.5%Q (100 / Qnat sample_size)%Q
  else (Qnat errors / Qnat sample_size * 100)%Q.

(** An index that [calculate_qber] can look up in both bit lists. *)
Definition in_range (alice_bits : list Z) (bob_bits : list (option Z)) (idx : nat) : Prop :=
  idx < length alice_bits /\ idx < length bob_bits.

(** The number of ordered selections of [k] out of [n] without replacement. *)
Fixpoint arrangements (n k : nat) : nat :=
  match k with
  | O => 1
  | S k' => n * arrangements (n - 1) k'
  end.

(** The event "the tested indices are exactly [xs]" on a result of
    [calculate_qber]. *)
Definition tests (xs : list nat) (res : result (Q * list nat * nat * nat)) : bool :=
  match res with
  | Ok (_, tested, _, _) => bool_decide (tested = xs)
  | Err _ => false
  end.

(** §4.8: one hexadecimal digit per nibble, and its decoding, most
    significant bit first. *)
Definition hex_digit (v : Z) : ascii :=
  nth (Z.to_nat v) (list_ascii_of_string "0123456789abcdef") "?"%char.

Definition nibble_bits (v : N) : list Z :=
  [Z.of_N (v / 8 mod 2); Z.of_N (v / 4 mod 2); Z.of_N (v / 2 mod 2); Z.of_N (v mod 2)].

Fixpoint hex_to_bits (s : string) : option (list Z) :=
  match s with
  | EmptyString => Some []
  | String c rest =>
      match HexString.ascii_to_digit c, hex_to_bits rest with
      | Some v, Some bits => Some (nibble_bits v ++ bits)
      | _, _ => None
      end
  end.

(** ** Auxiliary definitions for the proofs *)

(** [hex_loop] unrolled over the successive four-element slices of a list. *)
Fixpoint hex_of_chunks (count : nat) (l : list Z) : string :=
  match count with
  | O => ""
  | S count' => format_x (nibble_value 0 (take 4 l)) +:+ hex_of_chunks count' (drop 4 l)
  end.

(** The value of the nibble that starts at position [4 * i], reading missing
    positions as zero. *)
Definition nibble_at (bits : list Z) (i : nat) : Z :=
  (8 * nth (4 * i) bits 0 + 4 * nth (4 * i + 1) bits 0
   + 2 * nth (4 * i + 2) bits 0 + nth (4 * i + 3) bits 0)%Z.

(** What [_error_testing] leaves in the protocol object. *)
Definition analysis_matches_qber (self : BB84Protocol) : Prop :=
  exists analysis,
    error_analysis self = Some analysis /\
    ea_security_level analysis = fst (security_assessment (qber self)) /\
    ea_safe_to_use_key analysis = Qltb (qber self) 11.0%Q.

(** A photon Eve resends: allocated after [h0] was taken, encoded in her
    basis, marked intercepted. *)
Definition fresh_resent (h0 h' : heap) (l' : loc) (eve_basis : BasisType) : Prop :=
  length h0 <= l' /\
  exists b : Z, h' !! l' = Some (mkPhoton b eve_basis (state (create b eve_basis)) true true).

(** The loop invariant of [intercept_and_resend]: [done] is the part of the
    input already visited, [h0] the store at the call. *)
Definition eve_inv (h0 : heap) (done modified : list loc)
    (eve_bases : list (option BasisType)) (h : heap) : Prop :=
  length modified = length done /\
  length eve_bases = length done /\
  length h0 <= length h /\
  NoDup modified /\
  Forall (fun l => l < length h) modified /\
  (forall l, l < length h0 ->
     (forall j, done !! j = Some l -> eve_bases !! j = Some None) ->
     h !! l = h0 !! l) /\
  (forall j l, done !! j = Some l ->
     (eve_bases !! j = Some None /\ modified !! j = Some l) \/
     (exists eve_basis l', eve_bases !! j = Some (Some eve_basis) /\
        modified !! j = Some l' /\ fresh_resent h0 h l' eve_basis)).

(** The outcomes of [measure_photon] that the generator can produce. *)
Definition measurement_of (bit : Z) (preparation_basis measurement_basis : BasisType)
    (res : Z * bool) : Prop :=
  snd res = bool_decide (preparation_basis = measurement_basis) /\
  (if snd res
   then fst res = bit \/ fst res = (1 - bit)%Z
   else fst res = 0%Z \/ fst res = 1%Z).




(** Result types of the loops of weather.py and attacks.py, for events. *)
Abbreviation result_of_weather_loop := (result (list (option Z) * nat)) (only parsing).
Abbreviation result_of_attack := (result (list (option Z) * AttackStats)) (only parsing).

(** * Further code of the repository *)

(** ** basis.py: string conversion *)

Definition to_string (basis : BasisType) : string := BasisType_value basis.

Definition from_string (basis_str : string) : Prog BasisType :=
  if String.eqb basis_str "+" then Ret RECTILINEAR
  else if String.eqb basis_str "×" then Ret DIAGONAL
  else Raise ValueError.

(** ** qber.py: [analyze_errors]

    Its security assessment is the same text as the driver's, so
    [security_assessment] is used for both. *)

(** [[i for i in range(total_bits)
       if alice_bases[i] == bob_bases[i] and bob_bits[i] not in (None, -1)]] *)
Fixpoint analyze_matching (alice_bases bob_bases : list string) (bob_bits : list (option Z))
    (idxs : list nat) : Prog (list nat) :=
  match idxs with
  | [] => Ret []
  | i :: rest =>
      match alice_bases !! i, bob_bases !! i with
      | Some a, Some b =>
          if String.eqb a b then
            match bob_bits !! i with
            | None => Raise IndexError
            | Some bob_bit =>
                ms ← analyze_matching alice_bases bob_bases bob_bits rest;
                if decide (bob_bit <> None /\ bob_bit <> Some (-1)%Z)
                then Ret (i :: ms) else Ret ms
            end
          else analyze_matching alice_bases bob_bases bob_bits rest
      | _, _ => Raise IndexError
      end
  end.

Definition analyze_errors (alice_bits : list Z) (bob_bits : list (option Z))
    (alice_bases bob_bases : list string) (eve_active : bool) : Prog ErrorAnalysis :=
  let total_bits := length alice_bits in
  matching_indices ← analyze_matching alice_bases bob_bases bob_bits (seq 0 total_bits);
  '(qber, tested_indices, errors, total_tested) ←
    calculate_qber alice_bits bob_bits matching_indices None;
  let '(security_level, assessment) := security_assessment qber in
  let basis_match_rate :=
    if (0 <? total_bits)%nat
    then (Qnat (length matching_indices) / Qnat total_bits * 100)%Q
    else 0%Q in
  Ret (mkErrorAnalysis (round qber 2) errors total_tested tested_indices
         (length matching_indices) (round basis_match_rate 2)
         security_level assessment eve_active (Qltb qber 11.0%Q)).

(** ** utils/math_utils.py: bits and bytes

    A [bytes] value is a list of integers; [bytearray.append] refuses an
    integer outside [range(256)]. *)

(** [sum(bit << (7 - j) for j, bit in enumerate(byte))], from position [j] on. *)
Fixpoint byte_value (j : nat) (byte : list Z) : Z :=
  match byte with
  | [] => 0%Z
  | bit :: rest => (Z.shiftl bit (7 - Z.of_nat j) + byte_value (S j) rest)%Z
  end.

(** The loop [for i in range(0, len(padded), 8)], with [count] steps left. *)
Fixpoint bytes_loop (count i : nat) (padded : list Z) (byte_array : list Z)
    : Prog (list Z) :=
  match count with
  | O => Ret byte_array
  | S count' =>
      let byte := take 8 (drop i padded) in
      let value := byte_value 0 byte in
      if decide (0 <= value < 256)%Z
      then bytes_loop count' (i + 8) padded (byte_array ++ [value])
      else Raise ValueError
  end.

Definition bits_to_bytes (bits : list Z) : Prog (list Z) :=
  let padded :=
    if decide (length bits mod 8 <> 0)
    then bits ++ replicate (8 - length bits mod 8) 0%Z
    else bits in
  bytes_loop ((length padded + 7) / 8) 0 padded [].

(** [[(byte >> i) & 1 for i in range(7, -1, -1)]] *)
Definition byte_bits (byte : Z) : list Z :=
  map (fun i : nat => Z.land (Z.shiftr byte (Z.of_nat i)) 1) [7; 6; 5; 4; 3; 2; 1; 0].

Fixpoint bytes_to_bits (byte_data : list Z) : list Z :=
  match byte_data with
  | [] => []
  | byte :: rest => byte_bits byte ++ bytes_to_bits rest
  end.

(** ** encryption/aes.py: key derivation

    [hashlib.sha256(data).digest()] is a parameter, a function from byte
    strings to byte strings.  Strings are lists of characters here, so that
    slices are [take] and [drop]. *)

(** [str(bit)] of an [int]: its decimal numeral. *)
Definition str_of_int (z : Z) : string := pretty z.

(** The value of a string of binary digits, most significant first. *)
Fixpoint bin_value (acc : Z) (s : list ascii) : option Z :=
  match s with
  | [] => Some acc
  | c :: rest =>
      if Ascii.eqb c "0" then bin_value (2 * acc) rest
      else if Ascii.eqb c "1" then bin_value (2 * acc + 1) rest
      else None
  end.

(** [int(s, 2)] on a string made of the characters of decimal numerals
    (digits and the minus sign, all that [str] of an [int] contains): an
    optional minus sign followed by one or more binary digits; on any other
    such string [int] raises [ValueError], here [None]. *)
Definition int_base2 (s : list ascii) : option Z :=
  match s with
  | [] => None
  | c :: rest =>
      if Ascii.eqb c "-" then
        match rest with
        | [] => None
        | _ :: _ => Z.opp <$> bin_value 0 rest
        end
      else bin_value 0 s
  end.

(** The loop [for i in range(0, len(bit_string), 8)], with [count] steps
    left; [bytearray.append] refuses a value outside [range(256)]. *)
Fixpoint key_loop (count i : nat) (bit_string : list ascii) (byte_array : list Z)
    : Prog (list Z) :=
  match count with
  | O => Ret byte_array
  | S count' =>
      let byte := take 8 (drop i bit_string) in
      match int_base2 byte with
      | None => Raise ValueError
      | Some value =>
          if decide (0 <= value < 256)%Z
          then key_loop count' (i + 8) bit_string (byte_array ++ [value])
          else Raise ValueError
      end
  end.

Definition derive_aes_key (sha256 : list Z -> list Z) (quantum_bits : list Z)
    (key_size : nat) : Prog (list Z) :=
  let bit_string :=
    concat (map (fun bit => list_ascii_of_string (str_of_int bit)) quantum_bits) in
  let bit_string :=
    if decide (length bit_string < key_size * 8)
    then bit_string ++ replicate (key_size * 8 - length bit_string) "0"%char
    else bit_string in
  byte_array ← key_loop ((length bit_string + 7) / 8) 0 bit_string [];
  let key_bytes := take key_size byte_array in
  let derived_key := take key_size (sha256 key_bytes) in
  Ret derived_key.

(** ** Auxiliary definitions for the further properties *)

(** Two states of one photon object that differ at most in [bit] and
    [is_transmitted]. *)
Definition same_preparation (p p' : Photon) : Prop :=
  preparation_basis p' = preparation_basis p /\
  state p' = state p /\
  is_intercepted p' = is_intercepted p.

(** What transmission does to the photon at [l], whose state was [p]. *)
Definition transmitted_state (received : list loc) (l : loc) (p p' : Photon) : Prop :=
  same_preparation p p' /\
  if decide (l ∈ received)
  then is_transmitted p' = true /\ (bit p' = bit p \/ bit p' = (1 - bit p)%Z)
  else is_transmitted p' = false /\ bit p' = bit p.

(** The invariant of [transmit_loop]: [done] is the part of the input already
    visited, [h0] the store at the call. *)
Definition transmit_inv (h0 : heap) (done received : list loc) (h : heap) : Prop :=
  length h = length h0 /\
  received `sublist_of` done /\
  (forall l, l ∉ done -> h !! l = h0 !! l) /\
  (forall l p, l ∈ done -> h0 !! l = Some p ->
     exists p', h !! l = Some p' /\ transmitted_state received l p p').

(** An output entry of the weather stage or of an attack that removes
    photons: the input entry, or a loss. *)
Definition kept_or_lost (input output : option Z) : Prop :=
  output = input \/ output = None.

(** An output entry of an attack that measures and resends: a lost photon
    stays lost, a present one keeps its bit or has it flipped. *)
Definition flipped_or_kept (input output : option Z) : Prop :=
  match input with
  | None => output = None
  | Some b => output = Some b \/ output = Some (1 - b)%Z
  end.

(** An output entry of the jammed link: lost, kept or flipped. *)
Definition jammed_entry (input output : option Z) : Prop :=
  match input with
  | None => output = None
  | Some b => output = None \/ output = Some b \/ output = Some (1 - b)%Z
  end.

(** An output entry of detector blinding: kept, or replaced by a fake bit. *)
Definition blinded_or_kept (input output : option Z) : Prop :=
  match input with
  | None => output = None
  | Some b => output = Some b \/ output = Some 0%Z \/ output = Some 1%Z
  end.

(** An output entry of any of the five strategies. *)
Definition attack_entry (input output : option Z) : Prop :=
  match input with
  | None => output = None
  | Some b =>
      output = None \/ output = Some b \/ output = Some (1 - b)%Z \/
      output = Some 0%Z \/ output = Some 1%Z
  end.

(** The number of positions at which two streams differ. *)
Definition changed (input output : list (option Z)) : nat :=
  length (filter (fun io => fst io <> snd io) (zip input output)).

(** The number of photons present in a stream. *)
Definition present (photon_states : list (option Z)) : nat :=
  length photon_states - count_None photon_states.

(** The positions of Eve's basis list that hold a basis, counted from [i]. *)
Fixpoint intercepted_indices (i : nat) (eve_bases : list (option BasisType)) : list nat :=
  match eve_bases with
  | [] => []
  | Some _ :: rest => i :: intercepted_indices (S i) rest
  | None :: rest => intercepted_indices (S i) rest
  end.

(** What a record of [EveAttack.measurements] says about the position it
    names: the basis Eve used there, whether it is the sender's, and a bit
    that such a measurement can give. *)
Definition eve_record (alice_bases : list BasisType) (eve_bases : list (option BasisType))
    (m : Measurement) : Prop :=
  exists alice_basis eve_basis : BasisType,
    alice_bases !! m_index m = Some alice_basis /\
    eve_bases !! m_index m = Some (Some eve_basis) /\
    m_eve_basis m = BasisType_value eve_basis /\
    measurement_of (m_original_bit m) alice_basis eve_basis
      (m_measured_bit m, m_bases_matched m).

(** The positions the sifting keeps: a bit was measured there and the sender
    and receiver bases agree. *)
Definition sifted_at (alice_bases bob_bases : list BasisType) (bob_bits : list (option Z))
    (i : nat) : bool :=
  match bob_bits !! i, alice_bases !! i, bob_bases !! i with
  | Some (Some _), Some a, Some b => bool_decide (a = b)
  | _, _, _ => false
  end.

(** The lengths the stages after the measurement rely on. *)
Definition measured (n : nat) (self : BB84Protocol) : Prop :=
  num_bits self = n /\
  length (alice_bits self) = n /\
  length (alice_bases self) = n /\
  length (bob_bases self) = n /\
  length (bob_bits self) = n.

(** What [_error_testing] leaves in the object [self'] it was called on as
    [self]: the report on a sample of the matching indices. *)
Definition error_report (self self' : BB84Protocol) : Prop :=
  let m := length (matching_indices self) in
  exists analysis : ErrorAnalysis,
    error_analysis self' = Some analysis /\
    matching_indices self' = matching_indices self /\
    sifted_key self' = sifted_key self /\
    ea_matching_bases_count analysis = m /\
    ea_bits_tested analysis = sample_size_of m /\
    length (ea_tested_indices analysis) = sample_size_of m /\
    ea_tested_indices analysis ⊆+ matching_indices self /\
    ea_errors_detected analysis
    = error_count (alice_bits self) (bob_bits self) (ea_tested_indices analysis) /\
    ea_errors_detected analysis <= ea_bits_tested analysis /\
    (m = 0 -> (qber self' == 0)%Q) /\
    (0 < m ->
     (qber self' == qber_of (ea_errors_detected analysis) (sample_size_of m))%Q).

(** The verdicts [_error_testing] can reach on a short sifted key. *)
Definition short_sift_verdict (self self' : BB84Protocol) : Prop :=
  let m := length (matching_indices self) in
  exists analysis : ErrorAnalysis,
    error_analysis self' = Some analysis /\
    (m = 0 ->
     (qber self' == 0)%Q /\ ea_security_level analysis = "SECURE" /\
     ea_safe_to_use_key analysis = true) /\
    (0 < m -> (100 <= qber self' * Qnat (sample_size_of m))%Q /\ (qber self' <= 100)%Q) /\
    (0 < m < 42 -> ea_security_level analysis <> "SECURE") /\
    (0 < m < 10 -> ea_safe_to_use_key analysis = false) /\
    (0 < m < 7 -> ea_security_level analysis = "ABORT").

(** The indices [_privacy_amplification] reads as tested. *)
Definition tested_indices_of (self : BB84Protocol) : list nat :=
  match error_analysis self with
  | Some analysis => ea_tested_indices analysis
  | None => []
  end.

(** Alice's bits at the matching indices that were not tested, in order. *)
Definition alice_untested (self : BB84Protocol) : list Z :=
  (fun i => alice_bits self !!! i)
    <$> filter (fun i => i ∉ tested_indices_of self) (matching_indices self).

(** What error testing followed by privacy amplification leaves in the
    object. *)
Definition distilled (self self' : BB84Protocol) : Prop :=
  let m := length (matching_indices self) in
  final_key self' = apply_privacy_amplification (alice_untested self') (qber self') /\
  length (alice_untested self') = m - sample_size_of m /\
  length (final_key self') <= m - sample_size_of m /\
  (m <= 10 -> final_key self' = []) /\
  ((15 <= qber self')%Q -> final_key self' = []).



(** A value a [bytes] object can hold. *)
Definition is_byte (b : Z) : Prop := (0 <= b < 256)%Z.

(** The positions [analyze_errors] keeps: equal basis strings and a measured
    bit that is neither [None] nor the marker [-1]. *)
Definition analyzed_at (alice_bases bob_bases : list string) (bob_bits : list (option Z))
    (i : nat) : bool :=
  match alice_bases !! i, bob_bases !! i, bob_bits !! i with
  | Some a, Some b, Some bob_bit =>
      String.eqb a b && bool_decide (bob_bit <> None /\ bob_bit <> Some (-1)%Z)
  | _, _, _ => false
  end.

(** What [_alice_prepare] leaves behind when called on [self] with store
    [h]: [n] bits, [n] bases, and [n] new photon objects after the objects
    of [h], the photon at position [i] encoding bit [i] in basis [i]. *)
Definition alice_prepared (self : BB84Protocol) (h : heap) (res : BB84Protocol * heap) : Prop :=
  let '(self', h') := res in
  let n := num_bits self in
  length (alice_bits self') = n /\
  length (alice_bases self') = n /\
  Forall is_bit (alice_bits self') /\
  alice_photons self' = seq (length h) n /\
  length h' = length h + n /\
  (forall l, l < length h -> h' !! l = h !! l) /\
  (forall i b basis,
     alice_bits self' !! i = Some b -> alice_bases self' !! i = Some basis ->
     h' !! (length h + i) = Some (create b basis)).

(** The character [str] gives for a bit. *)
Definition bit_char (b : Z) : ascii := if (b =? 0)%Z then "0"%char else "1"%char.

(** The bits that decide the key material of [derive_aes_key]: the first
    [8 * key_size] bits of the quantum bits, zero bits standing in for
    missing ones. *)
Definition key_window (key_size : nat) (quantum_bits : list Z) : list Z :=
  take (8 * key_size)
       (quantum_bits ++ replicate (8 * key_size - length quantum_bits) 0%Z).
(** * Part II: properties *)

(** ** Rationals and the program monad *)

Lemma Qltb_lt x y : Qltb x y = true <-> (x < y)%Q.
Proof.
  unfold Qltb. rewrite negb_true_iff. split.
  - intros H. apply Qnot_le_lt. intros Hle. apply Qle_bool_iff in Hle. congruence.
  - intros H. destruct (Qle_bool y x) eqn:E; [|reflexivity].
    apply Qle_bool_iff in E. exfalso. exact (Qlt_not_le _ _ H E).
Qed.

Lemma Qltb_ge x y : Qltb x y = false <-> (y <= x)%Q.
Proof.
  unfold Qltb. rewrite negb_false_iff. apply Qle_bool_iff.
Qed.

Lemma wp_bind {A B : Type} (p : Prog A) (f : A -> Prog B) post exc :
  wp (p ≫= f) post exc <-> wp p (fun a => wp (f a) post exc) exc.
Proof.
  unfold mbind, prog_bind.
  induction p as [a|e|k IH|n k IH]; simpl; try tauto.
  - split; intros H r H0 H1; apply IH; auto.
  - split; intros H i Hi; apply IH; auto.
Qed.

Lemma wp_mono {A : Type} (p : Prog A) (post post' : A -> Prop) (exc exc' : exn -> Prop) :
  (forall a, post a -> post' a) -> (forall e, exc e -> exc' e) ->
  wp p post exc -> wp p post' exc'.
Proof.
  intros Hp He. induction p as [a|e|k IH|n k IH]; simpl; auto.
Qed.

Lemma wp_trivial {A : Type} (p : Prog A) : wp p (fun _ => True) may_raise.
Proof.
  induction p as [a|e|k IH|n k IH]; simpl; auto. exact I.
Qed.

Lemma below_of_draw_lt r n : valid_draw r -> 0 < n -> below_of_draw r n < n.
Proof.
  intros [H0 H1] Hn. unfold below_of_draw.
  assert (Hq : (r * inject_Z (Z.of_nat n) < inject_Z (Z.of_nat n))%Q).
  { rewrite <- (Qmult_1_l (inject_Z (Z.of_nat n))) at 2.
    apply Qmult_lt_compat_r; [|exact H1].
    change 0%Q with (inject_Z 0). rewrite <- Zlt_Qlt. lia. }
  assert (Hf : (Qfloor (r * inject_Z (Z.of_nat n)) < Z.of_nat n)%Z).
  { rewrite Zlt_Qlt. eapply Qle_lt_trans; [apply Qfloor_le|exact Hq]. }
  assert (Hg : (0 <= Qfloor (r * inject_Z (Z.of_nat n)))%Z).
  { change 0%Z with (Qfloor 0). apply Qfloor_resp_le.
    apply Qmult_le_0_compat; [exact H0|].
    change 0%Q with (inject_Z 0). rewrite <- Zle_Qle. lia. }
  lia.
Qed.

(** A replayed run is one of the outcomes [wp] quantifies over. *)
Lemma run_sound {A : Type} (p : Prog A) post exc tape res :
  wp p post exc -> Forall valid_draw tape -> run p tape = Some res ->
  match res with Ok a => post a | Err e => exc e end.
Proof.
  revert tape. induction p as [a|e|k IH|n k IH]; simpl; intros tape Hwp Hv Hrun.
  - injection Hrun as <-. exact Hwp.
  - injection Hrun as <-. exact Hwp.
  - destruct tape as [|r tape']; [discriminate|].
    inversion Hv as [|? ? [H0 H1] Hv']; subst.
    eapply IH; eauto.
  - destruct n as [|n]; [discriminate|].
    destruct tape as [|r tape']; [discriminate|].
    inversion Hv as [|? ? Hr Hv']; subst.
    apply (IH (below_of_draw r (S n)) tape'); [|exact Hv'|exact Hrun].
    apply Hwp. apply below_of_draw_lt; [exact Hr|lia].
Qed.


(** Linear arithmetic with division and remainder by constants. *)
Ltac lia_div := zify; Z.to_euclidean_division_equations; lia.

(** ** Privacy amplification (qber.py) *)

Lemma int_of_float_scaled (n : nat) (a : Z) (b : positive) :
  (0 <= a)%Z -> int_of_float (Qnat n * (a # b))%Q = (Z.of_nat n * a / Z.pos b)%Z.
Proof.
  intros Ha. unfold int_of_float, Qle_bool, Qnat, Qmult, Qfloor, inject_Z. simpl.
  match goal with |- context [Z.leb ?x ?y] => destruct (Z.leb_spec x y) as [_|Hneg] end;
    [reflexivity|nia].
Qed.

Lemma Qfloor_scaled (n : nat) (a : Z) (b : positive) :
  Qfloor (Qnat n * (a # b))%Q = (Z.of_nat n * a / Z.pos b)%Z.
Proof. reflexivity. Qed.

Lemma Qltb_true (x y : Q) : (x < y)%Q -> Qltb x y = true.
Proof. apply Qltb_lt. Qed.

Lemma Qltb_false (x y : Q) : (y <= x)%Q -> Qltb x y = false.
Proof. apply Qltb_ge. Qed.

(** Splits on the QBER band of [q], leaving the band's bounds as hypotheses. *)
Ltac qber_bands q :=
  destruct (Qlt_le_dec q 5) as [?Hq5|?Hq5];
  [|destruct (Qlt_le_dec q 11) as [?Hq11|?Hq11];
    [|destruct (Qlt_le_dec q 15) as [?Hq15|?Hq15]]].

(** Decides the code's comparisons of [q] against its float thresholds. *)
Ltac decide_thresholds :=
  repeat first
    [ rewrite Qltb_true by lra
    | rewrite Qltb_false by lra ].

Lemma privacy_amplification_take (raw_key : list Z) (q : Q) :
  apply_privacy_amplification raw_key q = take (amplified_length (length raw_key) q) raw_key.
Proof.
  unfold apply_privacy_amplification, amplified_length, shrink_factor.
  qber_bands q; decide_thresholds;
    destruct (Qlt_le_dec 0 _) as [Hlt|Hle]; try lra; try reflexivity;
    rewrite int_of_float_scaled by lia; rewrite Qfloor_scaled;
    f_equal; lia.
Qed.





(** ** Hex rendering (bb84.py) *)

Lemma string_app_cons (c : ascii) (s t : string) : String c s +:+ t = String c (s +:+ t).
Proof. reflexivity. Qed.

Lemma string_app_nil_l (s : string) : "" +:+ s = s.
Proof. reflexivity. Qed.

Lemma string_app_nil_r (s : string) : s +:+ "" = s.
Proof. induction s as [|c s IH]; [reflexivity|]. rewrite string_app_cons. now f_equal. Qed.

Lemma string_app_assoc (s1 s2 s3 : string) : (s1 +:+ s2) +:+ s3 = s1 +:+ (s2 +:+ s3).
Proof.
  induction s1 as [|c s1 IH]; [reflexivity|]. rewrite !string_app_cons. now f_equal.
Qed.

Lemma hex_loop_chunks (count : nat) : forall (i : nat) (padded : list Z) (hex_str : string),
  hex_loop count i padded hex_str = hex_str +:+ hex_of_chunks count (drop i padded).
Proof.
  induction count as [|count IH]; intros i padded hex_str; cbn [hex_loop hex_of_chunks].
  - now rewrite string_app_nil_r.
  - rewrite IH, string_app_assoc, drop_drop. reflexivity.
Qed.

(** A full nibble of bits renders as exactly one digit. *)
Lemma format_x_nibble (b3 b2 b1 b0 : Z) :
  is_bit b3 -> is_bit b2 -> is_bit b1 -> is_bit b0 ->
  format_x (nibble_value 0 [b3; b2; b1; b0])
  = String (hex_digit (8 * b3 + 4 * b2 + 2 * b1 + b0)) "".
Proof.
  intros [-> | ->] [-> | ->] [-> | ->] [-> | ->]; reflexivity.
Qed.

Lemma hex_digit_decodes (b3 b2 b1 b0 : Z) :
  is_bit b3 -> is_bit b2 -> is_bit b1 -> is_bit b0 ->
  option_map nibble_bits (HexString.ascii_to_digit (hex_digit (8 * b3 + 4 * b2 + 2 * b1 + b0)))
  = Some [b3; b2; b1; b0].
Proof.
  intros [-> | ->] [-> | ->] [-> | ->] [-> | ->]; reflexivity.
Qed.

Lemma length_four_chunks {A : Type} (count : nat) (l : list A) :
  length l = 4 * S count ->
  exists b3 b2 b1 b0 l', l = b3 :: b2 :: b1 :: b0 :: l' /\ length l' = 4 * count.
Proof.
  intros H. destruct l as [|b3 [|b2 [|b1 [|b0 l']]]]; simpl in H; try lia.
  exists b3, b2, b1, b0, l'. split; [reflexivity|lia].
Qed.

Lemma hex_of_chunks_digits (count : nat) : forall l : list Z,
  length l = 4 * count -> Forall is_bit l ->
  String.length (hex_of_chunks count l) = count /\
  forall i, i < count ->
    String.get i (hex_of_chunks count l) = Some (hex_digit (nibble_at l i)).
Proof.
  induction count as [|count IH]; intros l Hlen Hbits.
  - split; [reflexivity|]. intros i Hi. lia.
  - destruct (length_four_chunks count l Hlen) as (b3 & b2 & b1 & b0 & l' & -> & Hlen').
    inversion Hbits as [|? ? H3 Hb]; subst. inversion Hb as [|? ? H2 Hb']; subst.
    inversion Hb' as [|? ? H1 Hb'']; subst. inversion Hb'' as [|? ? H0 Hl']; subst.
    destruct (IH l' Hlen' Hl') as [IHlen IHget].
    cbn [hex_of_chunks take drop]. rewrite format_x_nibble by assumption.
    rewrite string_app_cons, string_app_nil_l, drop_0. split.
    + exact (f_equal S IHlen).
    + intros [|i] Hi.
      * reflexivity.
      * change (String.get i (hex_of_chunks count l') =
                Some (hex_digit (nibble_at (b3 :: b2 :: b1 :: b0 :: l') (S i)))).
        rewrite IHget by lia. unfold nibble_at.
        replace (4 * S i) with (S (S (S (S (4 * i))))) by lia.
        reflexivity.
Qed.

Lemma hex_to_bits_cons (c : ascii) (rest : string) :
  hex_to_bits (String c rest)
  = match HexString.ascii_to_digit c, hex_to_bits rest with
    | Some v, Some bits => Some (nibble_bits v ++ bits)
    | _, _ => None
    end.
Proof. reflexivity. Qed.

Lemma hex_of_chunks_decodes (count : nat) : forall l : list Z,
  length l = 4 * count -> Forall is_bit l ->
  hex_to_bits (hex_of_chunks count l) = Some l.
Proof.
  induction count as [|count IH]; intros l Hlen Hbits.
  - destruct l; [reflexivity|discriminate].
  - destruct (length_four_chunks count l Hlen) as (b3 & b2 & b1 & b0 & l' & -> & Hlen').
    inversion Hbits as [|? ? H3 Hb]; subst. inversion Hb as [|? ? H2 Hb']; subst.
    inversion Hb' as [|? ? H1 Hb'']; subst. inversion Hb'' as [|? ? H0 Hl']; subst.
    cbn [hex_of_chunks take drop]. rewrite format_x_nibble by assumption.
    rewrite string_app_cons, string_app_nil_l.
    rewrite hex_to_bits_cons, drop_0, (IH l' Hlen' Hl').
    pose proof (hex_digit_decodes b3 b2 b1 b0 H3 H2 H1 H0) as Hd.
    destruct (HexString.ascii_to_digit _) as [v|]; [|discriminate].
    cbn [option_map] in Hd. apply (inj Some) in Hd. now rewrite Hd.
Qed.

Lemma nth_pad_zero (bits : list Z) (k j : nat) :
  nth j (bits ++ replicate k 0%Z) 0%Z = nth j bits 0%Z.
Proof.
  rewrite !nth_lookup. destruct (decide (j < length bits)) as [Hlt|Hge].
  - now rewrite lookup_app_l.
  - rewrite lookup_app_r by lia. rewrite (proj2 (lookup_ge_None bits j)) by lia.
    destruct (replicate k 0%Z !! (j - length bits)) as [z|] eqn:E; [|reflexivity].
    apply lookup_replicate in E as [-> _]. reflexivity.
Qed.

Lemma nibble_at_pad (bits : list Z) (k i : nat) :
  nibble_at (bits ++ replicate k 0%Z) i = nibble_at bits i.
Proof. unfold nibble_at. now rewrite !nth_pad_zero. Qed.

(** The padded list the renderer works on, and the rendering as chunks. *)
Lemma bits_to_hex_chunks (bits : list Z) :
  exists k : nat,
    (length bits mod 4 = 0 -> k = 0) /\
    length (bits ++ replicate k 0%Z) = 4 * ((length bits + 3) / 4) /\
    _bits_to_hex bits
    = hex_of_chunks ((length bits + 3) / 4) (bits ++ replicate k 0%Z).
Proof.
  destruct bits as [|b bits].
  - exists 0. repeat split; reflexivity.
  - unfold _bits_to_hex. set (l := b :: bits).
    destruct (decide (length l mod 4 <> 0)) as [Hr|Hr].
    + exists (4 - length l mod 4). split; [intros; congruence|].
      assert (Hlen : length (l ++ replicate (4 - length l mod 4) 0%Z)
                     = 4 * ((length l + 3) / 4)).
      { rewrite length_app, length_replicate. lia_div. }
      split; [exact Hlen|].
      rewrite hex_loop_chunks, string_app_nil_l, drop_0. f_equal.
      rewrite Hlen. lia_div.
    + exists 0. split; [reflexivity|]. rewrite app_nil_r.
      assert (Hlen : length l = 4 * ((length l + 3) / 4)) by lia_div.
      split; [exact Hlen|].
      rewrite hex_loop_chunks, string_app_nil_l, drop_0. reflexivity.
Qed.

(** C9.  [bits_to_hex] is a function of its input.  On a list of bits it
    emits one hexadecimal digit per group of four, [ceil (len / 4)] digits in
    all; digit [i] is the value of bits [4i .. 4i+3] read most significant
    bit first, a missing bit on the right counting as zero.  When the length
    is a multiple of 4, decoding the digits most significant bit first gives
    the bits back. *)
Theorem bits_to_hex_spec (bits : list Z) :
  Forall is_bit bits ->
  (forall bits' : list Z, bits' = bits -> _bits_to_hex bits' = _bits_to_hex bits) /\
  String.length (_bits_to_hex bits) = (length bits + 3) / 4 /\
  (forall i : nat, i < (length bits + 3) / 4 ->
     String.get i (_bits_to_hex bits) = Some (hex_digit (nibble_at bits i))) /\
  (length bits mod 4 = 0 -> hex_to_bits (_bits_to_hex bits) = Some bits).
Proof.
  intros Hbits.
  destruct (bits_to_hex_chunks bits) as (k & Hk & Hlen & Heq).
  assert (Hpad : Forall is_bit (bits ++ replicate k 0%Z)).
  { apply Forall_app. split; [exact Hbits|]. apply Forall_replicate. now left. }
  destruct (hex_of_chunks_digits _ _ Hlen Hpad) as [Hl Hg].
  split; [intros bits' ->; reflexivity|].
  split; [now rewrite Heq|].
  split.
  - intros i Hi. rewrite Heq, Hg by exact Hi. now rewrite nibble_at_pad.
  - intros Hmod. rewrite Heq. rewrite (Hk Hmod) in *. rewrite app_nil_r in *.
    now apply hex_of_chunks_decodes.
Qed.

Lemma bits_to_hex_spec_witness :
  _bits_to_hex [1; 0; 1; 1; 0; 1; 1; 0]%Z = "b6" /\
  hex_to_bits (_bits_to_hex [1; 0; 1; 1; 0; 1; 1; 0]%Z) = Some [1; 0; 1; 1; 0; 1; 1; 0]%Z.
Proof.
  assert (Hbits : Forall is_bit [1; 0; 1; 1; 0; 1; 1; 0]%Z).
  { repeat constructor; (now left) || (now right). }
  destruct (bits_to_hex_spec [1; 0; 1; 1; 0; 1; 1; 0]%Z Hbits) as (_ & _ & _ & Hdec).
  split; [reflexivity|]. apply Hdec. reflexivity.
Defined.

(** ** Probabilities of threshold tests *)

Lemma Qnat_lt (a b : nat) : (Qnat a < Qnat b)%Q <-> a < b.
Proof. unfold Qnat. rewrite <- Zlt_Qlt. lia. Qed.

Lemma Qnat_le (a b : nat) : (Qnat a <= Qnat b)%Q <-> a <= b.
Proof. unfold Qnat. rewrite <- Zle_Qle. lia. Qed.

Lemma Qnat_S (n : nat) : (Qnat (S n) == Qnat n + 1)%Q.
Proof. unfold Qnat. rewrite Nat2Z.inj_succ, <- Z.add_1_r, inject_Z_plus. reflexivity. Qed.

Lemma Qnat_pos (n : nat) : 0 < n -> (0 < Qnat n)%Q.
Proof. intros H. change 0%Q with (Qnat 0). now apply Qnat_lt. Qed.

Lemma Qsum_ext (n : nat) (f g : nat -> Q) :
  (forall i, i < n -> (f i == g i)%Q) -> (Qsum n f == Qsum n g)%Q.
Proof.
  induction n as [|n IH]; intros H; simpl; [reflexivity|].
  rewrite IH by (intros; apply H; lia). rewrite (H n) by lia. reflexivity.
Qed.

Lemma Qsum_const (n : nat) (c : Q) : (Qsum n (fun _ => c) == Qnat n * c)%Q.
Proof.
  induction n as [|n IH]; simpl; [unfold Qnat; simpl; ring|].
  rewrite IH, Qnat_S. ring.
Qed.

(** Whether grid point [i / N] lies below a threshold that the grid resolves. *)
Lemma grid_point_below (N m i : nat) (p : Q) :
  0 < N -> (Qnat m == p * Qnat N)%Q ->
  Qltb (Qnat i / Qnat N) p = bool_decide (i < m).
Proof.
  intros HN Hm. pose proof (Qnat_pos N HN) as HNpos.
  destruct (decide (i < m)) as [Hlt|Hge].
  - rewrite bool_decide_eq_true_2 by exact Hlt. apply Qltb_true.
    apply Qlt_shift_div_r; [exact HNpos|]. rewrite <- Hm. now apply Qnat_lt.
  - rewrite bool_decide_eq_false_2 by exact Hge. apply Qltb_false.
    apply Qle_shift_div_l; [exact HNpos|]. rewrite <- Hm. apply Qnat_le. lia.
Qed.

Lemma Qsum_threshold (m : nat) (x y : Q) (n : nat) :
  (Qsum n (fun i => if bool_decide (i < m)%nat then x else y)
   == Qnat (Nat.min n m) * x + Qnat (n - Nat.min n m)%nat * y)%Q.
Proof.
  induction n as [|n IH]; simpl Qsum.
  - unfold Qnat. simpl. ring.
  - rewrite IH. destruct (decide (n < m)) as [Hlt|Hge].
    + rewrite bool_decide_eq_true_2 by exact Hlt.
      replace (Nat.min (S n) m) with (S (Nat.min n m)) by lia.
      replace (S n - S (Nat.min n m)) with (n - Nat.min n m) by lia.
      rewrite Qnat_S. ring.
    + rewrite bool_decide_eq_false_2 by exact Hge.
      replace (Nat.min (S n) m) with (Nat.min n m) by lia.
      replace (S n - Nat.min n m) with (S (n - Nat.min n m)) by lia.
      rewrite Qnat_S. ring.
Qed.

(** A draw of [random.random()] falls below a resolved threshold [p] with
    probability [p]. *)
Lemma Pr_random_threshold {A : Type} (N : nat) (p : Q) (k : Q -> Prog A)
    (ev : result A -> bool) (x y : Q) :
  0 < N -> grid_resolves N p ->
  (forall r, Qltb r p = true -> (Pr N (k r) ev == x)%Q) ->
  (forall r, Qltb r p = false -> (Pr N (k r) ev == y)%Q) ->
  (Pr N (Random k) ev == p * x + (1 - p) * y)%Q.
Proof.
  intros HN (m & Hle & Hm) Hx Hy. pose proof (Qnat_pos N HN) as HNpos.
  cbn [Pr].
  rewrite (Qsum_ext N _ (fun i => if bool_decide (i < m) then x else y)).
  - rewrite Qsum_threshold.
    replace (Nat.min N m) with m by lia.
    assert (HNm : (Qnat (N - m) == Qnat N - Qnat m)%Q).
    { unfold Qnat. rewrite Nat2Z.inj_sub by exact Hle.
      unfold Z.sub. rewrite inject_Z_plus, inject_Z_opp. reflexivity. }
    rewrite HNm, Hm. field. lra.
  - intros i _. rewrite <- (grid_point_below N m i p HN Hm).
    destruct (Qltb (Qnat i / Qnat N) p) eqn:E; [now apply Hx|now apply Hy].
Qed.

(** ** Measurement (basis.py) *)

(** C8.  With [random.random()] uniform on a grid that resolves the detector
    error: for a bit in {0,1}, measuring in the preparation basis returns
    [(bit, true)] with probability [1 - 0.008] and [(1 - bit, true)] with
    probability [0.008]; measuring in the other basis returns [(0, false)]
    and [(1, false)] with probability [1/2] each. *)
Theorem measure_photon_distribution (N : nat) (bit : Z) (prep meas : BasisType) :
  0 < N -> grid_resolves N 0.008%Q -> is_bit bit ->
  (prep = meas ->
     (Pr N (measure_photon bit prep meas) (returns (bit, true)) == 1 - 0.008)%Q /\
     (Pr N (measure_photon bit prep meas) (returns ((1 - bit)%Z, true)) == 0.008)%Q) /\
  (prep <> meas ->
     (Pr N (measure_photon bit prep meas) (returns (0%Z, false)) == 1 # 2)%Q /\
     (Pr N (measure_photon bit prep meas) (returns (1%Z, false)) == 1 # 2)%Q).
Proof.
  intros HN Hgrid Hbit. split.
  - intros ->. unfold measure_photon. rewrite bool_decide_eq_true_2 by reflexivity.
    unfold mbind, prog_bind, random, detector_error. cbn [bind].
    split.
    + etransitivity.
      * apply (Pr_random_threshold N 0.008%Q _ _ 0%Q 1%Q HN Hgrid); intros r Hr;
          cbn [Pr returns]; rewrite Hr.
        -- destruct Hbit as [-> | ->]; reflexivity.
        -- rewrite bool_decide_eq_true_2 by reflexivity. reflexivity.
      * ring.
    + etransitivity.
      * apply (Pr_random_threshold N 0.008%Q _ _ 1%Q 0%Q HN Hgrid); intros r Hr;
          cbn [Pr returns]; rewrite Hr.
        -- rewrite bool_decide_eq_true_2 by reflexivity. reflexivity.
        -- destruct Hbit as [-> | ->]; reflexivity.
      * ring.
  - intros Hne. unfold measure_photon. rewrite bool_decide_eq_false_2 by exact Hne.
    split; reflexivity.
Qed.

Lemma measure_photon_distribution_witness :
  ((Pr 1000 (measure_photon 1 DIAGONAL DIAGONAL) (returns (1%Z, true)) == 1 - 0.008)%Q /\
   (Pr 1000 (measure_photon 1 DIAGONAL DIAGONAL) (returns ((1 - 1)%Z, true)) == 0.008)%Q) /\
  ((Pr 1000 (measure_photon 1 DIAGONAL RECTILINEAR) (returns (0%Z, false)) == 1 # 2)%Q /\
   (Pr 1000 (measure_photon 1 DIAGONAL RECTILINEAR) (returns (1%Z, false)) == 1 # 2)%Q).
Proof.
  assert (HN : 0 < 1000) by lia.
  assert (Hgrid : grid_resolves 1000 0.008%Q).
  { exists 8. split; [lia|reflexivity]. }
  assert (Hbit : is_bit 1) by (now right).
  split.
  - exact (proj1 (measure_photon_distribution 1000 1 DIAGONAL DIAGONAL HN Hgrid Hbit)
             eq_refl).
  - refine (proj2 (measure_photon_distribution 1000 1 DIAGONAL RECTILINEAR HN Hgrid Hbit) _).
    discriminate.
Defined.

(** ** Reasoning about every outcome *)

Lemma wp_bind_any {A B : Type} (p : Prog A) (f : A -> Prog B) (post : B -> Prop) :
  (forall a, wp (f a) post may_raise) -> wp (p ≫= f) post may_raise.
Proof.
  intros H. apply wp_bind. eapply wp_mono; [| |apply wp_trivial]; auto.
Qed.

Lemma wp_bind_with {A B : Type} (p : Prog A) (f : A -> Prog B)
    (mid : A -> Prop) (post : B -> Prop) (exc : exn -> Prop) :
  wp p mid exc -> (forall a, mid a -> wp (f a) post exc) -> wp (p ≫= f) post exc.
Proof.
  intros Hp Hf. apply wp_bind. eapply wp_mono; [| |exact Hp]; auto.
Qed.

Lemma wp_random {A : Type} (f : Q -> Prog A) post exc :
  (forall r : Q, (0 <= r)%Q -> (r < 1)%Q -> wp (f r) post exc) ->
  wp (random ≫= f) post exc.
Proof. intros H. exact H. Qed.

Lemma wp_randbelow {A : Type} (n : nat) (f : nat -> Prog A) post exc :
  (forall i : nat, i < n -> wp (f i) post exc) ->
  wp (randbelow n ≫= f) post exc.
Proof. intros H. exact H. Qed.

(** ** Security classification (bb84.py) *)

Lemma error_testing_analysis (self : BB84Protocol) :
  wp (_error_testing self) analysis_matches_qber may_raise.
Proof.
  unfold _error_testing.
  apply wp_bind_any; intros alice_sifted.
  apply wp_bind_any; intros bob_sifted.
  apply wp_bind_any; intros [[[q tested] errors] total].
  apply wp_bind_any; intros tested_original.
  destruct (security_assessment q) as [level text] eqn:E.
  cbn [wp]. eexists. split; [reflexivity|]. cbn. rewrite E. split; reflexivity.
Qed.

Lemma privacy_amplification_keeps_analysis (self : BB84Protocol) :
  analysis_matches_qber self ->
  wp (_privacy_amplification self) analysis_matches_qber may_raise.
Proof.
  intros H. unfold _privacy_amplification.
  apply wp_bind_any; intros alice_untested.
  apply wp_bind_any; intros bob_untested.
  exact H.
Qed.

Lemma generate_trace_analysis (math_exp : Q -> Q) (self : BB84Protocol) :
  analysis_matches_qber self ->
  wp (_generate_trace math_exp self)
     (fun trace =>
        tr_security_level trace = fst (security_assessment (tr_qber trace)) /\
        tr_secure trace = Qltb (tr_qber trace) 11.0%Q)
     may_raise.
Proof.
  intros (analysis & Han & Hlevel & Hsafe). unfold _generate_trace.
  apply wp_bind_any; intros matches.
  destruct (num_bits self); [exact I|].
  apply wp_bind_any; intros stats.
  cbn. rewrite Han. split; assumption.
Qed.

Lemma security_assessment_table (q : Q) :
  fst (security_assessment q) = security_level_of q.
Proof.
  unfold security_assessment, security_level_of.
  qber_bands q; decide_thresholds; reflexivity.
Qed.

(** C6.  In every run that returns a trace, the security level in the trace
    is the one the table of §4.6 gives for the QBER in the trace: SECURE
    below 5, ACCEPTABLE from 5 to below 11, SUSPICIOUS from 11 to below 15,
    ABORT from 15 on; and the safe-to-use flag is true exactly when the QBER
    is below 11. *)
Theorem security_level_reported (math_exp : Q -> Q) (self : BB84Protocol) (h : heap) :
  wp (run_protocol math_exp self h)
     (fun trace =>
        let q := tr_qber trace in
        ((q < 5)%Q -> tr_security_level trace = "SECURE") /\
        ((5 <= q)%Q -> (q < 11)%Q -> tr_security_level trace = "ACCEPTABLE") /\
        ((11 <= q)%Q -> (q < 15)%Q -> tr_security_level trace = "SUSPICIOUS") /\
        ((15 <= q)%Q -> tr_security_level trace = "ABORT") /\
        (tr_secure trace = true <-> (q < 11)%Q))
     may_raise.
Proof.
  unfold run_protocol.
  apply wp_bind_any; intros [self1 h1].
  apply wp_bind_any; intros self2.
  apply wp_bind_any; intros self3.
  eapply wp_bind_with; [apply error_testing_analysis|]. intros self4 H4.
  eapply wp_bind_with; [apply privacy_amplification_keeps_analysis, H4|].
  intros self5 H5.
  eapply wp_mono; [| |apply generate_trace_analysis, H5]; [|auto].
  intros trace [Hlevel Hsafe]. cbn zeta.
  rewrite Hlevel, Hsafe, security_assessment_table. unfold security_level_of.
  repeat split.
  - intros H. destruct (Qlt_le_dec _ 5); [reflexivity|lra].
  - intros H1 H2. destruct (Qlt_le_dec _ 5); [lra|].
    destruct (Qlt_le_dec _ 11); [reflexivity|lra].
  - intros H1 H2. destruct (Qlt_le_dec _ 5); [lra|].
    destruct (Qlt_le_dec _ 11); [lra|]. destruct (Qlt_le_dec _ 15); [reflexivity|lra].
  - intros H. destruct (Qlt_le_dec _ 5); [lra|].
    destruct (Qlt_le_dec _ 11); [lra|]. destruct (Qlt_le_dec _ 15); [lra|reflexivity].
  - intros H. apply Qltb_lt in H. lra.
  - intros H. apply Qltb_true. lra.
Qed.

(** ** QBER estimation (qber.py) *)

Lemma perm_insert_front {A : Type} (l : list A) : forall (j : nat) (x y : A),
  l !! j = Some x -> x :: <[j := y]> l ≡ₚ y :: l.
Proof.
  induction l as [|a l IH]; intros j x y Hj; [discriminate|].
  destruct j as [|j]; simpl in *.
  - injection Hj as ->. apply perm_swap.
  - rewrite perm_swap. rewrite (IH j x y Hj). apply perm_swap.
Qed.

(** One step of the pool selection: the element taken plus the cells that
    stay in play are the cells that were in play. *)
Lemma sample_step_perm {A : Type} (pool : list A) (a j : nat) (x y : A) :
  j < S a -> pool !! j = Some x -> pool !! a = Some y ->
  x :: take a (<[j := y]> pool) ≡ₚ take (S a) pool.
Proof.
  intros Hj Hx Hy. rewrite (take_S_r pool a y Hy).
  destruct (decide (j = a)) as [->|Hne].
  - assert (x = y) as -> by congruence.
    rewrite list_insert_id by exact Hy.
    now rewrite Permutation_app_comm.
  - rewrite take_insert_lt by lia.
    rewrite perm_insert_front by (rewrite lookup_take_lt by lia; exact Hx).
    now rewrite Permutation_app_comm.
Qed.

Lemma sample_pool_wp {A : Type} (n k : nat) : forall (i : nat) (pool : list A),
  k <= n - i -> n - i <= length pool ->
  wp (sample_pool pool n i k)
     (fun xs => length xs = k /\ xs ⊆+ take (n - i) pool) no_raise.
Proof.
  induction k as [|k IH]; intros i pool Hk Hlen.
  - split; [reflexivity|apply submseteq_nil_l].
  - cbn [sample_pool]. apply wp_randbelow. intros j Hj.
    destruct (lookup_lt_is_Some_2 pool j ltac:(lia)) as [x Hx].
    destruct (lookup_lt_is_Some_2 pool (n - i - 1) ltac:(lia)) as [y Hy].
    rewrite Hx, Hy.
    eapply wp_bind_with.
    + apply (IH (S i) (<[j := y]> pool)); [lia|rewrite length_insert; lia].
    + intros rest [Hl Hsub]. cbn [wp]. split; [simpl; lia|].
      replace (n - i) with (S (n - i - 1)) by lia.
      rewrite <- (sample_step_perm pool (n - i - 1) j x y) by (lia || assumption).
      apply submseteq_skip. replace (n - i - 1) with (n - S i) by lia. exact Hsub.
Qed.

Lemma sample_wp {A : Type} (population : list A) (k : nat) :
  k <= length population ->
  wp (sample population k) (fun xs => length xs = k /\ xs ⊆+ population) no_raise.
Proof.
  intros Hk. unfold sample. destruct (decide (k <= length population)); [|lia].
  eapply wp_mono; [| |apply sample_pool_wp]; [|auto|lia|lia].
  intros xs [Hl Hsub]. split; [exact Hl|].
  rewrite Nat.sub_0_r, firstn_all in Hsub. exact Hsub.
Qed.

Lemma count_errors_ret (alice_bits : list Z) (bob_bits : list (option Z))
    (tested : list nat) : forall errors : nat,
  Forall (in_range alice_bits bob_bits) tested ->
  count_errors alice_bits bob_bits tested errors
  = Ret (errors + error_count alice_bits bob_bits tested).
Proof.
  induction tested as [|idx rest IH]; intros errors Hin.
  - unfold error_count. simpl. f_equal. lia.
  - inversion Hin as [|? ? [Ha Hb] Hrest]; subst.
    destruct (lookup_lt_is_Some_2 alice_bits idx Ha) as [a Ea].
    destruct (lookup_lt_is_Some_2 bob_bits idx Hb) as [b Eb].
    cbn [count_errors]. rewrite Ea, Eb. unfold error_count.
    destruct (decide (Some a <> b)) as [Hd|Hd].
    + rewrite filter_cons_True.
      2:{ unfold bit_differs. rewrite Ea, Eb.
          rewrite bool_decide_eq_false_2 by exact Hd. reflexivity. }
      rewrite IH by exact Hrest. unfold error_count. simpl. f_equal. lia.
    + rewrite filter_cons_False.
      2:{ unfold bit_differs. rewrite Ea, Eb.
          rewrite bool_decide_eq_true_2 by (destruct (decide (Some a = b)); tauto).
          discriminate. }
      rewrite IH by exact Hrest. reflexivity.
Qed.

Lemma sample_size_bounds (m : nat) :
  0 < m -> 0 < sample_size_of m <= m.
Proof. unfold sample_size_of. lia. Qed.

Lemma qber_value (errors size : nat) :
  0 < size ->
  ((if (errors =? 0)%nat && (0 <? size)%nat then
      let qber := (100.0 / Qnat size)%Q in
      if Qltb qber 0.5%Q then 0.5%Q else qber
    else if (0 <? size)%nat then (Qnat errors / Qnat size * 100.0)%Q else 0.0%Q)
   == qber_of errors size)%Q.
Proof.
  intros Hsize. unfold qber_of.
  assert (Hs : (0 <? size)%nat = true) by (apply Nat.ltb_lt; exact Hsize).
  rewrite Hs. destruct (Nat.eqb_spec errors 0) as [->|Hne]; cbn [andb].
  - destruct (decide (0 = 0 /\ 0 < size)) as [_|Hn]; [|lia].
    assert (H100 : (100.0 / Qnat size == 100 / Qnat size)%Q).
    { assert (H : (100.0 == 100)%Q) by reflexivity. now rewrite H. }
    cbn zeta. destruct (Qltb (100.0 / Qnat size) 0.5%Q) eqn:E.
    + apply Qltb_lt in E. rewrite H100 in E.
      rewrite Q.max_l; [reflexivity|]. now apply Qlt_le_weak.
    + apply Qltb_ge in E. rewrite H100 in E |- *.
      rewrite Q.max_r; [reflexivity|exact E].
  - destruct (decide (errors = 0 /\ 0 < size)) as [[He _]|_]; [lia|].
    assert (H : (100.0 == 100)%Q) by reflexivity. now rewrite H.
Qed.

(** *** The sample is uniform *)

Lemma Qsum_zero (n : nat) (g : nat -> Q) :
  (forall j, j < n -> (g j == 0)%Q) -> (Qsum n g == 0)%Q.
Proof.
  intros H. rewrite (Qsum_ext n g (fun _ => 0%Q)) by exact H.
  rewrite Qsum_const. ring.
Qed.

Lemma Qsum_single (n j0 : nat) (g : nat -> Q) :
  j0 < n -> (forall j, j < n -> j <> j0 -> (g j == 0)%Q) -> (Qsum n g == g j0)%Q.
Proof.
  induction n as [|n IH]; intros Hj0 Hz; [lia|]. simpl.
  destruct (decide (j0 = n)) as [->|Hne].
  - rewrite Qsum_zero by (intros; apply Hz; lia). ring.
  - rewrite IH by (try lia; intros; apply Hz; lia).
    rewrite (Hz n) by lia. ring.
Qed.

Lemma Pr_ev_ext {A : Type} (N : nat) (p : Prog A) (ev ev' : result A -> bool) :
  (forall res, ev res = ev' res) -> (Pr N p ev == Pr N p ev')%Q.
Proof.
  intros H. induction p as [a|e|k IH|n k IH]; cbn [Pr].
  - now rewrite H.
  - now rewrite H.
  - rewrite (Qsum_ext N _ (fun i => Pr N (k (Qnat i / Qnat N)%Q) ev')); [reflexivity|].
    intros i _. apply IH.
  - rewrite (Qsum_ext n _ (fun i => Pr N (k i) ev')); [reflexivity|].
    intros i _. apply IH.
Qed.

Lemma Pr_never {A : Type} (N : nat) (p : Prog A) (ev : result A -> bool) :
  (forall res, ev res = false) -> (Pr N p ev == 0)%Q.
Proof.
  intros H. induction p as [a|e|k IH|n k IH]; cbn [Pr].
  - now rewrite H.
  - now rewrite H.
  - rewrite Qsum_zero by (intros; apply IH). unfold Qdiv. ring.
  - rewrite Qsum_zero by (intros; apply IH). unfold Qdiv. ring.
Qed.

Lemma Pr_bind_ret {A B : Type} (N : nat) (p : Prog A) (f : A -> B) (ev : result B -> bool) :
  (Pr N (p ≫= (fun a => Ret (f a))) ev
   == Pr N p (fun res => ev (match res with Ok a => Ok (f a) | Err e => Err e end)))%Q.
Proof.
  unfold mbind, prog_bind.
  induction p as [a|e|k IH|n k IH]; cbn [bind Pr]; try reflexivity.
  - rewrite (Qsum_ext N _ _ (fun i _ => IH (Qnat i / Qnat N)%Q)). reflexivity.
  - rewrite (Qsum_ext n _ _ (fun i _ => IH i)). reflexivity.
Qed.

Lemma Qnat_mult (a b : nat) : (Qnat (a * b) == Qnat a * Qnat b)%Q.
Proof. unfold Qnat. rewrite Nat2Z.inj_mul, inject_Z_mult. reflexivity. Qed.

Lemma sample_pool_uniform {A : Type} `{EqDecision A} (N n k : nat) :
  forall (i : nat) (pool xs : list A),
  k <= n - i -> n - i <= length pool -> NoDup (take (n - i) pool) ->
  length xs = k -> NoDup xs -> xs ⊆ take (n - i) pool ->
  (Pr N (sample_pool pool n i k) (returns xs) * Qnat (arrangements (n - i) k) == 1)%Q.
Proof.
  induction k as [|k IH]; intros i pool xs Hk Hlen Hnd Hxs Hndxs Hsub.
  - destruct xs; [|discriminate]. cbn [sample_pool Pr returns arrangements].
    rewrite bool_decide_eq_true_2 by reflexivity. reflexivity.
  - destruct xs as [|x0 xs0]; [discriminate|].
    apply NoDup_cons in Hndxs as [Hx0 Hndxs0].
    assert (Hx0in : x0 ∈ take (n - i) pool) by (apply Hsub; left).
    apply list_elem_of_lookup in Hx0in as [j0 Hj0].
    assert (Hj0lt : j0 < n - i).
    { apply lookup_lt_Some in Hj0. rewrite length_take in Hj0. lia. }
    rewrite lookup_take_lt in Hj0 by exact Hj0lt.
    destruct (lookup_lt_is_Some_2 pool (n - i - 1) ltac:(lia)) as [y Hy].
    pose proof (sample_step_perm pool (n - i - 1) j0 x0 y ltac:(lia) Hj0 Hy) as Hperm.
    replace (S (n - i - 1)) with (n - i) in Hperm by lia.
    assert (Hnd' : NoDup (x0 :: take (n - i - 1) (<[j0 := y]> pool))).
    { rewrite Hperm. exact Hnd. }
    apply NoDup_cons in Hnd' as [Hx0' Hnd'].
    cbn [sample_pool arrangements]. unfold mbind, prog_bind, randbelow.
    cbn [bind Pr].
    rewrite (Qsum_single (n - i) j0); [|exact Hj0lt|].
    + rewrite Hj0, Hy. fold (@mbind Prog _ (list A) (list A)).
      change (bind ?p ?f) with (p ≫= f).
      rewrite (Pr_bind_ret N _ (cons x0)).
      rewrite (Pr_ev_ext N _ _ (returns xs0)).
      2:{ intros [rest|e]; [|reflexivity]. cbn.
          destruct (decide (rest = xs0)) as [->|Hne].
          - now rewrite !bool_decide_eq_true_2.
          - rewrite !bool_decide_eq_false_2; [reflexivity|exact Hne|congruence]. }
      assert (HIH := IH (S i) (<[j0 := y]> pool) xs0).
      replace (n - S i) with (n - i - 1) in HIH by lia.
      rewrite Qnat_mult.
      assert (Hpos : (0 < Qnat (n - i))%Q) by (apply Qnat_pos; lia).
      set (P := Pr N _ _) in *. set (R := Qnat (arrangements _ _)) in *.
      assert (HPR : (P * R == 1)%Q).
      { apply HIH; try assumption; try lia.
        - rewrite length_insert. lia.
        - simpl in Hxs. lia.
        - intros z Hz.
          assert (Hz' : z ∈ x0 :: take (n - i - 1) (<[j0 := y]> pool)).
          { rewrite Hperm. apply Hsub. now right. }
          apply elem_of_cons in Hz' as [->|Hz']; [contradiction|exact Hz']. }
      transitivity (P * R)%Q; [|exact HPR]. field. lra.
    + intros j Hj Hne.
      destruct (lookup_lt_is_Some_2 pool j ltac:(lia)) as [x Hx].
      rewrite Hx, Hy. change (bind ?p ?f) with (p ≫= f).
      rewrite (Pr_bind_ret N _ (cons x)).
      apply Pr_never. intros [rest|e]; [|reflexivity]. cbn.
      apply bool_decide_eq_false_2. intros Heq. injection Heq as -> _.
      apply Hne. pose proof (proj1 (NoDup_alt _) Hnd) as Hinj.
      apply (Hinj j j0 x0); rewrite lookup_take_lt; assumption || lia.
Qed.

Lemma grid_point_valid (N i : nat) : i < N -> (0 <= Qnat i / Qnat N)%Q /\ (Qnat i / Qnat N < 1)%Q.
Proof.
  intros Hi. assert (HN : (0 < Qnat N)%Q) by (apply Qnat_pos; lia). split.
  - apply Qle_shift_div_l; [exact HN|]. rewrite Qmult_0_l.
    change 0%Q with (Qnat 0). apply Qnat_le. lia.
  - apply Qlt_shift_div_r; [exact HN|]. rewrite Qmult_1_l. now apply Qnat_lt.
Qed.

(** Binding a continuation that is deterministic on every value the first
    program can produce. *)
Lemma Pr_bind_wp {A B : Type} (N : nat) (p : Prog A) (f : A -> Prog B)
    (support : A -> Prop) (exc : exn -> Prop) (ev : result B -> bool) (ev' : result A -> bool) :
  wp p support exc ->
  (forall a, support a -> (Pr N (f a) ev == if ev' (Ok a) then 1 else 0)%Q) ->
  (forall e, ev (Err e) = ev' (Err e)) ->
  (Pr N (p ≫= f) ev == Pr N p ev')%Q.
Proof.
  intros Hwp Hf He. unfold mbind, prog_bind.
  induction p as [a|e|k IH|n k IH]; cbn [bind Pr].
  - apply Hf, Hwp.
  - now rewrite He.
  - rewrite (Qsum_ext N _ (fun i => Pr N (k (Qnat i / Qnat N)%Q) ev')); [reflexivity|].
    intros i Hi. apply IH. destruct (grid_point_valid N i Hi). now apply Hwp.
  - rewrite (Qsum_ext n _ (fun i => Pr N (k i) ev')); [reflexivity|].
    intros i Hi. apply IH. now apply Hwp.
Qed.

Lemma in_range_submseteq (alice_bits : list Z) (bob_bits : list (option Z))
    (tested matching : list nat) :
  tested ⊆+ matching -> Forall (in_range alice_bits bob_bits) matching ->
  Forall (in_range alice_bits bob_bits) tested.
Proof.
  intros Hsub Hall. apply Forall_forall. intros idx Hidx.
  rewrite Forall_forall in Hall. apply Hall.
  eapply elem_of_submseteq; eassumption.
Qed.

(** C5.  For index lists whose entries can be looked up in both bit lists:
    on the empty list [calculate_qber] returns QBER 0, no tested index and
    zero errors.  On a non-empty list of size [m] it never raises; it tests
    [min (max 10 (m / 2)) m] indices drawn from the list without replacement;
    [errors] counts the tested positions where the sender bit differs from the
    measured bit; and the QBER is [errors / size * 100], forced to
    [max 0.5 (100 / size)] when there is no error.  The draw is uniform: when
    the indices are pairwise distinct, every ordered selection of that size
    has the same probability. *)
Theorem calculate_qber_spec (alice_bits : list Z) (bob_bits : list (option Z))
    (matching_indices : list nat) :
  Forall (in_range alice_bits bob_bits) matching_indices ->
  let m := length matching_indices in
  let size := sample_size_of m in
  (matching_indices = [] ->
     exists q : Q,
       calculate_qber alice_bits bob_bits matching_indices None = Ret (q, [], 0, 0) /\
       (q == 0)%Q) /\
  (matching_indices <> [] ->
     wp (calculate_qber alice_bits bob_bits matching_indices None)
        (fun '(q, tested, errors, total) =>
           total = size /\ length tested = size /\ tested ⊆+ matching_indices /\
           errors = error_count alice_bits bob_bits tested /\
           (q == qber_of errors size)%Q)
        no_raise /\
     (NoDup matching_indices ->
      forall (N : nat) (xs : list nat),
        0 < N -> length xs = size -> NoDup xs -> xs ⊆ matching_indices ->
        (Pr N (calculate_qber alice_bits bob_bits matching_indices None) (tests xs)
         * Qnat (arrangements m size) == 1)%Q)).
Proof.
  intros Hrange m size.
  split; [intros ->; exists 0.0%Q; split; reflexivity|].
  intros Hne.
  assert (Hmpos : 0 < m).
  { subst m. destruct matching_indices; [congruence|simpl; lia]. }
  pose proof (sample_size_bounds m Hmpos) as [Hspos Hsle].
  assert (Hcalc : calculate_qber alice_bits bob_bits matching_indices None
    = (tested_indices ← sample matching_indices size;
       errors ← count_errors alice_bits bob_bits tested_indices 0;
       Ret (if (errors =? 0)%nat && (0 <? size)%nat then
              let qber := (100.0 / Qnat size)%Q in
              if Qltb qber 0.5%Q then 0.5%Q else qber
            else if (0 <? size)%nat then (Qnat errors / Qnat size * 100.0)%Q else 0.0%Q,
            tested_indices, errors, size))).
  { destruct matching_indices; [congruence|reflexivity]. }
  rewrite Hcalc. clear Hcalc.
  pose proof (sample_wp matching_indices size Hsle) as Hsample.
  split.
  - eapply wp_bind_with; [exact Hsample|].
    intros tested [Hl Hsub]. cbn beta.
    rewrite count_errors_ret by (eapply in_range_submseteq; eassumption).
    cbn. repeat split; try assumption. apply qber_value. exact Hspos.
  - intros Hnd N xs HN Hxs Hndxs Hsub.
    rewrite (Pr_bind_wp N _ _ _ _ _ (returns xs) Hsample).
    + unfold sample. destruct (decide (size <= length matching_indices)); [|lia].
      fold m.
      pose proof (sample_pool_uniform N m size 0 matching_indices xs) as Hu.
      rewrite Nat.sub_0_r in Hu.
      assert (Hall : take m matching_indices = matching_indices) by apply firstn_all.
      rewrite Hall in Hu. apply Hu; (lia || assumption).
    + intros tested [Hl Hs].
      rewrite count_errors_ret by (eapply in_range_submseteq; eassumption).
      reflexivity.
    + reflexivity.
Qed.

Lemma calculate_qber_spec_witness :
  wp (calculate_qber [0; 1; 1; 0]%Z [Some 0; Some 0; Some 1; Some 0]%Z [0; 1; 2; 3] None)
     (fun '(q, tested, errors, total) =>
        total = 4 /\ length tested = 4 /\ tested ⊆+ [0; 1; 2; 3] /\
        errors = error_count [0; 1; 1; 0]%Z [Some 0; Some 0; Some 1; Some 0]%Z tested /\
        (q == qber_of errors 4)%Q)
     no_raise.
Proof.
  assert (Hrange : Forall (in_range [0; 1; 1; 0]%Z [Some 0; Some 0; Some 1; Some 0]%Z)
                          [0; 1; 2; 3]).
  { repeat constructor; simpl; lia. }
  destruct (calculate_qber_spec _ _ _ Hrange) as [_ H].
  destruct (H ltac:(discriminate)) as [Hwp _]. exact Hwp.
Defined.

(** ** The object store *)

Lemma set_is_intercepted_length l v h : length (set_is_intercepted l v h) = length h.
Proof. apply length_alter. Qed.

Lemma set_is_transmitted_length l v h : length (set_is_transmitted l v h) = length h.
Proof. apply length_alter. Qed.

Lemma set_bit_length l v h : length (set_bit l v h) = length h.
Proof. apply length_alter. Qed.

Lemma set_is_intercepted_ne l l' v (h : heap) :
  l <> l' -> set_is_intercepted l v h !! l' = h !! l'.
Proof. apply list_lookup_alter_ne. Qed.

Lemma set_is_transmitted_ne l l' v (h : heap) :
  l <> l' -> set_is_transmitted l v h !! l' = h !! l'.
Proof. apply list_lookup_alter_ne. Qed.

Lemma set_bit_ne l l' v (h : heap) :
  l <> l' -> set_bit l v h !! l' = h !! l'.
Proof. apply list_lookup_alter_ne. Qed.

Lemma deref_lookup (h : heap) (l : loc) (p : Photon) :
  h !! l = Some p -> deref h l = p.
Proof. intros H. unfold deref. now apply list_lookup_total_correct. Qed.

(** ** Measurement outcomes *)

Lemma random_basis_wp : wp random_basis (fun _ => True) no_raise.
Proof.
  unfold random_basis, choice. apply wp_randbelow. intros i Hi.
  simpl in Hi. destruct i as [|[|i]]; [exact I|exact I|lia].
Qed.

Lemma generate_random_bases_wp (count : nat) :
  wp (generate_random_bases count) (fun bs => length bs = count) no_raise.
Proof.
  induction count as [|count IH]; [reflexivity|].
  cbn [generate_random_bases].
  eapply wp_bind_with; [apply random_basis_wp|]. intros b _.
  eapply wp_bind_with; [apply IH|]. intros bs Hbs. simpl. now rewrite Hbs.
Qed.

Lemma measure_photon_wp (bit : Z) (prep meas : BasisType) :
  wp (measure_photon bit prep meas) (measurement_of bit prep meas) no_raise.
Proof.
  unfold measure_photon, measurement_of.
  destruct (bool_decide (prep = meas)) eqn:E.
  - apply wp_random. intros r _ _. cbn.
    split; [reflexivity|]. destruct (Qltb r detector_error); auto.
  - unfold choice. apply wp_randbelow. intros i Hi. simpl in Hi.
    destruct i as [|[|i]]; [| |lia]; cbn; auto.
Qed.

(** ** Eve's intercept-and-resend (eve.py) *)

Lemma eve_inv_not_in_modified (h0 : heap) (done modified : list loc)
    (eve_bases : list (option BasisType)) (h : heap) (p : loc) :
  NoDup (done ++ [p]) -> p < length h0 ->
  eve_inv h0 done modified eve_bases h -> p ∉ modified.
Proof.
  intros Hnd Hp (Hlm & Hle & Hh & Hndm & Hval & Hkeep & Hpos) Hin.
  apply list_elem_of_lookup in Hin as [j Hj].
  assert (Hjlt : j < length done) by (apply lookup_lt_Some in Hj; lia).
  destruct (lookup_lt_is_Some_2 done j Hjlt) as [l Hl].
  apply NoDup_app in Hnd as (_ & Hsep & _).
  destruct (Hpos j l Hl) as [[_ Hm] | (eb & l' & _ & Hm & Hfresh & _)].
  - assert (l = p) as -> by congruence.
    apply (Hsep p); [eapply list_elem_of_lookup_2; eassumption|now left].
  - assert (l' = p) as -> by congruence. lia.
Qed.

Lemma eve_inv_pass (h0 : heap) (done modified : list loc)
    (eve_bases : list (option BasisType)) (h : heap) (p : loc) :
  NoDup (done ++ [p]) -> p < length h0 ->
  eve_inv h0 done modified eve_bases h ->
  eve_inv h0 (done ++ [p]) (modified ++ [p]) (eve_bases ++ [None]) h.
Proof.
  intros Hnd Hp Hinv.
  pose proof (eve_inv_not_in_modified _ _ _ _ _ _ Hnd Hp Hinv) as Hnotin.
  destruct Hinv as (Hlm & Hle & Hh & Hndm & Hval & Hkeep & Hpos).
  repeat split.
  - rewrite !length_app. simpl. lia.
  - rewrite !length_app. simpl. lia.
  - exact Hh.
  - apply NoDup_app. repeat split; [exact Hndm| |apply NoDup_singleton].
    intros x Hx Hx'. apply list_elem_of_singleton in Hx'. subst x. contradiction.
  - apply Forall_app. split; [exact Hval|]. repeat constructor. lia.
  - intros l Hl Hnone. apply Hkeep; [exact Hl|]. intros j Hj.
    assert (Hjlt : j < length done) by (apply lookup_lt_Some in Hj; exact Hj).
    specialize (Hnone j). rewrite lookup_app_l in Hnone by exact Hjlt.
    rewrite lookup_app_l in Hnone by lia. now apply Hnone.
  - intros j l Hj. apply lookup_snoc_Some in Hj as [[Hjlt Hj] | [-> <-]].
    + rewrite !(lookup_app_l _ [_]) by lia. apply Hpos. exact Hj.
    + left. split.
      * rewrite <- Hle. now apply list_lookup_middle.
      * rewrite <- Hlm. now apply list_lookup_middle.
Qed.

Lemma eve_inv_intercept (h0 : heap) (done modified : list loc)
    (eve_bases : list (option BasisType)) (h : heap) (p : loc)
    (eve_basis : BasisType) (b : Z) :
  NoDup (done ++ [p]) -> p < length h0 ->
  eve_inv h0 done modified eve_bases h ->
  eve_inv h0 (done ++ [p])
    (modified ++ [length (set_is_intercepted p true h)])
    (eve_bases ++ [Some eve_basis])
    (set_is_intercepted (length (set_is_intercepted p true h)) true
       (set_is_intercepted p true h ++ [create b eve_basis])).
Proof.
  intros Hnd Hp Hinv.
  destruct Hinv as (Hlm & Hle & Hh & Hndm & Hval & Hkeep & Hpos).
  rewrite set_is_intercepted_length.
  set (h1 := set_is_intercepted p true h).
  assert (Hlen1 : length h1 = length h) by apply set_is_intercepted_length.
  set (h3 := set_is_intercepted (length h) true (h1 ++ [create b eve_basis])).
  assert (Hlen3 : length h3 = S (length h)).
  { unfold h3. rewrite set_is_intercepted_length, length_app, Hlen1. simpl. lia. }
  assert (Hold : forall l, l < length h -> l <> p -> h3 !! l = h !! l).
  { intros l Hl Hne. unfold h3. rewrite set_is_intercepted_ne by lia.
    rewrite lookup_app_l by lia. unfold h1. now rewrite set_is_intercepted_ne. }
  repeat split.
  - rewrite !length_app. simpl. lia.
  - rewrite !length_app. simpl. lia.
  - lia.
  - apply NoDup_app. repeat split; [exact Hndm| |apply NoDup_singleton].
    intros x Hx Hx'. apply list_elem_of_singleton in Hx'. subst x.
    rewrite Forall_forall in Hval. specialize (Hval _ Hx). lia.
  - apply Forall_app. split.
    + eapply Forall_impl; [exact Hval|]. intros x Hx. simpl in Hx. lia.
    + repeat constructor. lia.
  - intros l Hl Hnone.
    destruct (decide (l = p)) as [->|Hne].
    + specialize (Hnone (length done)).
      rewrite list_lookup_middle in Hnone by reflexivity.
      rewrite <- Hle in Hnone at 1.
      rewrite list_lookup_middle in Hnone by reflexivity.
      specialize (Hnone eq_refl). discriminate.
    + rewrite Hold by lia. apply Hkeep; [exact Hl|]. intros j Hj.
      assert (Hjlt : j < length done) by (apply lookup_lt_Some in Hj; exact Hj).
      specialize (Hnone j). rewrite lookup_app_l in Hnone by exact Hjlt.
      rewrite lookup_app_l in Hnone by lia. now apply Hnone.
  - intros j l Hj. apply lookup_snoc_Some in Hj as [[Hjlt Hj] | [-> <-]].
    + rewrite !(lookup_app_l _ [_]) by lia.
      destruct (Hpos j l Hj) as [Hleft | (eb & l' & He & Hm & Hge & b' & Hb')].
      * left. exact Hleft.
      * right. exists eb, l'. repeat split; try assumption.
        exists b'. rewrite Hold; [exact Hb'| |lia].
        apply lookup_lt_Some in Hb'. exact Hb'.
    + right. exists eve_basis, (length h). repeat split.
      * rewrite <- Hle. now apply list_lookup_middle.
      * rewrite <- Hlm. now apply list_lookup_middle.
      * lia.
      * exists b. unfold h3, set_is_intercepted at 1.
        rewrite list_lookup_alter. destruct (decide (length h = length h)); [|congruence].
        rewrite <- Hlen1 at 1. rewrite list_lookup_middle by reflexivity. reflexivity.
Qed.

Lemma intercept_loop_inv (h0 : heap) (alice_bases : list BasisType) :
  forall (photons done : list loc) (self : EveAttack) (modified : list loc)
         (eve_bases : list (option BasisType)) (h : heap),
  NoDup (done ++ photons) ->
  Forall (fun l => l < length h0) (done ++ photons) ->
  length (done ++ photons) <= length alice_bases ->
  eve_inv h0 done modified eve_bases h ->
  wp (intercept_loop alice_bases (length done) photons self modified eve_bases h)
     (fun res => let '(_, m, e, h') := res in eve_inv h0 (done ++ photons) m e h')
     no_raise.
Proof.
  induction photons as [|p photons IH]; intros done self modified eve_bases h Hnd Hval Hlen Hinv.
  - rewrite app_nil_r. exact Hinv.
  - assert (Hnd1 : NoDup (done ++ [p])).
    { rewrite cons_middle, app_assoc in Hnd. apply NoDup_app in Hnd. tauto. }
    assert (Hp : p < length h0).
    { rewrite Forall_forall in Hval. apply Hval. apply elem_of_app. right. now left. }
    assert (Hi : length done < length alice_bases).
    { rewrite length_app in Hlen. simpl in Hlen. lia. }
    destruct (lookup_lt_is_Some_2 alice_bases (length done) Hi) as [ab Hab].
    assert (Happ : done ++ p :: photons = (done ++ [p]) ++ photons)
      by (now rewrite <- app_assoc).
    rewrite Happ in Hnd, Hval, Hlen |- *.
    cbn [intercept_loop]. apply wp_random. intros r _ _.
    replace (S (length done)) with (length (done ++ [p]))
      by (rewrite length_app; simpl; lia).
    destruct (Qltb r (interception_rate self)).
    + eapply wp_bind_with; [apply random_basis_wp|]. intros eb _.
      rewrite Hab.
      eapply wp_bind_with; [apply measure_photon_wp|]. intros [mb bm] _.
      cbn [alloc]. apply IH; try assumption.
      now apply eve_inv_intercept.
    + apply IH; try assumption. now apply eve_inv_pass.
Qed.

Lemma eve_inv_initial (h0 : heap) : eve_inv h0 [] [] [] h0.
Proof.
  repeat split; try reflexivity; try lia.
  - apply NoDup_nil_2.
  - constructor.
  - intros j l Hj. discriminate.
Qed.

Lemma intercept_and_resend_inv (self : EveAttack) (photons : list loc)
    (alice_bases : list BasisType) (h : heap) :
  NoDup photons -> Forall (fun l => l < length h) photons ->
  length photons <= length alice_bases ->
  wp (intercept_and_resend self photons alice_bases h)
     (fun res => let '(_, m, e, h') := res in eve_inv h photons m e h')
     no_raise.
Proof.
  intros Hnd Hval Hlen. unfold intercept_and_resend.
  apply (intercept_loop_inv h alice_bases photons []); try assumption.
  apply eve_inv_initial.
Qed.

(** C10 (as amended).  For a list of pairwise distinct photon objects and a
    basis list of the same length, [intercept_and_resend] never raises and
    returns a photon list of the same length; at every index Eve does not
    intercept (her basis entry is [None]) the output holds the original
    object, unchanged in every field; at every intercepted index it holds an
    object allocated during the call, encoded in Eve's measurement basis and
    marked intercepted. *)
Theorem intercept_and_resend_frame (self : EveAttack) (photons : list loc)
    (alice_bases : list BasisType) (h : heap) :
  length alice_bases = length photons ->
  Forall (fun l => l < length h) photons ->
  NoDup photons ->
  wp (intercept_and_resend self photons alice_bases h)
     (fun res =>
        let '(_, modified, eve_bases, h') := res in
        length modified = length photons /\
        forall i l, photons !! i = Some l ->
          (eve_bases !! i = Some None /\ modified !! i = Some l /\ h' !! l = h !! l) \/
          (exists eve_basis l',
             eve_bases !! i = Some (Some eve_basis) /\ modified !! i = Some l' /\
             fresh_resent h h' l' eve_basis))
     no_raise.
Proof.
  intros Hlen Hval Hnd.
  eapply wp_mono; [| |apply intercept_and_resend_inv]; try assumption; [|auto|lia].
  intros [[[self' modified] eve_bases] h'] (Hlm & Hle & Hh & Hndm & Hvalm & Hkeep & Hpos).
  split; [exact Hlm|]. intros i l Hi.
  destruct (Hpos i l Hi) as [[He Hm] | Hright]; [|right; exact Hright].
  left. repeat split; try assumption.
  apply Hkeep.
  - rewrite Forall_forall in Hval. apply Hval. eapply list_elem_of_lookup_2. exact Hi.
  - intros j Hj. pose proof (proj1 (NoDup_alt _) Hnd j i l Hj Hi) as ->. exact He.
Qed.

Lemma intercept_and_resend_frame_witness :
  wp (intercept_and_resend (EveAttack_init 0.5%Q) [0; 1] [RECTILINEAR; DIAGONAL]
        [create 0 RECTILINEAR; create 1 DIAGONAL])
     (fun res =>
        let '(_, modified, eve_bases, h') := res in
        length modified = 2 /\
        forall i l, [0; 1] !! i = Some l ->
          (eve_bases !! i = Some None /\ modified !! i = Some l /\
           h' !! l = [create 0 RECTILINEAR; create 1 DIAGONAL] !! l) \/
          (exists eve_basis l',
             eve_bases !! i = Some (Some eve_basis) /\ modified !! i = Some l' /\
             fresh_resent [create 0 RECTILINEAR; create 1 DIAGONAL] h' l' eve_basis))
     no_raise.
Proof.
  apply (intercept_and_resend_frame (EveAttack_init 0.5%Q) [0; 1] [RECTILINEAR; DIAGONAL]
           [create 0 RECTILINEAR; create 1 DIAGONAL]).
  - reflexivity.
  - repeat constructor; simpl; lia.
  - apply (bool_decide_unpack _). vm_compute. exact I.
Defined.

(** C10 as stated fails when the list holds the same photon object twice:
    Eve intercepts index 0 and lets index 1 pass, yet the object at index 1
    is the one she marked at index 0. *)
Lemma intercept_and_resend_aliased :
  exists self' modified eve_bases h',
    run (intercept_and_resend (EveAttack_init 0.5%Q) [0; 0] [RECTILINEAR; RECTILINEAR]
           [create 0 RECTILINEAR])
        [0.1; 0; 0.5; 0.9]%Q
    = Some (Ok (self', modified, eve_bases, h')) /\
    length [RECTILINEAR; RECTILINEAR] = length [0; 0] /\
    eve_bases !! 1 = Some None /\
    modified !! 1 = Some 0 /\
    is_intercepted <$> [create 0 RECTILINEAR] !! 0 = Some false /\
    is_intercepted <$> h' !! 0 = Some true.
Proof.
  do 4 eexists. split; [vm_compute; reflexivity|].
  repeat split.
Qed.

(** ** The stages before the measurement (bb84.py) *)

Lemma create_photons_spec (bits_bases : list (Z * BasisType)) : forall h : heap,
  create_photons bits_bases h
  = (seq (length h) (length bits_bases),
     h ++ map (fun bb => create (fst bb) (snd bb)) bits_bases).
Proof.
  induction bits_bases as [|[b bs] rest IH]; intros h.
  - simpl. now rewrite app_nil_r.
  - cbn [create_photons alloc]. rewrite IH.
    rewrite length_app. simpl. rewrite <- app_assoc. simpl.
    replace (length h + 1) with (S (length h)) by lia. reflexivity.
Qed.




Lemma calculate_total_loss_wp (math_exp : Q -> Q) (self : AtmosphericChannel) :
  wp (calculate_total_loss math_exp self) (fun _ => True) no_raise.
Proof.
  unfold calculate_total_loss, uniform. apply wp_bind. apply wp_random.
  intros r _ _. exact I.
Qed.






(** ** Bob's measurement (bb84.py) *)









(** ** The weather stage of the driver (weather.py, bb84.py) *)

Lemma count_None_received (bits : list Z) : count_None (map Some bits) = 0.
Proof.
  unfold count_None. induction bits as [|b bits IH]; [reflexivity|].
  cbn [map]. rewrite filter_cons_False by discriminate. exact IH.
Qed.

Lemma weather_threshold_zero (len : nat) (loss_factor : Q) :
  (Qmin 0.95 (Qnat 0 / Qnat len * loss_factor) - Qnat 0 / Qnat len == 0)%Q.
Proof.
  assert (Hb : (Qnat 0 / Qnat len == 0)%Q) by (unfold Qdiv, Qnat; simpl; ring).
  rewrite Hb, Qmult_0_l. rewrite Q.min_r by discriminate. reflexivity.
Qed.

Lemma weather_loop_no_loss (threshold : Q) : forall (photon_states result : list (option Z))
    (lost : nat),
  (threshold <= 0)%Q ->
  wp (weather_loop threshold photon_states result lost)
     (fun res => res = (result ++ photon_states, lost)) no_raise.
Proof.
  induction photon_states as [|[b|] rest IH]; intros result lost Ht.
  - cbn. now rewrite app_nil_r.
  - cbn [weather_loop]. apply wp_random. intros r Hr0 Hr1.
    rewrite Qltb_false by lra.
    eapply wp_mono; [| |apply IH]; [|auto|exact Ht].
    intros res ->. now rewrite <- app_assoc.
  - cbn [weather_loop].
    eapply wp_mono; [| |apply IH]; [|auto|exact Ht].
    intros res ->. now rewrite <- app_assoc.
Qed.

Lemma mark_weather_losses_all_present (photons : list loc) (bits : list Z) : forall h : heap,
  mark_weather_losses (zip photons (map Some bits)) h = h.
Proof.
  revert bits. induction photons as [|p photons IH]; intros bits h; [reflexivity|].
  destruct bits as [|b bits]; [reflexivity|]. cbn. apply IH.
Qed.

Lemma loss_factor_found (weather : string) :
  exists loss_factor : Q,
    LOSS_FACTORS !! (if decide (is_Some (LOSS_FACTORS !! weather)) then weather else CLEAR)
    = Some loss_factor.
Proof.
  destruct (decide (is_Some (LOSS_FACTORS !! weather))) as [[f Hf]|_].
  - now exists f.
  - now exists 1.0%Q.
Qed.

(** With no photon received the weather stage divides by zero. *)
Lemma weather_stage_empty (self : BB84Protocol) (h : heap) :
  bob_received_photons self = [] ->
  _apply_weather_effects self h = Raise ZeroDivisionError.
Proof.
  intros Hempty. unfold _apply_weather_effects, apply_weather_effects.
  rewrite Hempty. cbn [map length].
  destruct (loss_factor_found (weather self)) as [f Hf]. now rewrite Hf.
Qed.

(** What [apply_weather_effects] does with a photon that is still present:
    it drops it when the photon's own draw falls below the threshold
    [weather_loss_rate - base_loss_rate], that is with probability equal to
    the threshold when the threshold lies in [[0,1]], and it goes on with the
    rest of the list either way. *)
Lemma weather_loop_drop_probability (N : nat) (threshold : Q) (b : Z)
    (rest result : list (option Z)) (lost : nat)
    (ev : result_of_weather_loop -> bool) :
  0 < N -> grid_resolves N threshold ->
  (Pr N (weather_loop threshold (Some b :: rest) result lost) ev
   == threshold * Pr N (weather_loop threshold rest (result ++ [None]) (lost + 1)) ev
      + (1 - threshold) * Pr N (weather_loop threshold rest (result ++ [Some b]) lost) ev)%Q.
Proof.
  intros HN Hgrid. cbn [weather_loop]. unfold mbind, prog_bind, random. cbn [bind].
  apply (Pr_random_threshold N threshold _ ev _ _ HN Hgrid);
    intros r Hr; rewrite Hr; reflexivity.
Qed.

(** C2, what the code does.  The driver hands the weather stage the received
    photons only, so the stage sees no lost photon, computes a drop probability
    of zero, and for every weather condition and every outcome of the
    generator marks no photon as lost. *)
Theorem weather_stage_never_drops (self : BB84Protocol) (h : heap) :
  bob_received_photons self <> [] ->
  wp (_apply_weather_effects self h)
     (fun res =>
        snd res = h /\
        exists stats, weather_stats (fst res) = Some stats /\
                      ws_photons_lost_to_weather stats = 0)
     no_raise.
Proof.
  intros Hne. unfold _apply_weather_effects, apply_weather_effects.
  destruct (loss_factor_found (weather self)) as [f Hf]. rewrite Hf.
  set (bits := map (fun photon => bit (deref h photon)) (bob_received_photons self)).
  assert (Hmap : map (fun photon => Some (bit (deref h photon))) (bob_received_photons self)
                 = map Some bits).
  { unfold bits. now rewrite map_map. }
  rewrite Hmap.
  destruct (length (map Some bits)) as [|k] eqn:Hlen.
  { rewrite length_map in Hlen. unfold bits in Hlen. rewrite length_map in Hlen.
    destruct (bob_received_photons self); [congruence|discriminate]. }
  rewrite count_None_received.
  apply wp_bind. eapply wp_bind_with.
  - apply weather_loop_no_loss. rewrite weather_threshold_zero. discriminate.
  - intros res ->. cbn [wp fst snd]. split.
    + cbn. apply mark_weather_losses_all_present.
    + eexists. split; reflexivity.
Qed.

Lemma weather_stage_never_drops_witness :
  wp (_apply_weather_effects
        (set_bob_received_photons [0; 1]
           (BB84Protocol_init 64 false 0.5%Q "intercept_resend" 500%Q "rain" "night" 30%Q))
        [create 0 RECTILINEAR; create 1 DIAGONAL; create 1 RECTILINEAR; create 0 DIAGONAL])
     (fun res =>
        snd res = [create 0 RECTILINEAR; create 1 DIAGONAL;
                   create 1 RECTILINEAR; create 0 DIAGONAL] /\
        exists stats, weather_stats (fst res) = Some stats /\
                      ws_photons_lost_to_weather stats = 0)
     no_raise.
Proof.
  apply weather_stage_never_drops. discriminate.
Defined.

(** ** The eavesdropper stage of the driver (bb84.py, attacks.py) *)

Lemma intercept_loop_rate_zero (alice_bases : list BasisType) :
  forall (photons : list loc) (i : nat) (self : EveAttack) (modified : list loc)
         (eve_bases : list (option BasisType)) (h : heap),
  (interception_rate self <= 0)%Q ->
  wp (intercept_loop alice_bases i photons self modified eve_bases h)
     (fun res => let '(self', m, _, h') := res in
                 self' = self /\ m = modified ++ photons /\ h' = h)
     no_raise.
Proof.
  induction photons as [|p photons IH]; intros i self modified eve_bases h Hrate.
  - cbn. now rewrite app_nil_r.
  - cbn [intercept_loop]. apply wp_random. intros r Hr0 Hr1.
    rewrite Qltb_false by lra.
    eapply wp_mono; [| |apply IH]; [|auto|exact Hrate].
    intros [[[self' m] e] h'] (-> & -> & ->). now rewrite <- app_assoc.
Qed.

(** The dispatcher of attacks.py: one strategy per tag, intercept-resend for
    any other string. *)
Lemma apply_eve_attack_dispatch (photon_states : list (option Z)) (bases : list string)
    (intensity : Q) :
  apply_eve_attack photon_states bases "intercept_resend" intensity
    = apply_intercept_resend_attack photon_states bases intensity /\
  apply_eve_attack photon_states bases "beam_splitting" intensity
    = apply_beam_splitting_attack photon_states (intensity * 0.6)%Q /\
  apply_eve_attack photon_states bases "photon_number_splitting" intensity
    = apply_pns_attack photon_states bases 0.15%Q /\
  apply_eve_attack photon_states bases "detector_blinding" intensity
    = apply_detector_blinding_attack photon_states bases (intensity * 0.8)%Q /\
  apply_eve_attack photon_states bases "jammed_link" intensity
    = apply_jammed_link_attack photon_states /\
  apply_eve_attack photon_states bases "unknown" intensity
    = apply_intercept_resend_attack photon_states bases intensity.
Proof. repeat split. Qed.

(** The jammed-link strategy on a photon that is present: lost with
    probability 0.6 whatever the intensity; a survivor's bit is flipped with
    probability 0.5. *)
Lemma jammed_link_step_probability (N : nat) (b : Z) (rest result : list (option Z))
    (noise : nat) (ev : result_of_attack -> bool) :
  0 < N -> grid_resolves N 0.6%Q -> grid_resolves N 0.5%Q ->
  (Pr N (jammed_link_loop (Some b :: rest) result noise) ev
   == 0.6 * Pr N (jammed_link_loop rest (result ++ [None]) (noise + 1)) ev
      + (1 - 0.6)
        * (0.5 * Pr N (jammed_link_loop rest (result ++ [Some (1 - b)%Z]) noise) ev
           + (1 - 0.5) * Pr N (jammed_link_loop rest (result ++ [Some b]) noise) ev))%Q.
Proof.
  intros HN H6 H5. cbn [jammed_link_loop]. unfold mbind, prog_bind, random. cbn [bind].
  apply (Pr_random_threshold N 0.6%Q _ ev _ _ HN H6); intros r Hr; rewrite Hr.
  - reflexivity.
  - apply (Pr_random_threshold N 0.5%Q _ ev _ _ HN H5); intros r' Hr'; rewrite Hr';
      reflexivity.
Qed.

(** C1, what the code does.  The eavesdropper stage of the driver never reads
    [eve_attack_type]: whatever strategy is selected, jammed link included, it
    runs intercept-and-resend at [eve_interception_rate].  At rate 0 it
    therefore leaves every photon in place and untouched in every outcome,
    where the jammed-link strategy would lose each photon with probability
    0.6. *)
Theorem eve_stage_ignores_attack_type (self : BB84Protocol) (h : heap) (eve0 : EveAttack) :
  eve self = Some eve0 -> (interception_rate eve0 <= 0)%Q ->
  wp (_eve_intercept self h)
     (fun res =>
        alice_photons (fst res) = alice_photons self /\
        eve_attack_type (fst res) = eve_attack_type self /\
        snd res = h)
     no_raise.
Proof.
  intros Heve Hrate. unfold _eve_intercept, intercept_and_resend. rewrite Heve.
  eapply wp_bind_with.
  - apply intercept_loop_rate_zero. exact Hrate.
  - intros [[[eve1 m] e] h'] (_ & -> & ->). cbn. repeat split; reflexivity.
Qed.

Lemma eve_stage_ignores_attack_type_witness :
  wp (_eve_intercept
        (set_alice_photons [0; 1]
           (set_alice_bases [RECTILINEAR; DIAGONAL]
              (BB84Protocol_init 64 true 0.0%Q "jammed_link" 500%Q "clear" "night" 30%Q)))
        [create 0 RECTILINEAR; create 1 DIAGONAL])
     (fun res =>
        alice_photons (fst res) = [0; 1] /\
        eve_attack_type (fst res) = "jammed_link" /\
        snd res = [create 0 RECTILINEAR; create 1 DIAGONAL])
     no_raise.
Proof.
  eapply wp_mono;
    [| |apply (eve_stage_ignores_attack_type _ _ (EveAttack_init 0.0%Q))].
  - intros res H. exact H.
  - intros e H. exact H.
  - reflexivity.
  - discriminate.
Defined.

(** The strategy the dispatcher of attacks.py selects for the same request:
    on a draw of 0.3 the jammed link loses the photon, at any intensity. *)
Lemma jammed_link_loses_photon (intensity : Q) :
  run (apply_eve_attack [Some 1%Z] ["+"] "jammed_link" intensity) [0.3%Q]
  = Some (Ok ([None], JammedLinkStats 1)).
Proof. reflexivity. Qed.

(** ** A run that raises (bb84.py) *)

(** C3, what the code does.  A valid configuration (64 bits, 500 km, no Eve,
    clear sky) and an outcome of the generator in which every photon is lost
    in the atmosphere: the weather stage then divides by the number of
    received photons, which is zero, and [run_protocol] raises. *)
Theorem run_protocol_raises :
  Forall valid_draw (replicate 193 0.1%Q) /\
  run (run_protocol exp_taylor
         (BB84Protocol_init 64 false 0.5%Q "intercept_resend" 500%Q "clear" "night" 30%Q) [])
      (replicate 193 0.1%Q)
  = Some (Err ZeroDivisionError) /\
  ~ wp (run_protocol exp_taylor
          (BB84Protocol_init 64 false 0.5%Q "intercept_resend" 500%Q "clear" "night" 30%Q) [])
       (fun _ => True) no_raise.
Proof.
  assert (Hv : Forall valid_draw (replicate 193 0.1%Q)).
  { apply Forall_replicate. split; [discriminate|reflexivity]. }
  assert (Hrun : run (run_protocol exp_taylor
      (BB84Protocol_init 64 false 0.5%Q "intercept_resend" 500%Q "clear" "night" 30%Q) [])
      (replicate 193 0.1%Q) = Some (Err ZeroDivisionError)).
  { vm_compute. reflexivity. }
  split; [exact Hv|]. split; [exact Hrun|].
  intros Hwp. exact (run_sound _ _ _ _ _ Hwp Hv Hrun).
Qed.

(** ** Replayed runs *)

(** A run of four photons in which every draw is 0.7: all photons arrive, all
    bases match, no error is found, and the zero-error floor of the QBER,
    100 / 4, puts the run in the ABORT band. *)
Lemma security_level_reported_witness :
  exists trace : Trace,
    run (run_protocol exp_taylor
           (BB84Protocol_init 4 false 0.5%Q "intercept_resend" 500%Q "rain" "night" 30%Q) [])
        (replicate 40 0.7%Q)
    = Some (Ok trace) /\
    (15 <= tr_qber trace)%Q /\
    tr_security_level trace = "ABORT".
Proof.
  eexists. split; [vm_compute; reflexivity|].
  split; [discriminate|].
  match goal with
  | |- tr_security_level ?t = _ =>
      assert (Hrun : run (run_protocol exp_taylor
                (BB84Protocol_init 4 false 0.5%Q "intercept_resend" 500%Q "rain" "night" 30%Q) [])
                (replicate 40 0.7%Q) = Some (Ok t)) by (vm_compute; reflexivity)
  end.
  assert (Hv : Forall valid_draw (replicate 40 0.7%Q)).
  { apply Forall_replicate. split; [discriminate|reflexivity]. }
  pose proof (run_sound _ _ _ _ _
                (security_level_reported exp_taylor
                   (BB84Protocol_init 4 false 0.5%Q "intercept_resend" 500%Q "rain" "night" 30%Q)
                   [])
                Hv Hrun) as (_ & _ & _ & Habort & _).
  apply Habort. discriminate.
Defined.


(** * Part III: further properties of the code *)

(** ** Basis strings (basis.py) *)

(** X1.  [from_string] inverts [to_string], and it accepts no other string:
    anything but the two glyphs raises [ValueError]. *)
Theorem from_string_to_string (basis : BasisType) (s : string) :
  from_string (to_string basis) = Ret basis /\
  (s <> "+" -> s <> "×" -> from_string s = Raise ValueError) /\
  (forall b, from_string s = Ret b -> to_string b = s).
Proof.
  split; [destruct basis; reflexivity|]. unfold from_string. split.
  - intros H1 H2. apply String.eqb_neq in H1, H2. now rewrite H1, H2.
  - intros b. destruct (String.eqb_spec s "+") as [->|_].
    + intros [= <-]. reflexivity.
    + destruct (String.eqb_spec s "×") as [->|_]; [|discriminate].
      intros [= <-]. reflexivity.
Qed.

Lemma from_string_to_string_witness :
  from_string "x" = Raise ValueError.
Proof.
  destruct (from_string_to_string RECTILINEAR "x") as (_ & H & _).
  apply H; discriminate.
Defined.

(** ** The atmospheric channel (atmosphere.py) *)

(** X2.  For a channel built by the constructor, whenever [math.exp] of the
    (non-positive) exponent is at most 1, every sample of the total loss lies
    between the base atmospheric loss 0.15 and the cap 0.95. *)
Theorem total_loss_bounds (math_exp : Q -> Q) (distance : Q) :
  (math_exp (- 0.0001 * distance) <= 1)%Q ->
  wp (calculate_total_loss math_exp (AtmosphericChannel_init distance))
     (fun loss => (0.15 <= loss)%Q /\ (loss <= 0.95)%Q) no_raise.
Proof.
  intros Hexp. unfold calculate_total_loss, uniform.
  apply wp_bind. apply wp_random. intros r Hr0 Hr1. cbn [wp].
  cbn [AtmosphericChannel_init scattering_coefficient distance_km base_loss_rate
       turbulence_factor].
  split; [|apply Q.le_min_l].
  apply Q.min_glb; [discriminate|].
  set (e := math_exp _) in *.
  assert (Ht : (0 <= 0 + (0.05 - 0) * r)%Q) by nra.
  lra.
Qed.

Lemma total_loss_bounds_witness :
  wp (calculate_total_loss exp_taylor (AtmosphericChannel_init 500%Q))
     (fun loss => (0.15 <= loss)%Q /\ (loss <= 0.95)%Q) no_raise.
Proof.
  apply (total_loss_bounds exp_taylor 500%Q). vm_compute. discriminate.
Defined.

Lemma set_is_transmitted_eq l v (h : heap) (p : Photon) :
  h !! l = Some p ->
  set_is_transmitted l v h !! l
  = Some (mkPhoton (bit p) (preparation_basis p) (state p) v (is_intercepted p)).
Proof.
  intros H. unfold set_is_transmitted. rewrite list_lookup_alter.
  destruct (decide (l = l)); [|congruence]. now rewrite H.
Qed.

Lemma set_bit_eq l v (h : heap) (p : Photon) :
  h !! l = Some p ->
  set_bit l v h !! l
  = Some (mkPhoton v (preparation_basis p) (state p) (is_transmitted p) (is_intercepted p)).
Proof.
  intros H. unfold set_bit. rewrite list_lookup_alter.
  destruct (decide (l = l)); [|congruence]. now rewrite H.
Qed.

Lemma transmitted_state_snoc_other (received : list loc) (q l : loc) (p p' : Photon) :
  l <> q -> transmitted_state received l p p' -> transmitted_state (received ++ [q]) l p p'.
Proof.
  intros Hne [Hprep Hst]. split; [exact Hprep|].
  destruct (decide (l ∈ received)) as [Hin|Hn];
    destruct (decide (l ∈ received ++ [q])) as [Hin'|Hn']; try assumption.
  - exfalso. apply Hn'. apply elem_of_app. now left.
  - exfalso. apply elem_of_app in Hin' as [Hin'|Hin']; [contradiction|].
    apply list_elem_of_singleton in Hin'. contradiction.
Qed.

Lemma transmit_inv_lost (h0 : heap) (done received : list loc) (h : heap) (q : loc) :
  q ∉ done -> transmit_inv h0 done received h ->
  transmit_inv h0 (done ++ [q]) received (set_is_transmitted q false h).
Proof.
  intros Hq (Hlen & Hsub & Hout & Hin). repeat split.
  - now rewrite set_is_transmitted_length.
  - now apply sublist_inserts_r.
  - intros l Hl. rewrite set_is_transmitted_ne; [apply Hout|].
    + intros Hd. apply Hl. apply elem_of_app. now left.
    + intros <-. apply Hl. apply elem_of_app. right. now left.
  - intros l p Hl Hp. apply elem_of_app in Hl as [Hl|Hl].
    + rewrite set_is_transmitted_ne by (intros <-; contradiction). now apply Hin.
    + apply list_elem_of_singleton in Hl. subst l.
      assert (Hq0 : h !! q = Some p) by (rewrite Hout; assumption).
      rewrite (set_is_transmitted_eq q false h p Hq0).
      eexists. split; [reflexivity|]. split; [repeat split|].
      destruct (decide (q ∈ received)) as [Hr|_]; [|now split].
      exfalso. apply Hq. eapply elem_of_sublist; eassumption.
Qed.

Lemma transmit_inv_received (h0 : heap) (done received : list loc) (h : heap) (q : loc)
    (flip : bool) :
  q ∉ done -> transmit_inv h0 done received h ->
  transmit_inv h0 (done ++ [q]) (received ++ [q])
    (if flip
     then set_bit q (1 - bit (deref (set_is_transmitted q true h) q))%Z
            (set_is_transmitted q true h)
     else set_is_transmitted q true h).
Proof.
  intros Hq (Hlen & Hsub & Hout & Hin).
  assert (Hne : forall l, l <> q ->
            (if flip
             then set_bit q (1 - bit (deref (set_is_transmitted q true h) q))%Z
                    (set_is_transmitted q true h)
             else set_is_transmitted q true h) !! l = h !! l).
  { intros l Hl. destruct flip.
    - rewrite set_bit_ne by congruence. now rewrite set_is_transmitted_ne by congruence.
    - now rewrite set_is_transmitted_ne by congruence. }
  repeat split.
  - destruct flip; now rewrite ?set_bit_length, set_is_transmitted_length.
  - apply sublist_app; [exact Hsub|reflexivity].
  - intros l Hl. rewrite Hne; [apply Hout|].
    + intros Hd. apply Hl. apply elem_of_app. now left.
    + intros ->. apply Hl. apply elem_of_app. right. now left.
  - intros l p Hl Hp. apply elem_of_app in Hl as [Hl|Hl].
    + rewrite Hne by (intros ->; contradiction).
      destruct (Hin l p Hl Hp) as (p' & Hp' & Hst).
      exists p'. split; [exact Hp'|].
      apply transmitted_state_snoc_other; [|exact Hst]. intros ->. contradiction.
    + apply list_elem_of_singleton in Hl. subst l.
      assert (Hq0 : h !! q = Some p) by (rewrite Hout; assumption).
      pose proof (set_is_transmitted_eq q true h p Hq0) as H1.
      assert (Hrec : q ∈ received ++ [q]) by (apply elem_of_app; right; now left).
      destruct flip.
      * rewrite (set_bit_eq q _ _ _ H1). rewrite (deref_lookup _ _ _ H1).
        eexists. split; [reflexivity|]. split; [repeat split|].
        destruct (decide (q ∈ received ++ [q])); [|contradiction]. cbn. auto.
      * rewrite H1. eexists. split; [reflexivity|]. split; [repeat split|].
        destruct (decide (q ∈ received ++ [q])); [|contradiction]. cbn. auto.
Qed.

Lemma transmit_loop_inv (h0 : heap) (distance loss : Q) :
  forall (photons done received : list loc) (h : heap),
  NoDup (done ++ photons) ->
  transmit_inv h0 done received h ->
  wp (transmit_loop distance loss photons received h)
     (fun res => transmit_inv h0 (done ++ photons) (fst res) (snd res)) no_raise.
Proof.
  induction photons as [|q photons IH]; intros done received h Hnd Hinv.
  - rewrite app_nil_r. exact Hinv.
  - assert (Happ : done ++ q :: photons = (done ++ [q]) ++ photons)
      by (now rewrite <- app_assoc).
    rewrite Happ in Hnd |- *.
    assert (Hq : q ∉ done).
    { apply NoDup_app in Hnd as (Hnd1 & _ & _). apply NoDup_app in Hnd1 as (_ & Hsep & _).
      intros Hin. apply (Hsep q Hin). now left. }
    cbn [transmit_loop]. apply wp_random. intros r _ _.
    destruct (Qltb loss r).
    + apply wp_random. intros r' _ _.
      apply IH; [exact Hnd|].
      exact (transmit_inv_received h0 done received h q (Qltb r' _) Hq Hinv).
    + apply IH; [exact Hnd|]. now apply transmit_inv_lost.
Qed.

(** X3.  Transmitting pairwise distinct photon objects never raises.  The
    photons returned are some of the input photons, in order; a returned photon
    is marked transmitted and its bit is kept or flipped; a photon not
    returned is marked not transmitted and keeps its bit.  The preparation
    basis, the polarization state and the intercepted mark of every photon are
    left as they were (so the state of a flipped photon no longer encodes its
    bit), and no other object of the store changes. *)
Theorem transmit_photons_frame (math_exp : Q -> Q) (self : AtmosphericChannel)
    (photons : list loc) (h : heap) :
  NoDup photons ->
  wp (transmit_photons math_exp self photons h)
     (fun res =>
        let '(received, h') := res in
        length h' = length h /\
        received `sublist_of` photons /\
        (forall l, l ∉ photons -> h' !! l = h !! l) /\
        (forall l p, l ∈ photons -> h !! l = Some p ->
           exists p', h' !! l = Some p' /\ transmitted_state received l p p'))
     no_raise.
Proof.
  intros Hnd. unfold transmit_photons.
  eapply wp_bind_with; [apply calculate_total_loss_wp|]. intros loss _.
  eapply wp_mono; [| |apply (transmit_loop_inv h _ _ photons [] [] h)].
  - intros [received h'] Hinv. exact Hinv.
  - auto.
  - exact Hnd.
  - repeat split; try reflexivity. intros l p Hl. now apply elem_of_nil in Hl.
Qed.

Lemma transmit_photons_frame_witness :
  wp (transmit_photons exp_taylor (AtmosphericChannel_init 500%Q) [0; 1]
        [create 0 RECTILINEAR; create 1 DIAGONAL])
     (fun res =>
        let '(received, h') := res in
        length h' = 2 /\
        received `sublist_of` [0; 1] /\
        (forall l, l ∉ [0; 1] -> h' !! l = [create 0 RECTILINEAR; create 1 DIAGONAL] !! l) /\
        (forall l p, l ∈ [0; 1] -> [create 0 RECTILINEAR; create 1 DIAGONAL] !! l = Some p ->
           exists p', h' !! l = Some p' /\ transmitted_state received l p p'))
     no_raise.
Proof.
  apply (transmit_photons_frame exp_taylor (AtmosphericChannel_init 500%Q) [0; 1]
           [create 0 RECTILINEAR; create 1 DIAGONAL]).
  apply (bool_decide_unpack _). vm_compute. exact I.
Defined.

(** Splits a conjunction into its conjuncts, and nothing else. *)
Ltac split_ands := repeat match goal with |- _ /\ _ => split end.

(** ** Weather attenuation (weather.py) *)

Lemma count_None_cons {A : Type} (x : option A) (l : list (option A)) :
  count_None (x :: l) = (if x is None then 1 else 0) + count_None l.
Proof.
  unfold count_None. destruct x as [a|].
  - now rewrite filter_cons_False by discriminate.
  - now rewrite filter_cons_True by reflexivity.
Qed.

Lemma count_None_app {A : Type} (l k : list (option A)) :
  count_None (l ++ k) = count_None l + count_None k.
Proof. unfold count_None. now rewrite filter_app, length_app. Qed.

Lemma weather_loop_frame (threshold : Q) : forall (photon_states result : list (option Z))
    (lost : nat),
  wp (weather_loop threshold photon_states result lost)
     (fun res =>
        exists out, fst res = result ++ out /\
                    Forall2 kept_or_lost photon_states out /\
                    lost <= snd res /\
                    count_None out = count_None photon_states + (snd res - lost))
     no_raise.
Proof.
  induction photon_states as [|[b|] rest IH]; intros result lost.
  - cbn. exists []. rewrite app_nil_r. split_ands.
    + reflexivity.
    + constructor.
    + lia.
    + unfold count_None. simpl. lia.
  - cbn [weather_loop]. apply wp_random. intros r _ _. destruct (Qltb r threshold).
    + eapply wp_mono; [| |apply IH]; [|auto].
      intros [res lost'] (out & Hres & Hrel & Hle & Hcount). cbn [fst snd] in *.
      exists (None :: out). rewrite Hres, <- app_assoc.
      split_ands; [reflexivity|constructor; [now right|exact Hrel]|lia|].
      rewrite !count_None_cons. lia.
    + eapply wp_mono; [| |apply IH]; [|auto].
      intros [res lost'] (out & Hres & Hrel & Hle & Hcount). cbn [fst snd] in *.
      exists (Some b :: out). rewrite Hres, <- app_assoc.
      split_ands; [reflexivity|constructor; [now left|exact Hrel]|lia|].
      rewrite !count_None_cons. lia.
  - cbn [weather_loop].
    eapply wp_mono; [| |apply IH]; [|auto].
    intros [res lost'] (out & Hres & Hrel & Hle & Hcount). cbn [fst snd] in *.
    exists (None :: out). rewrite Hres, <- app_assoc.
    split_ands; [reflexivity|constructor; [now left|exact Hrel]|lia|].
    rewrite !count_None_cons. lia.
Qed.

(** X4.  On an empty photon list [apply_weather_effects] raises
    [ZeroDivisionError], whatever the weather string. *)
Theorem apply_weather_effects_empty (weather : string) :
  apply_weather_effects [] weather = Raise ZeroDivisionError.
Proof.
  unfold apply_weather_effects.
  destruct (loss_factor_found weather) as [f Hf]. now rewrite Hf.
Qed.

(** X5.  On a non-empty photon list [apply_weather_effects] never raises.
    The result has the length of the input; a lost photon stays lost and a
    present photon is either kept with its bit or lost; the statistics count
    the losses: [total_photons_lost] is the number of lost photons in the
    result, which is the number lost before plus [photons_lost_to_weather]. *)
Theorem apply_weather_effects_frame (photon_states : list (option Z)) (weather : string) :
  photon_states <> [] ->
  wp (apply_weather_effects photon_states weather)
     (fun res =>
        Forall2 kept_or_lost photon_states (fst res) /\
        ws_total_photons_lost (snd res) = count_None (fst res) /\
        count_None (fst res)
        = count_None photon_states + ws_photons_lost_to_weather (snd res))
     no_raise.
Proof.
  intros Hne. unfold apply_weather_effects.
  destruct (loss_factor_found weather) as [f Hf]. rewrite Hf.
  destruct (length photon_states) as [|k] eqn:Hlen.
  { destruct photon_states; [congruence|discriminate]. }
  apply wp_bind. eapply wp_mono; [| |apply weather_loop_frame]; [|auto].
  intros [result lost] (out & Hres & Hrel & Hle & Hcount). cbn [fst snd wp] in *.
  subst result. cbn [app ws_total_photons_lost ws_photons_lost_to_weather].
  split_ands; [exact Hrel|reflexivity|lia].
Qed.

Lemma apply_weather_effects_frame_witness :
  wp (apply_weather_effects [Some 1%Z; None; Some 0%Z] "rain")
     (fun res =>
        Forall2 kept_or_lost [Some 1%Z; None; Some 0%Z] (fst res) /\
        ws_total_photons_lost (snd res) = count_None (fst res) /\
        count_None (fst res)
        = count_None [Some 1%Z; None; Some 0%Z] + ws_photons_lost_to_weather (snd res))
     no_raise.
Proof.
  apply (apply_weather_effects_frame [Some 1%Z; None; Some 0%Z] "rain"). discriminate.
Defined.

Lemma loss_factor_unlisted (weather : string) :
  weather <> CLEAR -> weather <> LIGHT_HAZE -> weather <> HEAVY_CLOUDS -> weather <> RAIN ->
  LOSS_FACTORS !! weather = None.
Proof.
  intros H1 H2 H3 H4. unfold LOSS_FACTORS. apply not_elem_of_list_to_map_1.
  cbn. intros Hin. repeat (apply elem_of_cons in Hin as [Hin|Hin]; [congruence|]).
  now apply elem_of_nil in Hin.
Qed.

Lemma effective_weather_clear (weather : string) :
  weather <> LIGHT_HAZE -> weather <> HEAVY_CLOUDS -> weather <> RAIN ->
  (if decide (is_Some (LOSS_FACTORS !! weather)) then weather else CLEAR) = CLEAR.
Proof.
  intros H2 H3 H4. destruct (decide (weather = CLEAR)) as [->|H1].
  - now destruct (decide (is_Some (LOSS_FACTORS !! CLEAR))).
  - rewrite (loss_factor_unlisted weather H1 H2 H3 H4).
    destruct (decide (is_Some None)) as [[x Hx]|_]; [discriminate|reflexivity].
Qed.

(** X6.  Under clear sky, and under any weather string that is not one of
    the four names (it is treated as clear), [apply_weather_effects] returns a
    non-empty photon list unchanged and reports zero photons lost to weather,
    the condition "clear" and the loss factor 1. *)
Theorem apply_weather_effects_clear (photon_states : list (option Z)) (weather : string) :
  photon_states <> [] ->
  weather <> "light_haze" -> weather <> "heavy_clouds" -> weather <> "rain" ->
  wp (apply_weather_effects photon_states weather)
     (fun res =>
        fst res = photon_states /\
        ws_photons_lost_to_weather (snd res) = 0 /\
        ws_weather_condition (snd res) = "clear" /\
        (ws_additional_loss_factor (snd res) == 1)%Q /\
        ws_weather_description (snd res) = "Clear sky, optimal conditions")
     no_raise.
Proof.
  intros Hne H2 H3 H4. unfold apply_weather_effects.
  rewrite (effective_weather_clear weather H2 H3 H4).
  change (LOSS_FACTORS !! CLEAR) with (Some 1.0%Q).
  destruct (length photon_states) as [|k] eqn:Hlen.
  { destruct photon_states; [congruence|discriminate]. }
  apply wp_bind. eapply wp_mono; [| |apply weather_loop_no_loss]; [|auto|].
  - intros res ->. cbn. split_ands; reflexivity.
  - set (b := (Qnat (count_None photon_states) / Qnat (S k))%Q).
    pose proof (Q.le_min_r 0.95%Q (b * 1.0)%Q). lra.
Qed.

Lemma apply_weather_effects_clear_witness :
  wp (apply_weather_effects [Some 1%Z; None; Some 0%Z] "fog")
     (fun res =>
        fst res = [Some 1%Z; None; Some 0%Z] /\
        ws_photons_lost_to_weather (snd res) = 0 /\
        ws_weather_condition (snd res) = "clear" /\
        (ws_additional_loss_factor (snd res) == 1)%Q /\
        ws_weather_description (snd res) = "Clear sky, optimal conditions")
     no_raise.
Proof.
  apply (apply_weather_effects_clear [Some 1%Z; None; Some 0%Z] "fog"); discriminate.
Defined.

(** ** The attack strategies (attacks.py) *)

Lemma changed_cons (s o : option Z) (ss os : list (option Z)) :
  changed (s :: ss) (o :: os) = (if decide (s <> o) then 1 else 0) + changed ss os.
Proof.
  unfold changed. cbn [zip zip_with]. destruct (decide (s <> o)) as [Hd|Hd].
  - now rewrite filter_cons_True by exact Hd.
  - now rewrite filter_cons_False by exact Hd.
Qed.

Lemma changed_same (s : option Z) (ss os : list (option Z)) :
  changed (s :: ss) (s :: os) = changed ss os.
Proof. rewrite changed_cons. destruct (decide (s <> s)); [congruence|reflexivity]. Qed.

Lemma changed_flip (b : Z) (ss os : list (option Z)) :
  changed (Some b :: ss) (Some (1 - b)%Z :: os) = S (changed ss os).
Proof.
  rewrite changed_cons. destruct (decide (Some b <> Some (1 - b)%Z)) as [_|Hd]; [reflexivity|].
  exfalso. apply Hd. intros [= H]. lia.
Qed.

Lemma present_cons (s : option Z) (ss : list (option Z)) :
  present (s :: ss) = (if s is None then 0 else 1) + present ss.
Proof.
  unfold present. rewrite count_None_cons. cbn [length].
  assert (count_None ss <= length ss).
  { unfold count_None. apply length_filter. }
  destruct s; lia.
Qed.

Lemma beam_splitting_loop_frame (tap_rate : Q) :
  forall (photon_states result : list (option Z)) (tapped : nat),
  wp (beam_splitting_loop tap_rate photon_states result tapped)
     (fun res =>
        exists out k, fst res = result ++ out /\
                      snd res = BeamSplittingStats (tapped + k) /\
                      Forall2 kept_or_lost photon_states out /\
                      count_None out = count_None photon_states + k)
     no_raise.
Proof.
  induction photon_states as [|[b|] rest IH]; intros result tapped.
  - cbn. exists [], 0. rewrite app_nil_r, Nat.add_0_r.
    split_ands; [reflexivity|reflexivity|constructor|reflexivity].
  - cbn [beam_splitting_loop]. apply wp_random. intros r _ _. destruct (Qltb r tap_rate).
    + eapply wp_mono; [| |apply IH]; [|auto].
      intros [res st] (out & k & Hres & Hst & Hrel & Hcount). cbn [fst snd] in *.
      exists (None :: out), (S k). rewrite Hres, Hst, <- app_assoc.
      split_ands; [reflexivity|f_equal; lia|constructor; [now right|exact Hrel]|].
      rewrite !count_None_cons. lia.
    + eapply wp_mono; [| |apply IH]; [|auto].
      intros [res st] (out & k & Hres & Hst & Hrel & Hcount). cbn [fst snd] in *.
      exists (Some b :: out), k. rewrite Hres, Hst, <- app_assoc.
      split_ands; [reflexivity|reflexivity|constructor; [now left|exact Hrel]|].
      rewrite !count_None_cons. lia.
  - cbn [beam_splitting_loop].
    eapply wp_mono; [| |apply IH]; [|auto].
    intros [res st] (out & k & Hres & Hst & Hrel & Hcount). cbn [fst snd] in *.
    exists (None :: out), k. rewrite Hres, Hst, <- app_assoc.
    split_ands; [reflexivity|reflexivity|constructor; [now left|exact Hrel]|].
    rewrite !count_None_cons. lia.
Qed.

Lemma jammed_link_loop_frame :
  forall (photon_states result : list (option Z)) (noise : nat),
  wp (jammed_link_loop photon_states result noise)
     (fun res =>
        exists out k, fst res = result ++ out /\
                      snd res = JammedLinkStats (noise + k) /\
                      Forall2 jammed_entry photon_states out /\
                      count_None out = count_None photon_states + k)
     no_raise.
Proof.
  induction photon_states as [|[b|] rest IH]; intros result noise.
  - cbn. exists [], 0. rewrite app_nil_r, Nat.add_0_r.
    split_ands; [reflexivity|reflexivity|constructor|reflexivity].
  - cbn [jammed_link_loop]. apply wp_random. intros r _ _. destruct (Qltb r 0.6%Q).
    + eapply wp_mono; [| |apply IH]; [|auto].
      intros [res st] (out & k & Hres & Hst & Hrel & Hcount). cbn [fst snd] in *.
      exists (None :: out), (S k). rewrite Hres, Hst, <- app_assoc.
      split_ands; [reflexivity|f_equal; lia|constructor; [cbn; auto|exact Hrel]|].
      rewrite !count_None_cons. lia.
    + apply wp_random. intros r' _ _. destruct (Qltb r' 0.5%Q).
      * eapply wp_mono; [| |apply IH]; [|auto].
        intros [res st] (out & k & Hres & Hst & Hrel & Hcount). cbn [fst snd] in *.
        exists (Some (1 - b)%Z :: out), k. rewrite Hres, Hst, <- app_assoc.
        split_ands; [reflexivity|reflexivity|constructor; [cbn; auto|exact Hrel]|].
        rewrite !count_None_cons. lia.
      * eapply wp_mono; [| |apply IH]; [|auto].
        intros [res st] (out & k & Hres & Hst & Hrel & Hcount). cbn [fst snd] in *.
        exists (Some b :: out), k. rewrite Hres, Hst, <- app_assoc.
        split_ands; [reflexivity|reflexivity|constructor; [cbn; auto|exact Hrel]|].
        rewrite !count_None_cons. lia.
  - cbn [jammed_link_loop].
    eapply wp_mono; [| |apply IH]; [|auto].
    intros [res st] (out & k & Hres & Hst & Hrel & Hcount). cbn [fst snd] in *.
    exists (None :: out), k. rewrite Hres, Hst, <- app_assoc.
    split_ands; [reflexivity|reflexivity|constructor; [reflexivity|exact Hrel]|].
    rewrite !count_None_cons. lia.
Qed.

Lemma basis_choice_wp {A : Type} (f : string -> Prog A) post exc :
  (forall eve_basis : string, wp (f eve_basis) post exc) ->
  wp (choice ["+"; "x"] ≫= f) post exc.
Proof.
  intros H. unfold choice. apply wp_bind. apply wp_randbelow. intros i Hi.
  simpl in Hi. destruct i as [|[|i]]; [apply H|apply H|lia].
Qed.

Lemma intercept_resend_loop_frame (bases : list string) (rate : Q) :
  forall (photon_states : list (option Z)) (i : nat) (result : list (option Z))
         (intercepted errors : nat),
  i + length photon_states <= length bases ->
  wp (intercept_resend_loop bases rate i photon_states result intercepted errors)
     (fun res =>
        exists out dn de,
          fst res = result ++ out /\
          snd res = InterceptResendStats (intercepted + dn) (errors + de) /\
          Forall2 flipped_or_kept photon_states out /\
          de = changed photon_states out /\ de <= dn /\ dn <= present photon_states)
     no_raise.
Proof.
  induction photon_states as [|[b|] rest IH]; intros i result intercepted errors Hlen.
  - cbn. exists [], 0, 0. rewrite app_nil_r, !Nat.add_0_r.
    split_ands; try reflexivity; try constructor; lia.
  - cbn [length] in Hlen.
    destruct (lookup_lt_is_Some_2 bases i ltac:(lia)) as [basis Hb].
    assert (Hstep : forall o dn0 de0 n' e',
              (o = Some b /\ de0 = 0 \/ o = Some (1 - b)%Z /\ de0 = 1) ->
              de0 <= dn0 -> dn0 <= 1 ->
              n' = intercepted + dn0 -> e' = errors + de0 ->
              wp (intercept_resend_loop bases rate (S i) rest (result ++ [o]) n' e')
                 (fun res =>
                    exists out dn de,
                      fst res = result ++ out /\
                      snd res = InterceptResendStats (intercepted + dn) (errors + de) /\
                      Forall2 flipped_or_kept (Some b :: rest) out /\
                      de = changed (Some b :: rest) out /\ de <= dn /\
                      dn <= present (Some b :: rest))
                 no_raise).
    { intros o dn0 de0 n' e' Ho Hde Hdn -> ->.
      eapply wp_mono; [| |apply IH]; [|auto|lia].
      intros [res st] (out & dn & de & Hres & Hst & Hrel & Hch & Hle & Hpr).
      cbn [fst snd] in *.
      exists (o :: out), (dn0 + dn), (de0 + de). rewrite Hres, Hst, <- app_assoc.
      rewrite present_cons.
      split_ands; [reflexivity|f_equal; lia| | |lia|lia].
      - constructor; [|exact Hrel]. cbn. destruct Ho as [[-> _]|[-> _]]; auto.
      - destruct Ho as [[-> ->]|[-> ->]].
        + rewrite changed_same. lia.
        + rewrite changed_flip. lia. }
    cbn [intercept_resend_loop]. apply wp_random. intros r _ _. destruct (Qltb r rate).
    + apply basis_choice_wp. intros eve_basis. rewrite Hb.
      destruct (negb (String.eqb eve_basis basis)).
      * apply wp_random. intros r' _ _. destruct (Qltb r' 0.5%Q).
        -- apply (Hstep _ 1 1); auto.
        -- apply (Hstep _ 1 0); auto; lia.
      * apply (Hstep _ 1 0); auto; lia.
    + apply (Hstep _ 0 0); auto; lia.
  - cbn [length] in Hlen. cbn [intercept_resend_loop].
    eapply wp_mono; [| |apply IH]; [|auto|lia].
    intros [res st] (out & dn & de & Hres & Hst & Hrel & Hch & Hle & Hpr).
    cbn [fst snd] in *.
    exists (None :: out), dn, de. rewrite Hres, Hst, <- app_assoc.
    rewrite present_cons, changed_same.
    split_ands; [reflexivity|reflexivity|constructor; [reflexivity|exact Hrel]
                |exact Hch|lia|lia].
Qed.

Lemma pns_loop_frame (bases : list string) (rate : Q) :
  forall (photon_states : list (option Z)) (i : nat) (result : list (option Z))
         (intercepted errors : nat),
  i + length photon_states <= length bases ->
  wp (pns_loop bases rate i photon_states result intercepted errors)
     (fun res =>
        exists out dn de,
          fst res = result ++ out /\
          snd res = PNSStats (intercepted + dn) (errors + de) /\
          Forall2 flipped_or_kept photon_states out /\
          de = changed photon_states out /\ de <= dn /\ dn <= present photon_states)
     no_raise.
Proof.
  induction photon_states as [|[b|] rest IH]; intros i result intercepted errors Hlen.
  - cbn. exists [], 0, 0. rewrite app_nil_r, !Nat.add_0_r.
    split_ands; try reflexivity; try constructor; lia.
  - cbn [length] in Hlen.
    destruct (lookup_lt_is_Some_2 bases i ltac:(lia)) as [basis Hb].
    assert (Hstep : forall o dn0 de0 n' e',
              (o = Some b /\ de0 = 0 \/ o = Some (1 - b)%Z /\ de0 = 1) ->
              de0 <= dn0 -> dn0 <= 1 ->
              n' = intercepted + dn0 -> e' = errors + de0 ->
              wp (pns_loop bases rate (S i) rest (result ++ [o]) n' e')
                 (fun res =>
                    exists out dn de,
                      fst res = result ++ out /\
                      snd res = PNSStats (intercepted + dn) (errors + de) /\
                      Forall2 flipped_or_kept (Some b :: rest) out /\
                      de = changed (Some b :: rest) out /\ de <= dn /\
                      dn <= present (Some b :: rest))
                 no_raise).
    { intros o dn0 de0 n' e' Ho Hde Hdn -> ->.
      eapply wp_mono; [| |apply IH]; [|auto|lia].
      intros [res st] (out & dn & de & Hres & Hst & Hrel & Hch & Hle & Hpr).
      cbn [fst snd] in *.
      exists (o :: out), (dn0 + dn), (de0 + de). rewrite Hres, Hst, <- app_assoc.
      rewrite present_cons.
      split_ands; [reflexivity|f_equal; lia| | |lia|lia].
      - constructor; [|exact Hrel]. cbn. destruct Ho as [[-> _]|[-> _]]; auto.
      - destruct Ho as [[-> ->]|[-> ->]].
        + rewrite changed_same. lia.
        + rewrite changed_flip. lia. }
    cbn [pns_loop]. apply wp_random. intros r _ _. destruct (Qltb r rate).
    + apply basis_choice_wp. intros eve_basis. rewrite Hb.
      destruct (negb (String.eqb eve_basis basis)).
      * apply wp_random. intros r' _ _. destruct (Qltb r' 0.1%Q).
        -- apply (Hstep _ 1 1); auto.
        -- apply (Hstep _ 1 0); auto; lia.
      * apply (Hstep _ 1 0); auto; lia.
    + apply (Hstep _ 0 0); auto; lia.
  - cbn [length] in Hlen. cbn [pns_loop].
    eapply wp_mono; [| |apply IH]; [|auto|lia].
    intros [res st] (out & dn & de & Hres & Hst & Hrel & Hch & Hle & Hpr).
    cbn [fst snd] in *.
    exists (None :: out), dn, de. rewrite Hres, Hst, <- app_assoc.
    rewrite present_cons, changed_same.
    split_ands; [reflexivity|reflexivity|constructor; [reflexivity|exact Hrel]
                |exact Hch|lia|lia].
Qed.

Lemma detector_blinding_loop_frame (blind_rate : Q) :
  forall (photon_states result : list (option Z)) (blinded fake : nat),
  wp (detector_blinding_loop blind_rate photon_states result blinded fake)
     (fun res =>
        exists out k, fst res = result ++ out /\
                      snd res = DetectorBlindingStats (blinded + k) (fake + k) /\
                      Forall2 blinded_or_kept photon_states out /\
                      k <= present photon_states)
     no_raise.
Proof.
  induction photon_states as [|[b|] rest IH]; intros result blinded fake.
  - cbn. exists [], 0. rewrite app_nil_r, !Nat.add_0_r.
    split_ands; try reflexivity; try constructor; lia.
  - cbn [detector_blinding_loop]. apply wp_random. intros r _ _.
    destruct (Qltb r blind_rate).
    + unfold randint. apply wp_bind. apply wp_bind. apply wp_randbelow. intros j Hj.
      cbn [wp]. simpl in Hj.
      eapply wp_mono; [| |apply IH]; [|auto].
      intros [res st] (out & k & Hres & Hst & Hrel & Hk). cbn [fst snd] in *.
      exists (Some (0 + Z.of_nat j)%Z :: out), (S k). rewrite Hres, Hst, <- app_assoc.
      rewrite present_cons.
      split_ands; [reflexivity|f_equal; lia| |lia].
      constructor; [|exact Hrel]. cbn.
      destruct j as [|[|j]]; [auto|auto|lia].
    + eapply wp_mono; [| |apply IH]; [|auto].
      intros [res st] (out & k & Hres & Hst & Hrel & Hk). cbn [fst snd] in *.
      exists (Some b :: out), k. rewrite Hres, Hst, <- app_assoc. rewrite present_cons.
      split_ands; [reflexivity|reflexivity|constructor; [cbn; auto|exact Hrel]|lia].
  - cbn [detector_blinding_loop].
    eapply wp_mono; [| |apply IH]; [|auto].
    intros [res st] (out & k & Hres & Hst & Hrel & Hk). cbn [fst snd] in *.
    exists (None :: out), k. rewrite Hres, Hst, <- app_assoc. rewrite present_cons.
    split_ands; [reflexivity|reflexivity|constructor; [reflexivity|exact Hrel]|lia].
Qed.

(** X7.  Beam splitting never raises and introduces no bit error: every
    entry of the result is the entry of the input or a loss, lost photons stay
    lost, and [photons_tapped] is the number of photons the attack removed. *)
Theorem beam_splitting_only_removes (photon_states : list (option Z)) (tap_rate : Q) :
  wp (apply_beam_splitting_attack photon_states tap_rate)
     (fun res =>
        Forall2 kept_or_lost photon_states (fst res) /\
        exists tapped, snd res = BeamSplittingStats tapped /\
                       count_None (fst res) = count_None photon_states + tapped)
     no_raise.
Proof.
  unfold apply_beam_splitting_attack.
  eapply wp_mono; [| |apply beam_splitting_loop_frame]; [|auto].
  intros [res st] (out & k & Hres & Hst & Hrel & Hcount). cbn [fst snd app] in *.
  subst res. split; [exact Hrel|]. now exists k.
Qed.

(** X8.  The jammed link never raises: a lost photon stays lost, a present
    one is lost, kept, or kept with its bit flipped, and
    [photons_lost_to_jamming] is the number of photons the attack removed. *)
Theorem jammed_link_frame (photon_states : list (option Z)) :
  wp (apply_jammed_link_attack photon_states)
     (fun res =>
        Forall2 jammed_entry photon_states (fst res) /\
        exists lost, snd res = JammedLinkStats lost /\
                     count_None (fst res) = count_None photon_states + lost)
     no_raise.
Proof.
  unfold apply_jammed_link_attack.
  eapply wp_mono; [| |apply jammed_link_loop_frame]; [|auto].
  intros [res st] (out & k & Hres & Hst & Hrel & Hcount). cbn [fst snd app] in *.
  subst res. split; [exact Hrel|]. now exists k.
Qed.

(** X9.  With at least as many bases as photons, intercept-resend and
    photon-number splitting never raise and never lose a photon: a lost photon
    stays lost, a present one keeps its bit or has it flipped.  The error
    counter is exactly the number of positions whose entry changed, and it is
    at most the number of photons touched, which is at most the number of
    photons present. *)
Theorem resend_attacks_frame (photon_states : list (option Z)) (bases : list string)
    (rate : Q) :
  length photon_states <= length bases ->
  wp (apply_intercept_resend_attack photon_states bases rate)
     (fun res =>
        Forall2 flipped_or_kept photon_states (fst res) /\
        exists intercepted errors,
          snd res = InterceptResendStats intercepted errors /\
          errors = changed photon_states (fst res) /\
          errors <= intercepted /\ intercepted <= present photon_states)
     no_raise /\
  wp (apply_pns_attack photon_states bases rate)
     (fun res =>
        Forall2 flipped_or_kept photon_states (fst res) /\
        exists exploited errors,
          snd res = PNSStats exploited errors /\
          errors = changed photon_states (fst res) /\
          errors <= exploited /\ exploited <= present photon_states)
     no_raise.
Proof.
  intros Hlen. split.
  - unfold apply_intercept_resend_attack.
    eapply wp_mono; [| |apply intercept_resend_loop_frame]; [|auto|simpl; lia].
    intros [res st] (out & dn & de & Hres & Hst & Hrel & Hch & Hle & Hpr).
    cbn [fst snd app] in *. subst res. split; [exact Hrel|]. now exists dn, de.
  - unfold apply_pns_attack.
    eapply wp_mono; [| |apply pns_loop_frame]; [|auto|simpl; lia].
    intros [res st] (out & dn & de & Hres & Hst & Hrel & Hch & Hle & Hpr).
    cbn [fst snd app] in *. subst res. split; [exact Hrel|]. now exists dn, de.
Qed.

Lemma resend_attacks_frame_witness :
  wp (apply_intercept_resend_attack [Some 1%Z; None; Some 0%Z] ["+"; "x"; "+"] 0.5%Q)
     (fun res =>
        Forall2 flipped_or_kept [Some 1%Z; None; Some 0%Z] (fst res) /\
        exists intercepted errors,
          snd res = InterceptResendStats intercepted errors /\
          errors = changed [Some 1%Z; None; Some 0%Z] (fst res) /\
          errors <= intercepted /\ intercepted <= present [Some 1%Z; None; Some 0%Z])
     no_raise.
Proof.
  refine (proj1 (resend_attacks_frame [Some 1%Z; None; Some 0%Z] ["+"; "x"; "+"] 0.5%Q _)).
  simpl. lia.
Defined.

(** X10.  Detector blinding never raises and never loses a photon: a present
    photon keeps its bit or gets a fake bit 0 or 1.  The two counters of its
    statistics are always equal and at most the number of photons present. *)
Theorem detector_blinding_frame (photon_states : list (option Z)) (bases : list string)
    (blind_rate : Q) :
  wp (apply_detector_blinding_attack photon_states bases blind_rate)
     (fun res =>
        Forall2 blinded_or_kept photon_states (fst res) /\
        exists blinded, snd res = DetectorBlindingStats blinded blinded /\
                        blinded <= present photon_states)
     no_raise.
Proof.
  unfold apply_detector_blinding_attack.
  eapply wp_mono; [| |apply detector_blinding_loop_frame]; [|auto].
  intros [res st] (out & k & Hres & Hst & Hrel & Hk). cbn [fst snd app] in *.
  subst res. split; [exact Hrel|]. now exists k.
Qed.

(** X11.  Whatever the attack tag, known or not, and whatever the intensity:
    with at least as many bases as photons [apply_eve_attack] never raises, and
    it returns a stream of the same length in which every lost photon is still
    lost and every present photon is lost, kept, flipped or replaced by a
    bit. *)
Theorem apply_eve_attack_frame (photon_states : list (option Z)) (bases : list string)
    (attack_type : string) (intensity : Q) :
  length photon_states <= length bases ->
  wp (apply_eve_attack photon_states bases attack_type intensity)
     (fun res => Forall2 attack_entry photon_states (fst res)) no_raise.
Proof.
  intros Hlen. unfold apply_eve_attack.
  assert (Hir : wp (apply_intercept_resend_attack photon_states bases intensity)
                   (fun res => Forall2 attack_entry photon_states (fst res)) no_raise).
  { unfold apply_intercept_resend_attack.
    eapply wp_mono; [| |apply intercept_resend_loop_frame]; [|auto|simpl; lia].
    intros [res st] (out & dn & de & Hres & _ & Hrel & _). cbn [fst snd app] in *.
    subst res. eapply Forall2_impl; [exact Hrel|].
    intros [b|] o; cbn; [intros [->| ->]; auto|auto]. }
  destruct (String.eqb attack_type INTERCEPT_RESEND); [exact Hir|].
  destruct (String.eqb attack_type BEAM_SPLITTING).
  { unfold apply_beam_splitting_attack.
    eapply wp_mono; [| |apply beam_splitting_loop_frame]; [|auto].
    intros [res st] (out & k & Hres & _ & Hrel & _). cbn [fst snd app] in *.
    subst res. eapply Forall2_impl; [exact Hrel|].
    intros [b|] o [-> | ->]; cbn; auto. }
  destruct (String.eqb attack_type PHOTON_NUMBER_SPLITTING).
  { unfold apply_pns_attack.
    eapply wp_mono; [| |apply pns_loop_frame]; [|auto|simpl; lia].
    intros [res st] (out & dn & de & Hres & _ & Hrel & _). cbn [fst snd app] in *.
    subst res. eapply Forall2_impl; [exact Hrel|].
    intros [b|] o; cbn; [intros [->| ->]; auto|auto]. }
  destruct (String.eqb attack_type DETECTOR_BLINDING).
  { unfold apply_detector_blinding_attack.
    eapply wp_mono; [| |apply detector_blinding_loop_frame]; [|auto].
    intros [res st] (out & k & Hres & _ & Hrel & _). cbn [fst snd app] in *.
    subst res. eapply Forall2_impl; [exact Hrel|].
    intros [b|] o; cbn; [intros [->| [-> | ->]]; auto|auto]. }
  destruct (String.eqb attack_type JAMMED_LINK); [|exact Hir].
  unfold apply_jammed_link_attack.
  eapply wp_mono; [| |apply jammed_link_loop_frame]; [|auto].
  intros [res st] (out & k & Hres & _ & Hrel & _). cbn [fst snd app] in *.
  subst res. eapply Forall2_impl; [exact Hrel|].
  intros [b|] o; cbn; [intros [->| [-> | ->]]; auto|auto].
Qed.

Lemma apply_eve_attack_frame_witness :
  wp (apply_eve_attack [Some 1%Z; None; Some 0%Z] ["+"; "x"; "+"] "jammed_link" 0.5%Q)
     (fun res => Forall2 attack_entry [Some 1%Z; None; Some 0%Z] (fst res)) no_raise.
Proof.
  apply (apply_eve_attack_frame [Some 1%Z; None; Some 0%Z] ["+"; "x"; "+"]). simpl. lia.
Defined.

Lemma intercept_resend_loop_no_bases (rate : Q) :
  forall (photon_states : list (option Z)) (i : nat) (result : list (option Z))
         (intercepted errors : nat),
  (1 <= rate)%Q -> (exists b, Some b ∈ photon_states) ->
  wp (intercept_resend_loop [] rate i photon_states result intercepted errors)
     (fun _ => False) (fun e => e = IndexError).
Proof.
  induction photon_states as [|[b|] rest IH]; intros i result intercepted errors Hrate [b0 Hin].
  - now apply elem_of_nil in Hin.
  - cbn [intercept_resend_loop]. apply wp_random. intros r Hr0 Hr1.
    rewrite Qltb_true by lra. apply basis_choice_wp. intros eve_basis. reflexivity.
  - cbn [intercept_resend_loop]. apply IH; [exact Hrate|].
    exists b0. apply elem_of_cons in Hin as [Hin|Hin]; [discriminate|exact Hin].
Qed.

(** X12.  Intercept-resend looks up the sender basis of every photon it
    intercepts.  With an empty basis list and a rate of at least 1, a stream
    with a photon present raises [IndexError] in every outcome. *)
Theorem intercept_resend_without_bases (photon_states : list (option Z)) (rate : Q) :
  (1 <= rate)%Q -> (exists b, Some b ∈ photon_states) ->
  wp (apply_intercept_resend_attack photon_states [] rate)
     (fun _ => False) (fun e => e = IndexError).
Proof.
  intros Hrate Hin. unfold apply_intercept_resend_attack.
  now apply intercept_resend_loop_no_bases.
Qed.

Lemma intercept_resend_without_bases_witness :
  wp (apply_intercept_resend_attack [None; Some 1%Z] [] 1%Q)
     (fun _ => False) (fun e => e = IndexError).
Proof.
  apply (intercept_resend_without_bases [None; Some 1%Z] 1%Q).
  - discriminate.
  - exists 1%Z. apply elem_of_cons. right. now left.
Defined.

Lemma intercept_resend_loop_rate_zero (bases : list string) (rate : Q) :
  forall (photon_states : list (option Z)) (i : nat) (result : list (option Z))
         (intercepted errors : nat),
  (rate <= 0)%Q ->
  wp (intercept_resend_loop bases rate i photon_states result intercepted errors)
     (fun res => res = (result ++ photon_states, InterceptResendStats intercepted errors))
     no_raise.
Proof.
  induction photon_states as [|[b|] rest IH]; intros i result intercepted errors Hrate.
  - cbn. now rewrite app_nil_r.
  - cbn [intercept_resend_loop]. apply wp_random. intros r Hr0 Hr1.
    rewrite Qltb_false by lra.
    eapply wp_mono; [| |apply IH]; [|auto|exact Hrate].
    intros res ->. now rewrite <- app_assoc.
  - cbn [intercept_resend_loop].
    eapply wp_mono; [| |apply IH]; [|auto|exact Hrate].
    intros res ->. now rewrite <- app_assoc.
Qed.

Lemma beam_splitting_loop_rate_zero (rate : Q) :
  forall (photon_states result : list (option Z)) (tapped : nat),
  (rate <= 0)%Q ->
  wp (beam_splitting_loop rate photon_states result tapped)
     (fun res => res = (result ++ photon_states, BeamSplittingStats tapped)) no_raise.
Proof.
  induction photon_states as [|[b|] rest IH]; intros result tapped Hrate.
  - cbn. now rewrite app_nil_r.
  - cbn [beam_splitting_loop]. apply wp_random. intros r Hr0 Hr1.
    rewrite Qltb_false by lra.
    eapply wp_mono; [| |apply IH]; [|auto|exact Hrate].
    intros res ->. now rewrite <- app_assoc.
  - cbn [beam_splitting_loop].
    eapply wp_mono; [| |apply IH]; [|auto|exact Hrate].
    intros res ->. now rewrite <- app_assoc.
Qed.

Lemma detector_blinding_loop_rate_zero (rate : Q) :
  forall (photon_states result : list (option Z)) (blinded fake : nat),
  (rate <= 0)%Q ->
  wp (detector_blinding_loop rate photon_states result blinded fake)
     (fun res => res = (result ++ photon_states, DetectorBlindingStats blinded fake))
     no_raise.
Proof.
  induction photon_states as [|[b|] rest IH]; intros result blinded fake Hrate.
  - cbn. now rewrite app_nil_r.
  - cbn [detector_blinding_loop]. apply wp_random. intros r Hr0 Hr1.
    rewrite Qltb_false by lra.
    eapply wp_mono; [| |apply IH]; [|auto|exact Hrate].
    intros res ->. now rewrite <- app_assoc.
  - cbn [detector_blinding_loop].
    eapply wp_mono; [| |apply IH]; [|auto|exact Hrate].
    intros res ->. now rewrite <- app_assoc.
Qed.

(** X13.  At intensity 0 every strategy whose rate scales with the intensity
    (intercept-resend, beam splitting, detector blinding, and any unknown tag)
    returns the stream unchanged with all counters at zero, whatever the basis
    list; photon-number splitting and the jammed link ignore the intensity. *)
Theorem apply_eve_attack_zero_intensity (photon_states : list (option Z))
    (bases : list string) (attack_type : string) (intensity : Q) :
  (intensity <= 0)%Q ->
  attack_type <> "photon_number_splitting" -> attack_type <> "jammed_link" ->
  wp (apply_eve_attack photon_states bases attack_type intensity)
     (fun res =>
        fst res = photon_states /\
        (snd res = InterceptResendStats 0 0 \/ snd res = BeamSplittingStats 0 \/
         snd res = DetectorBlindingStats 0 0))
     no_raise.
Proof.
  intros Hi Hpns Hjam. unfold apply_eve_attack.
  apply String.eqb_neq in Hpns, Hjam.
  assert (Hir : wp (apply_intercept_resend_attack photon_states bases intensity)
                   (fun res =>
                      fst res = photon_states /\
                      (snd res = InterceptResendStats 0 0 \/ snd res = BeamSplittingStats 0 \/
                       snd res = DetectorBlindingStats 0 0))
                   no_raise).
  { eapply wp_mono; [| |apply intercept_resend_loop_rate_zero]; [|auto|exact Hi].
    intros res ->. cbn. auto. }
  destruct (String.eqb attack_type INTERCEPT_RESEND); [exact Hir|].
  destruct (String.eqb attack_type BEAM_SPLITTING).
  { eapply wp_mono; [| |apply beam_splitting_loop_rate_zero]; [|auto|lra].
    intros res ->. cbn. auto. }
  unfold PHOTON_NUMBER_SPLITTING, JAMMED_LINK. rewrite Hpns.
  destruct (String.eqb attack_type DETECTOR_BLINDING).
  { eapply wp_mono; [| |apply detector_blinding_loop_rate_zero]; [|auto|lra].
    intros res ->. cbn. auto. }
  rewrite Hjam. exact Hir.
Qed.

Lemma apply_eve_attack_zero_intensity_witness :
  wp (apply_eve_attack [Some 1%Z; None; Some 0%Z] [] "beam_splitting" 0%Q)
     (fun res =>
        fst res = [Some 1%Z; None; Some 0%Z] /\
        (snd res = InterceptResendStats 0 0 \/ snd res = BeamSplittingStats 0 \/
         snd res = DetectorBlindingStats 0 0))
     no_raise.
Proof.
  apply (apply_eve_attack_zero_intensity [Some 1%Z; None; Some 0%Z] [] "beam_splitting" 0%Q);
    discriminate.
Defined.

(** ** Eve's bookkeeping (eve.py) *)

Lemma intercepted_indices_length (eve_bases : list (option BasisType)) : forall i : nat,
  length (intercepted_indices i eve_bases) = length eve_bases - count_None eve_bases.
Proof.
  induction eve_bases as [|[b|] rest IH]; intros i; [reflexivity| |].
  - cbn [intercepted_indices length]. rewrite IH, count_None_cons.
    assert (count_None rest <= length rest)
      by (unfold count_None; apply length_filter).
    lia.
  - cbn [intercepted_indices length]. rewrite IH, count_None_cons. lia.
Qed.

Lemma intercept_loop_bookkeeping (alice_bases : list BasisType) :
  forall (photons : list loc) (self : EveAttack) (modified : list loc)
         (eve_bases : list (option BasisType)) (h : heap),
  length eve_bases + length photons <= length alice_bases ->
  wp (intercept_loop alice_bases (length eve_bases) photons self modified eve_bases h)
     (fun res =>
        let '(self', _, e, _) := res in
        exists (enew : list (option BasisType)) (msnew : list Measurement),
          e = eve_bases ++ enew /\ length enew = length photons /\
          interception_rate self' = interception_rate self /\
          measurements self' = measurements self ++ msnew /\
          intercepted_count self' = intercepted_count self + length msnew /\
          map m_index msnew = intercepted_indices (length eve_bases) enew /\
          Forall (eve_record alice_bases e) msnew)
     no_raise.
Proof.
  induction photons as [|p photons IH]; intros self modified eve_bases h Hlen.
  - cbn. exists [], []. rewrite !app_nil_r, Nat.add_0_r.
    split_ands; try reflexivity. constructor.
  - cbn [length] in Hlen.
    destruct (lookup_lt_is_Some_2 alice_bases (length eve_bases) ltac:(lia)) as [ab Hab].
    cbn [intercept_loop]. apply wp_random. intros r _ _.
    destruct (Qltb r (interception_rate self)).
    + eapply wp_bind_with; [apply random_basis_wp|]. intros eb _.
      rewrite Hab.
      eapply wp_bind_with; [apply measure_photon_wp|]. intros [mb bm] Hmeas.
      cbn [alloc].
      replace (S (length eve_bases)) with (length (eve_bases ++ [Some eb]))
        by (rewrite length_app; simpl; lia).
      eapply wp_mono; [| |apply IH]; [|auto|rewrite length_app; simpl; lia].
      intros [[[self' m] e] h'] (enew & msnew & He & Hl & Hr & Hm & Hc & Hi & Hrec).
      cbn [interception_rate measurements intercepted_count] in *.
      eexists (Some eb :: enew), (_ :: msnew).
      rewrite <- app_assoc in He, Hm. cbn [app] in He, Hm.
      split_ands; [exact He|simpl; lia|exact Hr|exact Hm|simpl; lia| |].
      * cbn [map m_index intercepted_indices]. f_equal.
        rewrite Hi, length_app. cbn [length]. f_equal. lia.
      * constructor; [|exact Hrec].
        exists ab, eb. cbn [m_index m_eve_basis m_original_bit m_measured_bit m_bases_matched].
        split_ands; [exact Hab| |reflexivity|exact Hmeas].
        rewrite He. rewrite lookup_app_r by lia. now rewrite Nat.sub_diag.
    + replace (S (length eve_bases)) with (length (eve_bases ++ [None]))
        by (rewrite length_app; simpl; lia).
      eapply wp_mono; [| |apply IH]; [|auto|rewrite length_app; simpl; lia].
      intros [[[self' m] e] h'] (enew & msnew & He & Hl & Hr & Hm & Hc & Hi & Hrec).
      exists (None :: enew), msnew.
      rewrite <- app_assoc in He. cbn [app] in He.
      split_ands; [exact He|simpl; lia|exact Hr|exact Hm|exact Hc| |exact Hrec].
      cbn [intercepted_indices]. rewrite Hi, length_app. cbn [length]. f_equal. lia.
Qed.

(** X14.  With at least as many sender bases as photons,
    [intercept_and_resend] never raises and leaves Eve's records consistent,
    whatever she had recorded before the call: her basis list has one entry
    per photon, the records are those of the positions where she used a basis,
    in order, [intercepted_count] is their number, and each record names the
    basis she used at its position, says whether it is the sender's basis
    there, and holds a bit such a measurement can give. *)
Theorem intercept_and_resend_records (self : EveAttack) (photons : list loc)
    (alice_bases : list BasisType) (h : heap) :
  length photons <= length alice_bases ->
  wp (intercept_and_resend self photons alice_bases h)
     (fun res =>
        let '(self', _, eve_bases, _) := res in
        interception_rate self' = interception_rate self /\
        length eve_bases = length photons /\
        map m_index (measurements self') = intercepted_indices 0 eve_bases /\
        intercepted_count self' = length (measurements self') /\
        intercepted_count self' = length eve_bases - count_None eve_bases /\
        Forall (eve_record alice_bases eve_bases) (measurements self'))
     no_raise.
Proof.
  intros Hlen. unfold intercept_and_resend.
  eapply wp_mono;
    [| |apply (intercept_loop_bookkeeping alice_bases photons
                 (mkEveAttack (interception_rate self) 0 []) [] [] h)];
    [|auto|simpl; lia].
  intros [[[self' m] e] h'] (enew & msnew & He & Hl & Hr & Hm & Hc & Hi & Hrec).
  cbn [interception_rate measurements intercepted_count app length] in *.
  subst e. rewrite Hm.
  split_ands; try assumption.
  rewrite <- (intercepted_indices_length enew 0), <- Hi, length_map. exact Hc.
Qed.

Lemma intercept_and_resend_records_witness :
  wp (intercept_and_resend (EveAttack_init 0.5%Q) [0; 1] [RECTILINEAR; DIAGONAL]
        [create 0 RECTILINEAR; create 1 DIAGONAL])
     (fun res =>
        let '(self', _, eve_bases, _) := res in
        interception_rate self' = 0.5%Q /\
        length eve_bases = 2 /\
        map m_index (measurements self') = intercepted_indices 0 eve_bases /\
        intercepted_count self' = length (measurements self') /\
        intercepted_count self' = length eve_bases - count_None eve_bases /\
        Forall (eve_record [RECTILINEAR; DIAGONAL] eve_bases) (measurements self'))
     no_raise.
Proof.
  apply (intercept_and_resend_records (EveAttack_init 0.5%Q) [0; 1] [RECTILINEAR; DIAGONAL]).
  simpl. lia.
Defined.

(** X15.  The statistics Eve reports after an attack: the number of
    intercepted photons is the number of positions where she used a basis, at
    most the number of photons; basis matches and measurement errors are each
    at most that number; she is reported active exactly when her rate is
    positive; and at most ten records are included, the first ones. *)
Theorem attack_stats_after_intercept (self : EveAttack) (photons : list loc)
    (alice_bases : list BasisType) (h : heap) :
  length photons <= length alice_bases ->
  wp (intercept_and_resend self photons alice_bases h)
     (fun res =>
        let '(self', _, eve_bases, _) := res in
        let stats := get_attack_stats self' in
        es_photons_intercepted stats = length eve_bases - count_None eve_bases /\
        es_photons_intercepted stats <= length photons /\
        es_basis_matches stats <= es_photons_intercepted stats /\
        es_measurement_errors stats <= es_photons_intercepted stats /\
        (es_active stats = true <-> (0 < interception_rate self)%Q) /\
        es_measurements stats = take 10 (measurements self') /\
        length (es_measurements stats) = Nat.min 10 (es_photons_intercepted stats))
     no_raise.
Proof.
  intros Hlen. unfold intercept_and_resend.
  eapply wp_mono;
    [| |apply (intercept_loop_bookkeeping alice_bases photons
                 (mkEveAttack (interception_rate self) 0 []) [] [] h)];
    [|auto|simpl; lia].
  intros [[[self' m] e] h'] (enew & msnew & He & Hl & Hr & Hm & Hc & Hi & Hrec).
  cbn [interception_rate measurements intercepted_count app length] in *.
  subst e. cbn zeta. unfold get_attack_stats.
  cbn [es_photons_intercepted es_basis_matches es_measurement_errors es_active
       es_measurements].
  assert (Hcount : length msnew = length enew - count_None enew).
  { rewrite <- (intercepted_indices_length enew 0), <- Hi, length_map. reflexivity. }
  rewrite Hm, Hc, Hr. cbn [Nat.add].
  split_ands; [exact Hcount|lia|apply length_filter|apply length_filter
              |apply Qltb_lt|reflexivity|apply length_take].
Qed.

Lemma attack_stats_after_intercept_witness :
  wp (intercept_and_resend (EveAttack_init 0.5%Q) [0; 1] [RECTILINEAR; DIAGONAL]
        [create 0 RECTILINEAR; create 1 DIAGONAL])
     (fun res =>
        let '(self', _, eve_bases, _) := res in
        let stats := get_attack_stats self' in
        es_photons_intercepted stats = length eve_bases - count_None eve_bases /\
        es_photons_intercepted stats <= 2 /\
        es_basis_matches stats <= es_photons_intercepted stats /\
        es_measurement_errors stats <= es_photons_intercepted stats /\
        (es_active stats = true <-> (0 < 0.5)%Q) /\
        es_measurements stats = take 10 (measurements self') /\
        length (es_measurements stats) = Nat.min 10 (es_photons_intercepted stats))
     no_raise.
Proof.
  apply (attack_stats_after_intercept (EveAttack_init 0.5%Q) [0; 1]
           [RECTILINEAR; DIAGONAL]).
  simpl. lia.
Defined.

Lemma intercept_loop_passes (alice_bases : list BasisType) :
  forall (photons : list loc) (i : nat) (self : EveAttack) (modified : list loc)
         (eve_bases : list (option BasisType)) (h : heap),
  (interception_rate self <= 0)%Q ->
  wp (intercept_loop alice_bases i photons self modified eve_bases h)
     (fun res => res = (self, modified ++ photons,
                        eve_bases ++ replicate (length photons) None, h))
     no_raise.
Proof.
  induction photons as [|p photons IH]; intros i self modified eve_bases h Hrate.
  - cbn. now rewrite !app_nil_r.
  - cbn [intercept_loop]. apply wp_random. intros r Hr0 Hr1.
    rewrite Qltb_false by lra.
    eapply wp_mono; [| |apply IH]; [|auto|exact Hrate].
    intros res ->. cbn [length replicate]. now rewrite <- !app_assoc.
Qed.

Lemma intercept_loop_takes_all (alice_bases : list BasisType) :
  forall (photons : list loc) (i : nat) (self : EveAttack) (modified : list loc)
         (eve_bases : list (option BasisType)) (h : heap),
  (1 <= interception_rate self)%Q ->
  i + length photons <= length alice_bases ->
  wp (intercept_loop alice_bases i photons self modified eve_bases h)
     (fun res =>
        let '(self', m, e, h') := res in
        intercepted_count self' = intercepted_count self + length photons /\
        count_None e = count_None eve_bases /\
        length h' = length h + length photons /\
        exists mnew, m = modified ++ mnew /\ length mnew = length photons /\
                     Forall (fun l => length h <= l < length h') mnew)
     no_raise.
Proof.
  induction photons as [|p photons IH]; intros i self modified eve_bases h Hrate Hlen.
  - cbn [intercept_loop wp length]. rewrite !Nat.add_0_r.
    split_ands; try reflexivity. exists []. rewrite app_nil_r. split_ands; auto.
  - cbn [length] in Hlen.
    destruct (lookup_lt_is_Some_2 alice_bases i ltac:(lia)) as [ab Hab].
    cbn [intercept_loop]. apply wp_random. intros r Hr0 Hr1.
    rewrite Qltb_true by lra.
    eapply wp_bind_with; [apply random_basis_wp|]. intros eb _.
    rewrite Hab.
    eapply wp_bind_with; [apply measure_photon_wp|]. intros [mb bm] _.
    cbn [alloc].
    eapply wp_mono; [| |apply IH]; [|auto|exact Hrate|lia].
    intros [[[self' m] e] h'] (Hc & Hn & Hh & mnew & Hm & Hl & Hfresh).
    cbn [interception_rate measurements intercepted_count] in *.
    rewrite set_is_intercepted_length, length_app, set_is_intercepted_length in Hh.
    cbn [length] in Hh.
    rewrite set_is_intercepted_length, length_app, set_is_intercepted_length in Hfresh.
    cbn [length] in Hfresh.
    rewrite count_None_app, count_None_cons in Hn.
    split_ands; [cbn [length]; lia|rewrite Hn; unfold count_None; simpl; lia
                |cbn [length]; lia|].
    exists (length (set_is_intercepted p true h) :: mnew).
    rewrite Hm, <- app_assoc. cbn [app length].
    split_ands; [reflexivity|lia|].
    constructor; [rewrite set_is_intercepted_length; lia|].
    eapply Forall_impl; [exact Hfresh|]. intros l Hl'. cbn beta in Hl'. lia.
Qed.

(** X16.  The two extremes of Eve's rate.  At a rate of 0 or below,
    [intercept_and_resend] returns the photon list and the store unchanged,
    an all-[None] basis list and empty records, whatever the sender bases.  At
    a rate of 1 or above, given enough sender bases, every photon is
    intercepted: no basis entry is [None], the counter is the number of
    photons, and every returned photon is an object allocated during the
    call. *)
Theorem intercept_and_resend_extremes (self : EveAttack) (photons : list loc)
    (alice_bases : list BasisType) (h : heap) :
  ((interception_rate self <= 0)%Q ->
   wp (intercept_and_resend self photons alice_bases h)
      (fun res =>
         res = (mkEveAttack (interception_rate self) 0 [], photons,
                replicate (length photons) None, h))
      no_raise) /\
  ((1 <= interception_rate self)%Q -> length photons <= length alice_bases ->
   wp (intercept_and_resend self photons alice_bases h)
      (fun res =>
         let '(self', modified, eve_bases, h') := res in
         intercepted_count self' = length photons /\
         count_None eve_bases = 0 /\
         length modified = length photons /\
         Forall (fun l => length h <= l < length h') modified)
      no_raise).
Proof.
  split.
  - intros Hrate. unfold intercept_and_resend.
    eapply wp_mono; [| |apply intercept_loop_passes]; [|auto|exact Hrate].
    intros res ->. reflexivity.
  - intros Hrate Hlen. unfold intercept_and_resend.
    eapply wp_mono; [| |apply intercept_loop_takes_all]; [|auto|exact Hrate|simpl; lia].
    intros [[[self' m] e] h'] (Hc & Hn & Hh & mnew & Hm & Hl & Hfresh).
    cbn [intercepted_count app] in *. subst m.
    split_ands; [exact Hc|exact Hn|exact Hl|exact Hfresh].
Qed.

Lemma intercept_and_resend_extremes_witness :
  wp (intercept_and_resend (EveAttack_init 0%Q) [0; 1] []
        [create 0 RECTILINEAR; create 1 DIAGONAL])
     (fun res =>
        res = (mkEveAttack 0%Q 0 [], [0; 1], [None; None],
               [create 0 RECTILINEAR; create 1 DIAGONAL]))
     no_raise /\
  wp (intercept_and_resend (EveAttack_init 1%Q) [0; 1] [RECTILINEAR; DIAGONAL]
        [create 0 RECTILINEAR; create 1 DIAGONAL])
     (fun res =>
        let '(self', modified, eve_bases, h') := res in
        intercepted_count self' = 2 /\
        count_None eve_bases = 0 /\
        length modified = 2 /\
        Forall (fun l => 2 <= l < length h') modified)
     no_raise.
Proof.
  split.
  - apply (proj1 (intercept_and_resend_extremes (EveAttack_init 0%Q) [0; 1] []
                    [create 0 RECTILINEAR; create 1 DIAGONAL])).
    discriminate.
  - apply (proj2 (intercept_and_resend_extremes (EveAttack_init 1%Q) [0; 1]
                    [RECTILINEAR; DIAGONAL] [create 0 RECTILINEAR; create 1 DIAGONAL])).
    + discriminate.
    + simpl. lia.
Defined.

(** ** Further properties of qber.py *)

Lemma amplified_length_antitone (len : nat) (q1 q2 : Q) :
  (q1 <= q2)%Q -> amplified_length len q2 <= amplified_length len q1.
Proof.
  intros Hq. unfold amplified_length, shrink_factor.
  qber_bands q1; qber_bands q2; try lra;
    repeat (destruct (Qlt_le_dec 0 _) as [?|?]; try lra);
    rewrite ?Qfloor_scaled; try lia;
    apply Nat.max_le_compat_l, Z2Nat.inj_le;
      try (apply Z.div_pos; lia);
      apply Z.div_le_mono; lia.
Qed.

(** X17.  Privacy amplification is monotone in the QBER: the key kept at a
    higher QBER is a prefix of the key kept at a lower one, and both are
    prefixes of the raw key, so no bit is ever changed or reordered. *)
Theorem privacy_amplification_monotone (raw_key : list Z) (q1 q2 : Q) :
  (q1 <= q2)%Q ->
  apply_privacy_amplification raw_key q2 `prefix_of` apply_privacy_amplification raw_key q1 /\
  apply_privacy_amplification raw_key q1 `prefix_of` raw_key.
Proof.
  intros Hq. rewrite !privacy_amplification_take.
  pose proof (amplified_length_antitone (length raw_key) q1 q2 Hq) as Hle.
  split.
  - exists (drop (amplified_length (length raw_key) q2)
                 (take (amplified_length (length raw_key) q1) raw_key)).
    rewrite <- (take_drop (amplified_length (length raw_key) q2)
                  (take (amplified_length (length raw_key) q1) raw_key)) at 1.
    f_equal. rewrite take_take. f_equal. lia.
  - apply prefix_take.
Qed.

Lemma privacy_amplification_monotone_witness :
  apply_privacy_amplification [1; 0; 1; 1; 0; 1; 0; 0; 1; 1]%Z 12%Q
    `prefix_of` apply_privacy_amplification [1; 0; 1; 1; 0; 1; 0; 0; 1; 1]%Z 3%Q /\
  apply_privacy_amplification [1; 0; 1; 1; 0; 1; 0; 0; 1; 1]%Z 3%Q
    `prefix_of` [1; 0; 1; 1; 0; 1; 0; 0; 1; 1]%Z.
Proof.
  apply (privacy_amplification_monotone [1; 0; 1; 1; 0; 1; 0; 0; 1; 1]%Z 3%Q 12%Q).
  discriminate.
Defined.

Lemma error_count_Permutation (alice_bits : list Z) (bob_bits : list (option Z))
    (xs ys : list nat) :
  xs ≡ₚ ys -> error_count alice_bits bob_bits xs = error_count alice_bits bob_bits ys.
Proof. intros H. unfold error_count. now rewrite H. Qed.

Lemma error_count_le (alice_bits : list Z) (bob_bits : list (option Z)) (xs : list nat) :
  error_count alice_bits bob_bits xs <= length xs.
Proof. unfold error_count. apply length_filter. Qed.

Lemma calculate_qber_wp (alice_bits : list Z) (bob_bits : list (option Z))
    (matching_indices : list nat) (test_sample_size : option nat) :
  Forall (in_range alice_bits bob_bits) matching_indices ->
  matching_indices <> [] ->
  let size :=
    Nat.min (match test_sample_size with
             | None => Nat.max 10 (length matching_indices / 2)
             | Some k => k
             end) (length matching_indices) in
  wp (calculate_qber alice_bits bob_bits matching_indices test_sample_size)
     (fun '(q, tested, errors, total) =>
        total = size /\ length tested = size /\ tested ⊆+ matching_indices /\
        errors = error_count alice_bits bob_bits tested /\
        (0 < size -> (q == qber_of errors size)%Q) /\
        (size = 0 -> (q == 0)%Q))
     no_raise.
Proof.
  intros Hrange Hne size.
  assert (Hsle : size <= length matching_indices) by (subst size; lia).
  assert (Hcalc : calculate_qber alice_bits bob_bits matching_indices test_sample_size
    = (tested_indices ← sample matching_indices size;
       errors ← count_errors alice_bits bob_bits tested_indices 0;
       Ret (if (errors =? 0)%nat && (0 <? size)%nat then
              let qber := (100.0 / Qnat size)%Q in
              if Qltb qber 0.5%Q then 0.5%Q else qber
            else if (0 <? size)%nat then (Qnat errors / Qnat size * 100.0)%Q else 0.0%Q,
            tested_indices, errors, size))).
  { destruct matching_indices; [congruence|reflexivity]. }
  rewrite Hcalc. clear Hcalc.
  eapply wp_bind_with; [apply (sample_wp matching_indices size Hsle)|].
  intros tested [Hl Hsub]. cbn beta.
  rewrite count_errors_ret by (eapply in_range_submseteq; eassumption).
  cbn. split_ands; try assumption; try reflexivity.
  - intros Hpos. apply qber_value. exact Hpos.
  - intros H0. rewrite H0. destruct (Nat.eqb _ 0); reflexivity.
Qed.



(** X19.  When the sample covers the whole list (an explicit size of at least
    the number of matching indices, or the default size on at most ten
    indices), nothing is left to chance but the order: the tested indices are
    a permutation of the matching indices, the error count is the number of
    matching positions where the bits differ, and the QBER is determined. *)
Theorem calculate_qber_exhaustive (alice_bits : list Z) (bob_bits : list (option Z))
    (matching_indices : list nat) (test_sample_size : option nat) :
  Forall (in_range alice_bits bob_bits) matching_indices ->
  matching_indices <> [] ->
  match test_sample_size with
  | None => length matching_indices <= 10
  | Some k => length matching_indices <= k
  end ->
  wp (calculate_qber alice_bits bob_bits matching_indices test_sample_size)
     (fun '(q, tested, errors, total) =>
        tested ≡ₚ matching_indices /\
        total = length matching_indices /\
        errors = error_count alice_bits bob_bits matching_indices /\
        (q == qber_of errors (length matching_indices))%Q)
     no_raise.
Proof.
  intros Hrange Hne Hall.
  assert (Hpos : 0 < length matching_indices).
  { destruct matching_indices; [congruence|simpl; lia]. }
  eapply wp_mono;
    [| |apply (calculate_qber_wp _ _ _ test_sample_size Hrange Hne)]; [|auto].
  intros [[[q tested] errors] total] (Ht & Hl & Hsub & He & Hq & _).
  assert (Hsize : Nat.min (match test_sample_size with
                           | None => Nat.max 10 (length matching_indices / 2)
                           | Some k => k
                           end) (length matching_indices) = length matching_indices).
  { destruct test_sample_size; lia. }
  rewrite Hsize in Ht, Hl, Hq.
  assert (Hperm : tested ≡ₚ matching_indices).
  { apply submseteq_length_Permutation; [exact Hsub|lia]. }
  split_ands; [exact Hperm|exact Ht| |exact (Hq Hpos)].
  rewrite He. now apply error_count_Permutation.
Qed.

Lemma calculate_qber_exhaustive_witness :
  wp (calculate_qber [0; 1; 1; 0]%Z [Some 0; Some 0; Some 1; Some 0]%Z [0; 1; 2; 3] None)
     (fun '(q, tested, errors, total) =>
        tested ≡ₚ [0; 1; 2; 3] /\
        total = 4 /\
        errors = error_count [0; 1; 1; 0]%Z [Some 0; Some 0; Some 1; Some 0]%Z [0; 1; 2; 3] /\
        (q == qber_of errors 4)%Q)
     no_raise.
Proof.
  apply (calculate_qber_exhaustive [0; 1; 1; 0]%Z [Some 0; Some 0; Some 1; Some 0]%Z
           [0; 1; 2; 3] None).
  - repeat constructor; simpl; lia.
  - discriminate.
  - simpl. lia.
Defined.

(** ** Sifting (bb84.py) *)

Lemma reconcile_loop_filter (alice_bases bob_bases : list BasisType)
    (bob_bits : list (option Z)) :
  forall (idxs matching : list nat) (sifted : list Z),
  Forall (fun i => i < length bob_bits /\ i < length alice_bases /\ i < length bob_bases)
         idxs ->
  exists new : list Z,
    reconcile_loop alice_bases bob_bases bob_bits idxs matching sifted
    = Ret (matching ++ filter (fun i => sifted_at alice_bases bob_bases bob_bits i = true) idxs,
           sifted ++ new) /\
    Forall2 (fun i b => bob_bits !! i = Some (Some b))
            (filter (fun i => sifted_at alice_bases bob_bases bob_bits i = true) idxs) new.
Proof.
  induction idxs as [|i rest IH]; intros matching sifted Hall.
  - exists []. cbn. rewrite !app_nil_r. split; [reflexivity|constructor].
  - inversion Hall as [|? ? (Hb & Ha & Hb') Hrest]; subst.
    destruct (lookup_lt_is_Some_2 bob_bits i Hb) as [entry Hentry].
    destruct (lookup_lt_is_Some_2 alice_bases i Ha) as [a Hla].
    destruct (lookup_lt_is_Some_2 bob_bases i Hb') as [b' Hlb].
    cbn [reconcile_loop]. rewrite Hentry. destruct entry as [b|].
    + rewrite Hla, Hlb. destruct (decide (a = b')) as [Heq|Hneq].
      * destruct (IH (matching ++ [i]) (sifted ++ [b]) Hrest) as (new & Hrun & Hrel).
        exists (b :: new). rewrite filter_cons_True.
        2:{ unfold sifted_at. rewrite Hentry, Hla, Hlb. now apply bool_decide_eq_true_2. }
        rewrite Hrun, <- !app_assoc. split; [reflexivity|].
        constructor; [exact Hentry|exact Hrel].
      * destruct (IH matching sifted Hrest) as (new & Hrun & Hrel).
        exists new. rewrite filter_cons_False.
        2:{ unfold sifted_at. rewrite Hentry, Hla, Hlb.
            rewrite bool_decide_eq_false_2 by exact Hneq. discriminate. }
        split; [exact Hrun|exact Hrel].
    + destruct (IH matching sifted Hrest) as (new & Hrun & Hrel).
      exists new. rewrite filter_cons_False.
      2:{ unfold sifted_at. rewrite Hentry. discriminate. }
      split; [exact Hrun|exact Hrel].
Qed.

Lemma basis_reconciliation_ret (n : nat) (self : BB84Protocol) :
  measured n self ->
  exists (sifted : list Z),
    let matching :=
      filter (fun i => sifted_at (alice_bases self) (bob_bases self) (bob_bits self) i = true)
             (seq 0 n) in
    _basis_reconciliation self
    = Ret (set_sifted_key sifted (set_matching_indices matching self)) /\
    Forall2 (fun i b => bob_bits self !! i = Some (Some b)) matching sifted.
Proof.
  intros (Hn & Hab & Habs & Hbbs & Hbb). unfold _basis_reconciliation.
  destruct (reconcile_loop_filter (alice_bases self) (bob_bases self) (bob_bits self)
              (seq 0 n) [] []) as (new & Hrun & Hrel).
  { apply Forall_forall. intros i Hi. apply elem_of_seq in Hi. lia. }
  exists new. rewrite Hn, Hrun. cbn. split; [reflexivity|exact Hrel].
Qed.

(** X20.  Sifting, when the bases and the measured bits have one entry per
    sent bit: [_basis_reconciliation] never raises; the matching indices are
    exactly the positions, in increasing order, at which Bob measured a bit
    and his basis is Alice's; the sifted key holds Bob's measured bit of each
    of these positions, in the same order; nothing else of the object
    changes. *)
Theorem basis_reconciliation_sifts (self : BB84Protocol) :
  measured (num_bits self) self ->
  exists (matching : list nat) (sifted : list Z),
    _basis_reconciliation self
    = Ret (set_sifted_key sifted (set_matching_indices matching self)) /\
    matching
    = filter (fun i => sifted_at (alice_bases self) (bob_bases self) (bob_bits self) i = true)
             (seq 0 (num_bits self)) /\
    Forall2 (fun i b => bob_bits self !! i = Some (Some b)) matching sifted /\
    NoDup matching /\
    Forall (fun i => i < num_bits self) matching.
Proof.
  intros Hm. destruct (basis_reconciliation_ret _ self Hm) as (sifted & Hrun & Hrel).
  eexists _, sifted. split; [exact Hrun|]. split; [reflexivity|]. split; [exact Hrel|].
  split.
  - apply NoDup_filter, NoDup_seq.
  - apply Forall_forall. intros i Hi.
    apply list_elem_of_filter in Hi as [_ Hi]. apply elem_of_seq in Hi. lia.
Qed.

Lemma basis_reconciliation_sifts_witness :
  exists (matching : list nat) (sifted : list Z),
    _basis_reconciliation
      (set_bob_bits [Some 1%Z; None; Some 0%Z]
         (set_bob_bases [RECTILINEAR; DIAGONAL; RECTILINEAR]
            (set_alice_bases [RECTILINEAR; DIAGONAL; DIAGONAL]
               (set_alice_bits [1; 0; 1]%Z
                  (BB84Protocol_init 3 false 0.5%Q "intercept_resend" 500%Q "clear" "night"
                     30%Q)))))
    = Ret (set_sifted_key sifted
             (set_matching_indices matching
                (set_bob_bits [Some 1%Z; None; Some 0%Z]
                   (set_bob_bases [RECTILINEAR; DIAGONAL; RECTILINEAR]
                      (set_alice_bases [RECTILINEAR; DIAGONAL; DIAGONAL]
                         (set_alice_bits [1; 0; 1]%Z
                            (BB84Protocol_init 3 false 0.5%Q "intercept_resend" 500%Q "clear"
                               "night" 30%Q))))))) /\
    matching = [0] /\ sifted = [1%Z].
Proof.
  assert (Hmeas : measured 3
            (set_bob_bits [Some 1%Z; None; Some 0%Z]
               (set_bob_bases [RECTILINEAR; DIAGONAL; RECTILINEAR]
                  (set_alice_bases [RECTILINEAR; DIAGONAL; DIAGONAL]
                     (set_alice_bits [1; 0; 1]%Z
                        (BB84Protocol_init 3 false 0.5%Q "intercept_resend" 500%Q "clear"
                           "night" 30%Q)))))).
  { repeat split. }
  destruct (basis_reconciliation_sifts _ Hmeas) as (matching & sifted & Hrun & Hm & Hrel & _).
  exists matching, sifted. split; [exact Hrun|].
  assert (Hm' : matching = [0]) by (rewrite Hm; reflexivity).
  split; [exact Hm'|].
  rewrite Hm' in Hrel.
  inversion Hrel as [|? b ? rest Hb Hrest]. inversion Hrest.
  cbn in Hb. congruence.
Defined.

(** ** Error testing (bb84.py) *)

Lemma bind_Ret {A B : Type} (x : A) (f : A -> Prog B) : (Ret x ≫= f) = f x.
Proof. reflexivity. Qed.

Lemma index_all_ret {A : Type} `{Inhabited A} (l : list A) (idxs : list nat) :
  Forall (fun i => i < length l) idxs ->
  index_all l idxs = Ret ((fun i => l !!! i) <$> idxs).
Proof.
  induction idxs as [|i rest IH]; intros Hall; [reflexivity|].
  inversion Hall as [|? ? Hi Hrest]; subst.
  cbn [index_all]. rewrite (list_lookup_lookup_total_lt l i Hi).
  rewrite (IH Hrest). reflexivity.
Qed.

Lemma calculate_qber_default_wp (alice_bits : list Z) (bob_bits : list (option Z))
    (matching_indices : list nat) :
  Forall (in_range alice_bits bob_bits) matching_indices ->
  let m := length matching_indices in
  wp (calculate_qber alice_bits bob_bits matching_indices None)
     (fun '(q, tested, errors, total) =>
        total = sample_size_of m /\ length tested = sample_size_of m /\
        tested ⊆+ matching_indices /\
        errors = error_count alice_bits bob_bits tested /\
        (m = 0 -> (q == 0)%Q) /\
        (0 < m -> (q == qber_of errors (sample_size_of m))%Q))
     no_raise.
Proof.
  intros Hrange m. destruct (decide (matching_indices = [])) as [Hnil|Hne].
  - subst matching_indices. cbn.
    split_ands; try reflexivity; intros Hm0; try reflexivity; subst m; simpl in Hm0; lia.
  - assert (Hpos : 0 < m).
    { subst m. destruct matching_indices; [congruence|simpl; lia]. }
    eapply wp_mono; [| |apply (calculate_qber_wp _ _ _ None Hrange Hne)]; [|auto].
    intros [[[q tested] errors] total] (Ht & Hl & Hsub & He & Hq & _).
    fold m in Ht, Hl, Hq. fold (sample_size_of m) in Ht, Hl, Hq.
    pose proof (sample_size_bounds m Hpos) as [Hs _].
    split_ands; try assumption; [lia|]. intros _. exact (Hq Hs).
Qed.

Lemma bit_differs_sifted (alice_bits : list Z) (bob_bits : list (option Z))
    (matching : list nat) (j : nat) :
  Forall (in_range alice_bits bob_bits) matching -> j < length matching ->
  bit_differs ((fun i => alice_bits !!! i) <$> matching)
              ((fun i => bob_bits !!! i) <$> matching) j
  = bit_differs alice_bits bob_bits (matching !!! j).
Proof.
  intros Hrange Hj. unfold bit_differs.
  rewrite !list_lookup_fmap, (list_lookup_lookup_total_lt matching j Hj). cbn.
  rewrite Forall_forall in Hrange.
  destruct (Hrange (matching !!! j)) as [Ha Hb].
  { apply list_elem_of_lookup. exists j. now apply list_lookup_lookup_total_lt. }
  now rewrite (list_lookup_lookup_total_lt alice_bits _ Ha),
              (list_lookup_lookup_total_lt bob_bits _ Hb).
Qed.

Lemma error_count_sifted (alice_bits : list Z) (bob_bits : list (option Z))
    (matching tested : list nat) :
  Forall (in_range alice_bits bob_bits) matching ->
  Forall (fun j => j < length matching) tested ->
  error_count ((fun i => alice_bits !!! i) <$> matching)
              ((fun i => bob_bits !!! i) <$> matching) tested
  = error_count alice_bits bob_bits ((fun j => matching !!! j) <$> tested).
Proof.
  intros Hrange Hall. unfold error_count.
  induction tested as [|j rest IH]; [reflexivity|].
  inversion Hall as [|? ? Hj Hrest]; subst.
  cbn [fmap list_fmap]. rewrite !filter_cons.
  rewrite (bit_differs_sifted _ _ _ j Hrange Hj).
  destruct (decide (bit_differs alice_bits bob_bits (matching !!! j) = true));
    cbn [length]; rewrite (IH Hrest); reflexivity.
Qed.

Lemma fmap_lookup_total_seq {A : Type} `{Inhabited A} (l : list A) :
  (fun j => l !!! j) <$> seq 0 (length l) = l.
Proof.
  apply list_eq. intros j. rewrite list_lookup_fmap.
  destruct (decide (j < length l)) as [Hj|Hj].
  - rewrite lookup_seq_lt by exact Hj. cbn.
    now rewrite (list_lookup_lookup_total_lt l j Hj).
  - rewrite lookup_seq_ge by lia. cbn. symmetry. apply lookup_ge_None. lia.
Qed.

Lemma error_testing_wp (self : BB84Protocol) :
  Forall (in_range (alice_bits self) (bob_bits self)) (matching_indices self) ->
  let m := length (matching_indices self) in
  wp (_error_testing self)
     (fun self' =>
        exists (q : Q) (analysis : ErrorAnalysis),
          self' = set_qber q (set_error_analysis (Some analysis) self) /\
          ea_bits_tested analysis = sample_size_of m /\
          length (ea_tested_indices analysis) = sample_size_of m /\
          ea_tested_indices analysis ⊆+ matching_indices self /\
          ea_errors_detected analysis
          = error_count (alice_bits self) (bob_bits self) (ea_tested_indices analysis) /\
          ea_matching_bases_count analysis = m /\
          ea_security_level analysis = fst (security_assessment q) /\
          ea_safe_to_use_key analysis = Qltb q 11.0%Q /\
          (m = 0 -> (q == 0)%Q) /\
          (0 < m -> (q == qber_of (ea_errors_detected analysis) (sample_size_of m))%Q))
     no_raise.
Proof.
  intros Hrange m. unfold _error_testing.
  rewrite (index_all_ret (alice_bits self)), bind_Ret
    by (eapply Forall_impl; [exact Hrange|]; intros i [Hi _]; exact Hi).
  rewrite (index_all_ret (bob_bits self)), bind_Ret
    by (eapply Forall_impl; [exact Hrange|]; intros i [_ Hi]; exact Hi).
  eapply wp_bind_with.
  { apply calculate_qber_default_wp.
    apply Forall_forall. intros j Hj. apply elem_of_seq in Hj.
    unfold in_range. rewrite !length_fmap. lia. }
  intros [[[q tested] errors] total] (Ht & Hl & Hsub & He & Hq0 & Hq).
  rewrite length_seq in Ht, Hl, Hq0, Hq. fold m in Ht, Hl, Hq0, Hq.
  assert (Hlt : Forall (fun j => j < length (matching_indices self)) tested).
  { apply Forall_forall. intros j Hj.
    apply (elem_of_submseteq _ _ _ Hj) in Hsub.
    apply elem_of_seq in Hsub. lia. }
  rewrite index_all_ret, bind_Ret by exact Hlt.
  destruct (security_assessment q) as [level text] eqn:Esec.
  cbn [wp]. eexists q, _. split; [reflexivity|].
  cbn [ea_bits_tested ea_tested_indices ea_errors_detected ea_matching_bases_count
       ea_security_level ea_safe_to_use_key fst].
  rewrite length_fmap.
  assert (Herr : errors = error_count (alice_bits self) (bob_bits self)
                            ((fun j => matching_indices self !!! j) <$> tested)).
  { rewrite He. now apply error_count_sifted. }
  split_ands; try assumption; try reflexivity; [|now rewrite Esec].
  pose proof (fmap_submseteq (fun j => matching_indices self !!! j) _ _ Hsub) as Hm.
  now rewrite fmap_lookup_total_seq in Hm.
Qed.

(** X21.  When every matching index can be looked up in Alice's and Bob's
    bit lists, [_error_testing] never raises and reports on a sample of
    [min (max 10 (m / 2)) m] of the [m] matching indices, drawn without
    replacement: the tested indices are original bit positions, the error
    count is the number of tested positions where Alice's bit differs from
    Bob's, and the QBER is 0 for [m = 0] and the sampled rate with its
    zero-error floor otherwise.  The matching indices and the sifted key are
    left as they were. *)
Theorem error_testing_report (self : BB84Protocol) :
  Forall (in_range (alice_bits self) (bob_bits self)) (matching_indices self) ->
  wp (_error_testing self) (error_report self) no_raise.
Proof.
  intros Hrange.
  eapply wp_mono; [| |apply (error_testing_wp self Hrange)]; [|auto].
  intros self' (q & analysis & -> & Hbt & Hlt & Hsub & Herr & Hmc & _ & _ & Hq0 & Hq).
  exists analysis. cbn.
  split_ands; try assumption; try reflexivity.
  rewrite Herr, Hbt, <- Hlt. apply error_count_le.
Qed.

Lemma error_testing_report_witness :
  wp (_error_testing
        (set_matching_indices [0; 2]
           (set_bob_bits [Some 1%Z; None; Some 0%Z]
              (set_alice_bits [1; 0; 1]%Z
                 (BB84Protocol_init 3 false 0.5%Q "intercept_resend" 500%Q "clear" "night"
                    30%Q)))))
     (error_report
        (set_matching_indices [0; 2]
           (set_bob_bits [Some 1%Z; None; Some 0%Z]
              (set_alice_bits [1; 0; 1]%Z
                 (BB84Protocol_init 3 false 0.5%Q "intercept_resend" 500%Q "clear" "night"
                    30%Q)))))
     no_raise.
Proof.
  apply error_testing_report.
  repeat constructor; simpl; lia.
Defined.

Lemma qber_of_floor (errors size : nat) :
  0 < size -> errors <= size ->
  (100 <= qber_of errors size * Qnat size)%Q /\ (qber_of errors size <= 100)%Q.
Proof.
  intros Hpos Hes. unfold qber_of.
  pose proof (Qnat_pos size Hpos) as Hsz.
  assert (Hone : (1 <= Qnat size)%Q).
  { change 1%Q with (Qnat 1). apply Qnat_le. lia. }
  assert (Hinv : (Qnat size * / Qnat size == 1)%Q) by (apply Qmult_inv_r; lra).
  assert (Hinv0 : (0 < / Qnat size)%Q) by (now apply Qinv_lt_0_compat).
  assert (Hinv1 : (/ Qnat size <= 1)%Q).
  { apply Qle_shift_inv_r; [exact Hsz|lra]. }
  destruct (decide (errors = 0 /\ 0 < size)) as [[-> _]|Hn].
  - split.
    + pose proof (Q.le_max_r 0.5%Q (100 / Qnat size)%Q) as Hmax.
      unfold Qdiv in *. nra.
    + apply Q.max_lub; [lra|]. unfold Qdiv. nra.
  - assert (He1 : (1 <= Qnat errors)%Q).
    { change 1%Q with (Qnat 1). apply Qnat_le. lia. }
    assert (Hels : (Qnat errors <= Qnat size)%Q) by (apply Qnat_le; exact Hes).
    unfold Qdiv. split.
    + nra.
    + assert (Hx : (Qnat errors * / Qnat size <= 1)%Q).
      { apply Qle_shift_div_r; [exact Hsz|lra]. }
      nra.
Qed.

(** X22.  The verdict on a short sifted key does not depend on the errors
    found.  With no matching index the QBER is 0, the level SECURE and the key
    reported safe to use.  With [m > 0] matching indices the QBER is at least
    [100 / size] for the sample size [size], so the level is never SECURE for
    [m < 42], the key is never reported safe for [m < 10], and the level is
    ABORT for [m < 7]. *)
Theorem error_testing_short_sift (self : BB84Protocol) :
  Forall (in_range (alice_bits self) (bob_bits self)) (matching_indices self) ->
  wp (_error_testing self) (short_sift_verdict self) no_raise.
Proof.
  intros Hrange.
  eapply wp_mono; [| |apply (error_testing_wp self Hrange)]; [|auto].
  intros self' (q & analysis & -> & Hbt & Hlt & Hsub & Herr & Hmc & Hlevel & Hsafe & Hq0 & Hq).
  exists analysis. cbn [error_analysis set_qber set_error_analysis qber].
  set (m := length (matching_indices self)) in *.
  split; [reflexivity|].
  assert (Hbounds : 0 < m ->
            (100 <= q * Qnat (sample_size_of m))%Q /\ (q <= 100)%Q).
  { intros Hpos. pose proof (sample_size_bounds m Hpos) as [Hs _].
    destruct (qber_of_floor (ea_errors_detected analysis) (sample_size_of m) Hs) as [H1 H2].
    - rewrite Herr, <- Hlt. apply error_count_le.
    - rewrite <- (Hq Hpos) in H1, H2. split; assumption. }
  assert (Hsmall : forall k : nat, 0 < m -> sample_size_of m <= k -> (100 <= q * Qnat k)%Q).
  { intros k Hpos Hk. destruct (Hbounds Hpos) as [H1 _].
    pose proof (sample_size_bounds m Hpos) as [Hs _].
    pose proof (Qnat_pos _ Hs) as Hs'.
    pose proof (proj2 (Qnat_le _ _) Hk) as Hk'.
    nra. }
  split_ands.
  - intros Hm0. specialize (Hq0 Hm0). split; [exact Hq0|].
    rewrite Hlevel, Hsafe. unfold security_assessment.
    rewrite !Qltb_true by lra. split; reflexivity.
  - exact Hbounds.
  - intros [Hpos Hlt42]. rewrite Hlevel. unfold security_assessment.
    assert (H20 : (100 <= q * Qnat 20)%Q).
    { apply Hsmall; [exact Hpos|]. unfold sample_size_of. lia_div. }
    change (Qnat 20) with 20%Q in H20.
    rewrite (Qltb_false q 5.0%Q) by lra.
    destruct (Qltb q 11.0%Q); [discriminate|].
    destruct (Qltb q 15.0%Q); discriminate.
  - intros [Hpos Hlt10]. rewrite Hsafe.
    assert (H9 : (100 <= q * Qnat 9)%Q).
    { apply Hsmall; [exact Hpos|]. unfold sample_size_of. lia. }
    change (Qnat 9) with 9%Q in H9.
    apply Qltb_false. lra.
  - intros [Hpos Hlt7]. rewrite Hlevel. unfold security_assessment.
    assert (H6 : (100 <= q * Qnat 6)%Q).
    { apply Hsmall; [exact Hpos|]. unfold sample_size_of. lia. }
    change (Qnat 6) with 6%Q in H6.
    rewrite !Qltb_false by lra. reflexivity.
Qed.

Lemma error_testing_short_sift_witness :
  wp (_error_testing
        (set_matching_indices [0; 2]
           (set_bob_bits [Some 1%Z; None; Some 0%Z]
              (set_alice_bits [1; 0; 1]%Z
                 (BB84Protocol_init 3 false 0.5%Q "intercept_resend" 500%Q "clear" "night"
                    30%Q)))))
     (short_sift_verdict
        (set_matching_indices [0; 2]
           (set_bob_bits [Some 1%Z; None; Some 0%Z]
              (set_alice_bits [1; 0; 1]%Z
                 (BB84Protocol_init 3 false 0.5%Q "intercept_resend" 500%Q "clear" "night"
                    30%Q)))))
     no_raise.
Proof.
  apply error_testing_short_sift.
  repeat constructor; simpl; lia.
Defined.

(** ** Privacy amplification in the driver (bb84.py) *)

Lemma untested_bits_ret (alice_bits : list Z) (matching : list nat) (tested : gset nat) :
  forall idxs : list nat,
  Forall (fun i => i < length matching) idxs ->
  Forall (fun i => i < length alice_bits) matching ->
  untested_bits alice_bits matching tested idxs
  = Ret ((fun i => alice_bits !!! i)
           <$> filter (fun i => i ∉ tested) ((fun j => matching !!! j) <$> idxs)).
Proof.
  induction idxs as [|j rest IH]; intros Hall Hrange; [reflexivity|].
  inversion Hall as [|? ? Hj Hrest]; subst.
  cbn [untested_bits fmap list_fmap].
  rewrite (list_lookup_lookup_total_lt matching j Hj), (IH Hrest Hrange).
  rewrite filter_cons.
  destruct (decide (matching !!! j ∈ tested)) as [Hin|Hout].
  - rewrite decide_False by tauto. reflexivity.
  - rewrite decide_True by exact Hout.
    assert (Hm : matching !!! j < length alice_bits).
    { rewrite Forall_forall in Hrange. apply Hrange.
      apply list_elem_of_lookup. exists j. now apply list_lookup_lookup_total_lt. }
    rewrite (list_lookup_lookup_total_lt alice_bits _ Hm). reflexivity.
Qed.

Lemma untested_sifted_ret (sifted_key : list Z) (matching : list nat) (tested : gset nat) :
  forall idxs : list nat,
  Forall (fun i => i < length matching /\ i < length sifted_key) idxs ->
  exists bits : list Z, untested_sifted sifted_key matching tested idxs = Ret bits.
Proof.
  induction idxs as [|j rest IH]; intros Hall; [now exists []|].
  inversion Hall as [|? ? [Hj Hs] Hrest]; subst.
  destruct (IH Hrest) as [bits Hbits].
  cbn [untested_sifted].
  rewrite (list_lookup_lookup_total_lt matching j Hj), Hbits.
  destruct (decide (matching !!! j ∈ tested)); [now exists bits|].
  rewrite (list_lookup_lookup_total_lt sifted_key j Hs). now eexists.
Qed.

Lemma filter_ext_list {A : Type} (P Q : A -> Prop) `{forall x, Decision (P x)}
    `{forall x, Decision (Q x)} (l : list A) :
  (forall x, P x <-> Q x) -> filter P l = filter Q l.
Proof.
  intros Heq. induction l as [|x l IH]; [reflexivity|].
  rewrite !filter_cons, IH.
  destruct (decide (P x)) as [Hp|Hp], (decide (Q x)) as [Hq|Hq];
    try reflexivity; exfalso; apply Heq in Hp || apply Heq in Hq; tauto.
Qed.

Lemma privacy_amplification_ret (self : BB84Protocol) :
  Forall (fun i => i < length (alice_bits self)) (matching_indices self) ->
  length (sifted_key self) = length (matching_indices self) ->
  _privacy_amplification self
  = Ret (set_final_key (apply_privacy_amplification (alice_untested self) (qber self)) self).
Proof.
  intros Hrange Hlen. unfold _privacy_amplification.
  rewrite untested_bits_ret, bind_Ret; [| |exact Hrange].
  2:{ apply Forall_forall. intros j Hj. apply elem_of_seq in Hj. lia. }
  destruct (untested_sifted_ret (sifted_key self) (matching_indices self)
              (list_to_set (match error_analysis self with
                            | Some analysis => ea_tested_indices analysis
                            | None => []
                            end))
              (seq 0 (length (sifted_key self)))) as [bits Hbits].
  { apply Forall_forall. intros j Hj. apply elem_of_seq in Hj. lia. }
  rewrite Hbits, bind_Ret. do 2 f_equal.
  unfold alice_untested, tested_indices_of.
  rewrite Hlen, fmap_lookup_total_seq.
  set (tested := match error_analysis self with
                 | Some analysis => ea_tested_indices analysis
                 | None => []
                 end).
  rewrite (filter_ext_list (fun i => i ∉ (list_to_set tested : gset nat))
             (fun i => i ∉ tested)); [reflexivity|].
  intros i. now rewrite elem_of_list_to_set.
Qed.

(** X23.  [_privacy_amplification] in terms of lists, when the sifted key
    has one bit per matching index and every matching index is a position of
    Alice's bit list: it never raises, and the final key is the privacy
    amplification, at the stored QBER, of Alice's bits at the matching indices
    that were not tested, in order.  Bob's bits do not enter the key; the key
    is a prefix of Alice's untested bits and is empty from a QBER of 15 on. *)
Theorem privacy_amplification_stage (self : BB84Protocol) :
  Forall (fun i => i < length (alice_bits self)) (matching_indices self) ->
  length (sifted_key self) = length (matching_indices self) ->
  exists key : list Z,
    _privacy_amplification self = Ret (set_final_key key self) /\
    key = apply_privacy_amplification (alice_untested self) (qber self) /\
    key `prefix_of` alice_untested self /\
    ((15 <= qber self)%Q -> key = []).
Proof.
  intros Hrange Hlen. eexists. split; [now apply privacy_amplification_ret|].
  split; [reflexivity|]. split.
  - rewrite privacy_amplification_take. apply prefix_take.
  - intros Hq. unfold apply_privacy_amplification. now rewrite !Qltb_false by lra.
Qed.

Lemma privacy_amplification_stage_witness :
  exists key : list Z,
    _privacy_amplification
      (set_sifted_key [1; 0]%Z
         (set_matching_indices [0; 2]
            (set_alice_bits [1; 0; 1]%Z
               (BB84Protocol_init 3 false 0.5%Q "intercept_resend" 500%Q "clear" "night"
                  30%Q))))
    = Ret (set_final_key key
             (set_sifted_key [1; 0]%Z
                (set_matching_indices [0; 2]
                   (set_alice_bits [1; 0; 1]%Z
                      (BB84Protocol_init 3 false 0.5%Q "intercept_resend" 500%Q "clear"
                         "night" 30%Q))))) /\
    key = [1%Z].
Proof.
  assert (Hrange : Forall (fun i => i < 3) [0; 2]) by (repeat constructor; lia).
  destruct (privacy_amplification_stage
              (set_sifted_key [1; 0]%Z
                 (set_matching_indices [0; 2]
                    (set_alice_bits [1; 0; 1]%Z
                       (BB84Protocol_init 3 false 0.5%Q "intercept_resend" 500%Q "clear"
                          "night" 30%Q))))
              Hrange eq_refl) as (key & Hrun & Hkey & _).
  exists key. split; [exact Hrun|]. rewrite Hkey. reflexivity.
Defined.

Lemma filter_none {A : Type} (P : A -> Prop) `{forall x, Decision (P x)} (l : list A) :
  Forall (fun x => ~ P x) l -> filter P l = [].
Proof.
  induction 1 as [|x l Hx _ IH]; [reflexivity|].
  now rewrite filter_cons_False by exact Hx.
Qed.

Lemma filter_all {A : Type} (P : A -> Prop) `{forall x, Decision (P x)} (l : list A) :
  Forall P l -> filter P l = l.
Proof.
  induction 1 as [|x l Hx _ IH]; [reflexivity|].
  rewrite filter_cons_True by exact Hx. now rewrite IH.
Qed.

Lemma untested_count (matching tested : list nat) :
  NoDup matching -> tested ⊆+ matching ->
  length (filter (fun i => i ∉ tested) matching) = length matching - length tested.
Proof.
  intros Hnd Hsub.
  destruct (submseteq_Permutation _ _ Hsub) as [rest Hperm].
  rewrite Hperm in Hnd |- *.
  apply NoDup_app in Hnd as (_ & Hdisj & _).
  rewrite filter_app, length_app.
  rewrite (filter_none (fun i => i ∉ tested) tested).
  2:{ apply Forall_forall. intros x Hx Hn. exact (Hn Hx). }
  rewrite (filter_all (fun i => i ∉ tested) rest).
  2:{ apply Forall_forall. intros x Hx Hin. exact (Hdisj x Hin Hx). }
  rewrite length_app. simpl. lia.
Qed.

(** X24.  Error testing followed by privacy amplification, on pairwise
    distinct matching indices that can be looked up and a sifted key with one
    bit per index: the two stages never raise; the final key is the privacy
    amplification of Alice's [m - size] untested bits, so it has at most
    [m - size] bits; it is empty whenever at most ten bits were sifted, since
    then every sifted bit is tested, and whenever the QBER is 15 or more. *)
Theorem error_testing_then_amplification (self : BB84Protocol) :
  Forall (in_range (alice_bits self) (bob_bits self)) (matching_indices self) ->
  NoDup (matching_indices self) ->
  length (sifted_key self) = length (matching_indices self) ->
  wp (self1 ← _error_testing self; _privacy_amplification self1)
     (distilled self) no_raise.
Proof.
  intros Hrange Hnd Hlen.
  eapply wp_bind_with; [apply (error_testing_wp self Hrange)|].
  intros self1 (q & analysis & -> & Hbt & Hlt & Hsub & Herr & Hmc & _ & _ & Hq0 & Hq).
  rewrite privacy_amplification_ret.
  2:{ cbn. eapply Forall_impl; [exact Hrange|]. intros i [Hi _]. exact Hi. }
  2:{ cbn. exact Hlen. }
  cbn [wp]. unfold distilled.
  set (m := length (matching_indices self)) in *.
  assert (Hun : length (alice_untested
                          (set_qber q (set_error_analysis (Some analysis) self)))
                = m - sample_size_of m).
  { unfold alice_untested, tested_indices_of. cbn.
    rewrite length_fmap, untested_count by assumption. fold m. lia. }
  assert (Hun' : alice_untested
                   (set_final_key
                      (apply_privacy_amplification
                         (alice_untested (set_qber q (set_error_analysis (Some analysis) self)))
                         q)
                      (set_qber q (set_error_analysis (Some analysis) self)))
                 = alice_untested (set_qber q (set_error_analysis (Some analysis) self)))
    by reflexivity.
  cbn [final_key set_final_key qber set_qber]. rewrite Hun'.
  assert (Hle : length (apply_privacy_amplification
                          (alice_untested
                             (set_qber q (set_error_analysis (Some analysis) self))) q)
                <= m - sample_size_of m).
  { rewrite privacy_amplification_take, length_take. lia. }
  split_ands; [reflexivity|exact Hun|exact Hle| |].
  - intros Hm. apply length_zero_iff_nil.
    assert (sample_size_of m = m) by (unfold sample_size_of; lia). lia.
  - intros H15. unfold apply_privacy_amplification. now rewrite !Qltb_false by lra.
Qed.

Lemma error_testing_then_amplification_witness :
  wp (self1 ← _error_testing
                (set_sifted_key [1; 0]%Z
                   (set_matching_indices [0; 2]
                      (set_bob_bits [Some 1%Z; None; Some 0%Z]
                         (set_alice_bits [1; 0; 1]%Z
                            (BB84Protocol_init 3 false 0.5%Q "intercept_resend" 500%Q "clear"
                               "night" 30%Q)))));
      _privacy_amplification self1)
     (distilled
        (set_sifted_key [1; 0]%Z
           (set_matching_indices [0; 2]
              (set_bob_bits [Some 1%Z; None; Some 0%Z]
                 (set_alice_bits [1; 0; 1]%Z
                    (BB84Protocol_init 3 false 0.5%Q "intercept_resend" 500%Q "clear"
                       "night" 30%Q))))))
     no_raise.
Proof.
  apply error_testing_then_amplification.
  - repeat constructor; simpl; lia.
  - apply NoDup_cons. split; [|apply NoDup_singleton].
    intros Hin. apply list_elem_of_singleton in Hin. discriminate.
  - reflexivity.
Defined.

(** ** Whole runs (bb84.py) *)
















(** ** Bits and bytes (utils/math_utils.py) *)

Lemma byte_of_bits (b7 b6 b5 b4 b3 b2 b1 b0 : Z) :
  Forall is_bit [b7; b6; b5; b4; b3; b2; b1; b0] ->
  is_byte (byte_value 0 [b7; b6; b5; b4; b3; b2; b1; b0]) /\
  byte_bits (byte_value 0 [b7; b6; b5; b4; b3; b2; b1; b0])
  = [b7; b6; b5; b4; b3; b2; b1; b0].
Proof.
  intros H.
  repeat match goal with
         | H : Forall _ (_ :: _) |- _ =>
             let Hb := fresh "Hb" in
             apply Forall_cons in H as [Hb H]; destruct Hb as [-> | ->]
         end;
    (split; [split; [vm_compute; discriminate|reflexivity]|reflexivity]).
Qed.

Lemma bits_of_byte (b : Z) :
  is_byte b -> byte_value 0 (byte_bits b) = b /\ Forall is_bit (byte_bits b).
Proof.
  intros [H0 H256].
  assert (Hall : forallb (fun n : nat =>
                    Z.eqb (byte_value 0 (byte_bits (Z.of_nat n))) (Z.of_nat n)
                    && forallb (fun x => Z.eqb x 0 || Z.eqb x 1) (byte_bits (Z.of_nat n)))
                   (List.seq 0 256) = true) by (vm_compute; reflexivity).
  rewrite forallb_forall in Hall.
  specialize (Hall (Z.to_nat b)). rewrite Z2Nat.id in Hall by exact H0.
  destruct (andb_prop _ _ (Hall ltac:(apply in_seq; lia))) as [Hv Hb].
  split; [now apply Z.eqb_eq|].
  apply Forall_forall. intros x Hx.
  rewrite forallb_forall in Hb. apply list_elem_of_In in Hx.
  specialize (Hb x Hx). apply orb_prop in Hb as [Hb|Hb]; apply Z.eqb_eq in Hb; [now left|now right].
Qed.

Lemma bytes_loop_bits (count : nat) : forall (i : nat) (padded byte_array : list Z),
  length padded = i + 8 * count -> Forall is_bit padded ->
  exists bytes : list Z,
    bytes_loop count i padded byte_array = Ret (byte_array ++ bytes) /\
    length bytes = count /\ Forall is_byte bytes /\
    bytes_to_bits bytes = drop i padded.
Proof.
  induction count as [|count IH]; intros i padded byte_array Hlen Hbits.
  - exists []. rewrite app_nil_r. split_ands; try reflexivity; [constructor|].
    cbn. symmetry. apply drop_ge. lia.
  - assert (Hchunk : length (take 8 (drop i padded)) = 8).
    { rewrite length_take, length_drop. lia. }
    assert (Hcb : Forall is_bit (take 8 (drop i padded))).
    { apply Forall_take, Forall_drop. exact Hbits. }
    destruct (take 8 (drop i padded)) as [|b7 [|b6 [|b5 [|b4 [|b3 [|b2 [|b1 [|b0 [|? ?]]]]]]]]]
      eqn:Echunk; try discriminate.
    destruct (byte_of_bits _ _ _ _ _ _ _ _ Hcb) as [Hbyte Hback].
    destruct (IH (i + 8) padded
                (byte_array ++ [byte_value 0 [b7; b6; b5; b4; b3; b2; b1; b0]])
                ltac:(lia) Hbits) as (bytes & Hrun & Hl & Hby & Hbb).
    exists (byte_value 0 [b7; b6; b5; b4; b3; b2; b1; b0] :: bytes).
    cbn [bytes_loop]. rewrite Echunk.
    rewrite decide_True by exact Hbyte.
    rewrite Hrun, <- app_assoc. split_ands.
    + reflexivity.
    + simpl. lia.
    + constructor; assumption.
    + cbn [bytes_to_bits]. rewrite Hback, Hbb, <- Echunk.
      replace (drop (i + 8) padded) with (drop 8 (drop i padded))
        by (rewrite drop_drop; reflexivity).
      apply take_drop.
Qed.

Lemma bytes_loop_bytes (bytes : list Z) : forall (pre byte_array : list Z),
  Forall is_byte bytes ->
  bytes_loop (length bytes) (length pre) (pre ++ bytes_to_bits bytes) byte_array
  = Ret (byte_array ++ bytes).
Proof.
  induction bytes as [|b bytes IH]; intros pre byte_array Hall.
  - cbn. now rewrite app_nil_r.
  - inversion Hall as [|? ? Hb Hrest]; subst.
    destruct (bits_of_byte b Hb) as [Hv _].
    cbn [length bytes_loop bytes_to_bits].
    rewrite drop_app_length.
    assert (Htake : take 8 (byte_bits b ++ bytes_to_bits bytes) = byte_bits b).
    { now rewrite take_app_length' by reflexivity. }
    rewrite Htake, Hv, decide_True by exact Hb.
    specialize (IH (pre ++ byte_bits b) (byte_array ++ [b]) Hrest).
    rewrite length_app in IH. change (length (byte_bits b)) with 8 in IH.
    rewrite <- !app_assoc in IH. exact IH.
Qed.

Lemma bytes_to_bits_length (bytes : list Z) :
  length (bytes_to_bits bytes) = 8 * length bytes.
Proof.
  induction bytes as [|b bytes IH]; [reflexivity|].
  cbn [bytes_to_bits]. rewrite length_app, IH. cbn [length]. unfold byte_bits.
  rewrite length_map. simpl. lia.
Qed.

(** X26.  Bits to bytes and back.  On a list of bits [bits_to_bytes] never
    raises and returns [ceil (len / 8)] bytes, and [bytes_to_bits] of these
    bytes is the input followed by the zero bits that pad it to a multiple of
    eight, so the round trip is the identity exactly on lengths that are
    multiples of eight.  In the other direction [bytes_to_bits] turns bytes
    into eight bits each, and [bits_to_bytes] gives the bytes back. *)
Theorem bits_bytes_round_trip (bits bytes : list Z) :
  (Forall is_bit bits ->
   exists out : list Z,
     bits_to_bytes bits = Ret out /\
     length out = (length bits + 7) / 8 /\
     Forall is_byte out /\
     bytes_to_bits out = bits ++ replicate (8 * ((length bits + 7) / 8) - length bits) 0%Z) /\
  (Forall is_byte bytes ->
   Forall is_bit (bytes_to_bits bytes) /\
   length (bytes_to_bits bytes) = 8 * length bytes /\
   bits_to_bytes (bytes_to_bits bytes) = Ret bytes).
Proof.
  split.
  - intros Hbits. unfold bits_to_bytes.
    set (pad := 8 * ((length bits + 7) / 8) - length bits).
    assert (Hpadded : (if decide (length bits mod 8 <> 0)
                       then bits ++ replicate (8 - length bits mod 8) 0%Z
                       else bits) = bits ++ replicate pad 0%Z).
    { subst pad. destruct (decide (length bits mod 8 <> 0)) as [Hr|Hr].
      - do 2 f_equal. lia_div.
      - replace (8 * ((length bits + 7) / 8) - length bits) with 0 by lia_div.
        now rewrite app_nil_r. }
    rewrite Hpadded.
    assert (Hlen : length (bits ++ replicate pad 0%Z) = 8 * ((length bits + 7) / 8)).
    { rewrite length_app, length_replicate. subst pad. lia_div. }
    destruct (bytes_loop_bits ((length bits + 7) / 8) 0 (bits ++ replicate pad 0%Z) [])
      as (out & Hrun & Hl & Hby & Hbb).
    { rewrite Hlen. lia. }
    { apply Forall_app. split; [exact Hbits|]. apply Forall_replicate. now left. }
    exists out. rewrite Hlen.
    replace ((8 * ((length bits + 7) / 8) + 7) / 8) with ((length bits + 7) / 8) by lia_div.
    rewrite Hrun. rewrite drop_0 in Hbb. split_ands; try assumption. reflexivity.
  - intros Hbytes. split_ands.
    + induction Hbytes as [|b bytes Hb _ IH]; [constructor|].
      cbn [bytes_to_bits]. apply Forall_app. split; [|exact IH].
      apply (bits_of_byte b Hb).
    + apply bytes_to_bits_length.
    + unfold bits_to_bytes. rewrite bytes_to_bits_length.
      rewrite decide_False by lia_div.
      rewrite bytes_to_bits_length.
      replace ((8 * length bytes + 7) / 8) with (length bytes) by lia_div.
      apply (bytes_loop_bytes bytes [] [] Hbytes).
Qed.

Lemma bits_bytes_round_trip_witness :
  (exists out : list Z,
     bits_to_bytes [1; 0; 1]%Z = Ret out /\
     length out = 1 /\
     Forall is_byte out /\
     bytes_to_bits out = [1; 0; 1; 0; 0; 0; 0; 0]%Z) /\
  bits_to_bytes (bytes_to_bits [160; 7]%Z) = Ret [160; 7]%Z.
Proof.
  destruct (bits_bytes_round_trip [1; 0; 1]%Z [160; 7]%Z) as [H1 H2].
  split.
  - apply H1. repeat constructor; (now left) || (now right).
  - apply H2. repeat constructor; discriminate.
Defined.

(** ** Error analysis of a session (qber.py) *)

Lemma analyze_matching_ret (alice_bases bob_bases : list string)
    (bob_bits : list (option Z)) (idxs : list nat) :
  Forall (fun i => i < length alice_bases /\ i < length bob_bases /\ i < length bob_bits)
         idxs ->
  analyze_matching alice_bases bob_bases bob_bits idxs
  = Ret (filter (fun i => analyzed_at alice_bases bob_bases bob_bits i = true) idxs).
Proof.
  induction idxs as [|i rest IH]; intros Hall; [reflexivity|].
  inversion Hall as [|? ? (Ha & Hb & Hbit) Hrest]; subst.
  destruct (lookup_lt_is_Some_2 alice_bases i Ha) as [a Hla].
  destruct (lookup_lt_is_Some_2 bob_bases i Hb) as [b Hlb].
  destruct (lookup_lt_is_Some_2 bob_bits i Hbit) as [bit Hlbit].
  assert (Hat : analyzed_at alice_bases bob_bases bob_bits i
                = String.eqb a b && bool_decide (bit <> None /\ bit <> Some (-1)%Z)).
  { unfold analyzed_at. now rewrite Hla, Hlb, Hlbit. }
  cbn [analyze_matching]. rewrite Hla, Hlb, (IH Hrest), filter_cons, Hat.
  destruct (String.eqb a b); cbn [andb].
  - rewrite Hlbit, bind_Ret.
    destruct (decide (bit <> None /\ bit <> Some (-1)%Z)) as [Hd|Hd].
    + rewrite bool_decide_eq_true_2 by exact Hd. now rewrite decide_True by reflexivity.
    + rewrite bool_decide_eq_false_2 by exact Hd. now rewrite decide_False by discriminate.
  - now rewrite decide_False by discriminate.
Qed.

Lemma verdict_of_sample (q : Q) (m errors : nat) :
  errors <= sample_size_of m ->
  (m = 0 -> (q == 0)%Q) ->
  (0 < m -> (q == qber_of errors (sample_size_of m))%Q) ->
  (m = 0 -> fst (security_assessment q) = "SECURE" /\ Qltb q 11.0%Q = true) /\
  (0 < m < 42 -> fst (security_assessment q) <> "SECURE") /\
  (0 < m < 10 -> Qltb q 11.0%Q = false) /\
  (0 < m < 7 -> fst (security_assessment q) = "ABORT").
Proof.
  intros Herr Hq0 Hq.
  assert (Hsmall : forall k : nat, 0 < m -> sample_size_of m <= k -> (100 <= q * Qnat k)%Q).
  { intros k Hpos Hk. pose proof (sample_size_bounds m Hpos) as [Hs _].
    destruct (qber_of_floor errors (sample_size_of m) Hs Herr) as [H1 _].
    rewrite <- (Hq Hpos) in H1.
    pose proof (Qnat_pos _ Hs) as Hs'.
    pose proof (proj2 (Qnat_le _ _) Hk) as Hk'.
    nra. }
  split_ands.
  - intros Hm0. specialize (Hq0 Hm0). unfold security_assessment.
    rewrite !Qltb_true by lra. split; reflexivity.
  - intros [Hpos Hlt42]. unfold security_assessment.
    assert (H20 : (100 <= q * Qnat 20)%Q).
    { apply Hsmall; [exact Hpos|]. unfold sample_size_of. lia_div. }
    change (Qnat 20) with 20%Q in H20.
    rewrite (Qltb_false q 5.0%Q) by lra.
    destruct (Qltb q 11.0%Q); [discriminate|].
    destruct (Qltb q 15.0%Q); discriminate.
  - intros [Hpos Hlt10].
    assert (H9 : (100 <= q * Qnat 9)%Q).
    { apply Hsmall; [exact Hpos|]. unfold sample_size_of. lia. }
    change (Qnat 9) with 9%Q in H9.
    apply Qltb_false. lra.
  - intros [Hpos Hlt7]. unfold security_assessment.
    assert (H6 : (100 <= q * Qnat 6)%Q).
    { apply Hsmall; [exact Hpos|]. unfold sample_size_of. lia. }
    change (Qnat 6) with 6%Q in H6.
    rewrite !Qltb_false by lra. reflexivity.
Qed.

(** X27.  [analyze_errors], given basis lists and a measured-bit list with at
    least one entry per sender bit, never raises.  It counts as matching the
    positions with equal basis strings whose measured bit is neither [None]
    nor [-1], tests [min (max 10 (m / 2)) m] of these [m] positions, drawn
    without replacement, and counts the tested positions where the bits
    differ.  Its verdict on a short list does not depend on the errors: SECURE
    and safe for [m = 0], never SECURE for [0 < m < 42], never safe for
    [0 < m < 10], ABORT for [0 < m < 7]. *)
Theorem analyze_errors_report (alice_bits : list Z) (bob_bits : list (option Z))
    (alice_bases bob_bases : list string) (eve_active : bool) :
  length alice_bits <= length bob_bits ->
  length alice_bits <= length alice_bases ->
  length alice_bits <= length bob_bases ->
  let matching :=
    filter (fun i => analyzed_at alice_bases bob_bases bob_bits i = true)
           (seq 0 (length alice_bits)) in
  let m := length matching in
  wp (analyze_errors alice_bits bob_bits alice_bases bob_bases eve_active)
     (fun analysis =>
        ea_matching_bases_count analysis = m /\
        ea_bits_tested analysis = sample_size_of m /\
        length (ea_tested_indices analysis) = sample_size_of m /\
        ea_tested_indices analysis ⊆+ matching /\
        ea_errors_detected analysis
        = error_count alice_bits bob_bits (ea_tested_indices analysis) /\
        ea_eve_active analysis = eve_active /\
        (m = 0 -> ea_security_level analysis = "SECURE" /\
                  ea_safe_to_use_key analysis = true) /\
        (0 < m < 42 -> ea_security_level analysis <> "SECURE") /\
        (0 < m < 10 -> ea_safe_to_use_key analysis = false) /\
        (0 < m < 7 -> ea_security_level analysis = "ABORT"))
     no_raise.
Proof.
  intros Hbb Hab Hbbs matching m. unfold analyze_errors.
  rewrite analyze_matching_ret, bind_Ret.
  2:{ apply Forall_forall. intros i Hi. apply elem_of_seq in Hi. lia. }
  fold matching.
  eapply wp_bind_with.
  { apply calculate_qber_default_wp.
    apply Forall_forall. intros i Hi. subst matching.
    apply list_elem_of_filter in Hi as [_ Hi]. apply elem_of_seq in Hi.
    unfold in_range. lia. }
  intros [[[q tested] errors] total] (Ht & Hl & Hsub & He & Hq0 & Hq).
  fold m in Ht, Hl, Hq0, Hq.
  destruct (security_assessment q) as [level text] eqn:Esec.
  cbn [wp ea_matching_bases_count ea_bits_tested ea_tested_indices ea_errors_detected
       ea_eve_active ea_security_level ea_safe_to_use_key].
  assert (Herr : errors <= sample_size_of m).
  { rewrite He, <- Hl. apply error_count_le. }
  destruct (verdict_of_sample q m errors Herr Hq0 Hq) as (V0 & V42 & V10 & V7).
  rewrite Esec in V0, V42, V7. cbn [fst] in V0, V42, V7.
  split_ands; try assumption; reflexivity.
Qed.

Lemma analyze_errors_report_witness :
  wp (analyze_errors [1; 0; 1]%Z [Some 1%Z; Some (-1)%Z; Some 0%Z] ["+"; "+"; "x"]
        ["+"; "+"; "x"] false)
     (fun analysis =>
        ea_matching_bases_count analysis = 2 /\
        ea_bits_tested analysis = 2 /\
        ea_tested_indices analysis ⊆+ [0; 2] /\
        ea_security_level analysis = "ABORT")
     no_raise.
Proof.
  eapply wp_mono;
    [| |apply (analyze_errors_report [1; 0; 1]%Z [Some 1%Z; Some (-1)%Z; Some 0%Z]
                 ["+"; "+"; "x"] ["+"; "+"; "x"] false)];
    [|auto|simpl; lia|simpl; lia|simpl; lia].
  intros analysis (Hm & Hb & _ & Hs & _ & _ & _ & _ & _ & H7).
  split_ands; [exact Hm|exact Hb|exact Hs|].
  apply H7. simpl. lia.
Defined.

(** ** Alice's preparation (photon.py, bb84.py) *)

Lemma random_bits_bits (n : nat) :
  wp (random_bits n) (fun bs => length bs = n /\ Forall is_bit bs) no_raise.
Proof.
  induction n as [|n IH]; [split; [reflexivity|constructor]|].
  cbn [random_bits]. unfold randint.
  apply wp_bind. apply wp_randbelow. intros i Hi. cbn [wp].
  eapply wp_bind_with; [apply IH|]. intros bs [Hl Hbs]. cbn.
  split; [now rewrite Hl|]. constructor; [|exact Hbs].
  change (Z.to_nat (1 - 0 + 1)) with 2 in Hi.
  destruct i as [|[|i]]; [now left|now right|lia].
Qed.

(** X28.  Photon preparation.  The four polarization states are distinct
    encodings: on bits, [Photon.create] gives the same state only for the same
    bit in the same basis, and every new photon is marked transmitted and not
    intercepted.  [_alice_prepare] never raises; it draws [num_bits] bits, each
    0 or 1, and as many bases, and allocates one new photon per position, the
    photon at position [i] being [Photon.create] of bit [i] in basis [i]; the
    objects already in the store are untouched. *)
Theorem alice_prepare_encodes (self : BB84Protocol) (h : heap) :
  (forall (b b' : Z) (basis basis' : BasisType),
     is_bit b -> is_bit b' ->
     state (create b basis) = state (create b' basis') -> b = b' /\ basis = basis') /\
  (forall (b : Z) (basis : BasisType),
     bit (create b basis) = b /\ preparation_basis (create b basis) = basis /\
     is_transmitted (create b basis) = true /\ is_intercepted (create b basis) = false) /\
  wp (_alice_prepare self h) (alice_prepared self h) no_raise.
Proof.
  split_ands.
  - intros b b' basis basis' [-> | ->] [-> | ->]; destruct basis, basis'; cbn;
      intros Hs; try discriminate Hs; split; reflexivity.
  - intros b basis. split_ands; reflexivity.
  - unfold _alice_prepare.
    eapply wp_bind_with; [apply random_bits_bits|]. intros bits [Hl Hbits].
    eapply wp_bind_with; [apply generate_random_bases_wp|]. intros bases Hbases.
    cbn beta in Hbases.
    cbn [alice_bits alice_bases set_alice_bits set_alice_bases num_bits] in *.
    rewrite create_photons_spec. cbn [wp]. unfold alice_prepared.
    cbn [alice_bits alice_bases alice_photons set_alice_photons set_alice_bases
         set_alice_bits num_bits].
    assert (Hzip : length (zip bits bases) = num_bits self).
    { rewrite length_zip. lia. }
    split_ands; try assumption.
    + now rewrite Hzip.
    + rewrite length_app, length_map. lia.
    + intros l Hlt. now rewrite lookup_app_l by exact Hlt.
    + intros i b basis Hb Hbasis.
      rewrite lookup_app_r by lia.
      replace (length h + i - length h) with i by lia.
      rewrite list_lookup_fmap.
      assert (Hz : zip bits bases !! i = Some (b, basis)).
      { apply lookup_zip_with_Some. exists b, basis. auto. }
      now rewrite Hz.
Qed.

Lemma alice_prepare_encodes_witness :
  (1%Z = 1%Z /\ DIAGONAL = DIAGONAL) /\
  wp (_alice_prepare
        (BB84Protocol_init 2 false 0.5%Q "intercept_resend" 500%Q "clear" "night" 30%Q) [])
     (alice_prepared
        (BB84Protocol_init 2 false 0.5%Q "intercept_resend" 500%Q "clear" "night" 30%Q) [])
     no_raise.
Proof.
  destruct (alice_prepare_encodes
              (BB84Protocol_init 2 false 0.5%Q "intercept_resend" 500%Q "clear" "night" 30%Q)
              []) as (Hinj & _ & Hwp).
  split; [|exact Hwp].
  apply (Hinj 1%Z 1%Z DIAGONAL DIAGONAL); [now right|now right|reflexivity].
Defined.

(** ** Channel statistics (atmosphere.py) *)

Lemma round_half_even_ge (k : Z) (x : Q) :
  (inject_Z k <= x)%Q -> (k <= round_half_even x)%Z.
Proof.
  intros Hk. unfold round_half_even.
  assert (Hf : (k <= Qfloor x)%Z).
  { rewrite <- (Qfloor_Z k). now apply Qfloor_resp_le. }
  destruct (Qltb _ _); [exact Hf|].
  destruct (Qltb _ _); [lia|].
  destruct (Z.even _); lia.
Qed.

Lemma round_half_even_le (k : Z) (x : Q) :
  (x <= inject_Z k)%Q -> (round_half_even x <= k)%Z.
Proof.
  intros Hk. unfold round_half_even.
  assert (Hf : (Qfloor x <= k)%Z).
  { rewrite <- (Qfloor_Z k). now apply Qfloor_resp_le. }
  destruct (Qltb (x - inject_Z (Qfloor x)) (1 # 2)) eqn:Ehalf; [exact Hf|].
  apply Qltb_ge in Ehalf.
  assert (Hlt : (Qfloor x < k)%Z).
  { rewrite Zlt_Qlt. lra. }
  destruct (Qltb _ _); [lia|].
  destruct (Z.even _); lia.
Qed.

Lemma round_bounds (a b : Z) (x : Q) (nd : nat) :
  (inject_Z a / inject_Z (10 ^ Z.of_nat nd) <= x)%Q ->
  (x <= inject_Z b / inject_Z (10 ^ Z.of_nat nd))%Q ->
  (inject_Z a / inject_Z (10 ^ Z.of_nat nd) <= round x nd)%Q /\
  (round x nd <= inject_Z b / inject_Z (10 ^ Z.of_nat nd))%Q.
Proof.
  intros Ha Hb. unfold round.
  set (s := inject_Z (10 ^ Z.of_nat nd)) in *.
  assert (Hs : (0 < s)%Q).
  { subst s. change 0%Q with (inject_Z 0). rewrite <- Zlt_Qlt.
    apply Z.pow_pos_nonneg; lia. }
  assert (Hs0 : ~ (s == 0)%Q) by lra.
  assert (Hxa : (inject_Z a <= x * s)%Q).
  { pose proof (Qmult_le_compat_r _ _ s Ha ltac:(lra)) as H.
    now rewrite (Qmult_comm (inject_Z a / s) s), Qmult_div_r in H. }
  assert (Hxb : (x * s <= inject_Z b)%Q).
  { pose proof (Qmult_le_compat_r _ _ s Hb ltac:(lra)) as H.
    now rewrite (Qmult_comm (inject_Z b / s) s), Qmult_div_r in H. }
  pose proof (round_half_even_ge a _ Hxa) as H1.
  pose proof (round_half_even_le b _ Hxb) as H2.
  rewrite Zle_Qle in H1, H2.
  split.
  - apply Qle_shift_div_l; [exact Hs|].
    now rewrite (Qmult_comm (inject_Z a / s) s), Qmult_div_r.
  - apply Qle_shift_div_r; [exact Hs|].
    now rewrite (Qmult_comm (inject_Z b / s) s), Qmult_div_r.
Qed.

Lemma calculate_total_loss_init_wp (math_exp : Q -> Q) (distance : Q) :
  (math_exp (- 0.0001 * distance) <= 1)%Q ->
  wp (calculate_total_loss math_exp (AtmosphericChannel_init distance))
     (fun loss => (0.15 <= loss)%Q /\ (loss <= 0.95)%Q) no_raise.
Proof.
  intros Hexp. unfold calculate_total_loss, uniform.
  apply wp_bind. apply wp_random. intros r Hr0 Hr1. cbn [wp].
  cbn [AtmosphericChannel_init scattering_coefficient distance_km base_loss_rate
       turbulence_factor].
  split; [|apply Q.le_min_l].
  apply Q.min_glb; [discriminate|].
  set (e := math_exp _) in *.
  assert (Ht : (0 <= 0 + (0.05 - 0) * r)%Q) by nra.
  lra.
Qed.

Lemma transmission_efficiency_wp (math_exp : Q -> Q) (distance : Q) :
  (math_exp (- 0.0001 * distance) <= 1)%Q ->
  wp (get_transmission_efficiency math_exp (AtmosphericChannel_init distance))
     (fun efficiency => (5 <= efficiency)%Q /\ (efficiency <= 85)%Q) no_raise.
Proof.
  intros Hexp. unfold get_transmission_efficiency.
  eapply wp_bind_with; [apply calculate_total_loss_init_wp; exact Hexp|].
  intros loss [Hlo Hhi]. cbn [wp].
  assert (E5 : (inject_Z 500 / inject_Z (10 ^ Z.of_nat 2) == 5)%Q) by reflexivity.
  assert (E85 : (inject_Z 8500 / inject_Z (10 ^ Z.of_nat 2) == 85)%Q) by reflexivity.
  destruct (round_bounds 500 8500 ((1 - loss) * 100)%Q 2) as [H1 H2].
  - rewrite E5. lra.
  - rewrite E85. lra.
  - rewrite E5 in H1. rewrite E85 in H2. split; assumption.
Qed.

(** X29.  Channel statistics of a channel built by the constructor, whenever
    [math.exp] of the (non-positive) exponent is at most 1:
    [get_transmission_efficiency] never raises and returns between 5 and 85
    percent; [get_channel_stats] never raises and reports the constructor's
    parameters, a total loss probability between 0.15 and 0.95 and an
    efficiency between 5 and 85.  The two figures come from separate samples
    of the turbulence, so in one report the efficiency can differ from
    [(1 - total_loss_probability) * 100] by more than four points. *)
Theorem channel_stats_bounds (math_exp : Q -> Q) (distance : Q) :
  (math_exp (- 0.0001 * distance) <= 1)%Q ->
  wp (get_transmission_efficiency math_exp (AtmosphericChannel_init distance))
     (fun efficiency => (5 <= efficiency)%Q /\ (efficiency <= 85)%Q) no_raise /\
  wp (get_channel_stats math_exp (AtmosphericChannel_init distance))
     (fun stats =>
        cs_distance_km stats = distance /\
        cs_base_atmospheric_loss stats = 0.15%Q /\
        cs_scattering_coefficient stats = 0.0001%Q /\
        cs_turbulence_factor stats = 0.05%Q /\
        (0.15 <= cs_total_loss_probability stats)%Q /\
        (cs_total_loss_probability stats <= 0.95)%Q /\
        (5 <= cs_transmission_efficiency stats)%Q /\
        (cs_transmission_efficiency stats <= 85)%Q)
     no_raise /\
  exists (tape : list Q) (stats : ChannelStats),
    Forall valid_draw tape /\
    run (get_channel_stats exp_taylor (AtmosphericChannel_init 500)) tape = Some (Ok stats) /\
    (cs_transmission_efficiency stats + 4
     < (1 - cs_total_loss_probability stats) * 100)%Q.
Proof.
  intros Hexp. split_ands.
  - now apply transmission_efficiency_wp.
  - unfold get_channel_stats.
    eapply wp_bind_with; [apply calculate_total_loss_init_wp; exact Hexp|].
    intros loss [Hlo Hhi].
    eapply wp_bind_with; [apply transmission_efficiency_wp; exact Hexp|].
    intros efficiency [Helo Hehi]. cbn [wp].
    cbn [cs_distance_km cs_base_atmospheric_loss cs_scattering_coefficient
         cs_turbulence_factor cs_total_loss_probability cs_transmission_efficiency
         AtmosphericChannel_init distance_km base_loss_rate scattering_coefficient
         turbulence_factor].
    assert (E15 : (inject_Z 1500 / inject_Z (10 ^ Z.of_nat 4) == 0.15)%Q) by reflexivity.
    assert (E95 : (inject_Z 9500 / inject_Z (10 ^ Z.of_nat 4) == 0.95)%Q) by reflexivity.
    destruct (round_bounds 1500 9500 loss 4) as [H1 H2].
    + rewrite E15. exact Hlo.
    + rewrite E95. exact Hhi.
    + rewrite E15 in H1. rewrite E95 in H2.
      split_ands; try reflexivity; assumption.
  - exists [0%Q; 0.99%Q]. eexists. split_ands.
    + repeat constructor; discriminate.
    + vm_compute. reflexivity.
    + vm_compute. reflexivity.
Qed.

Lemma channel_stats_bounds_witness :
  wp (get_transmission_efficiency exp_taylor (AtmosphericChannel_init 500%Q))
     (fun efficiency => (5 <= efficiency)%Q /\ (efficiency <= 85)%Q) no_raise.
Proof.
  apply (channel_stats_bounds exp_taylor 500%Q). vm_compute. discriminate.
Defined.

(** ** Key derivation (encryption/aes.py) *)

Lemma bit_string_of_bits (bits : list Z) :
  Forall is_bit bits ->
  concat (map (fun bit => list_ascii_of_string (str_of_int bit)) bits) = map bit_char bits.
Proof.
  induction 1 as [|b bits [-> | ->] _ IH]; [reflexivity| |];
    cbn [map concat]; rewrite IH; reflexivity.
Qed.

Lemma int_base2_bits (c : list Z) :
  Forall is_bit c -> 0 < length c <= 8 ->
  exists v : Z,
    int_base2 (map bit_char c) = Some v /\ is_byte v /\
    (length c = 8 -> v = byte_value 0 c).
Proof.
  intros Hbits Hlen.
  destruct c as [|b1 [|b2 [|b3 [|b4 [|b5 [|b6 [|b7 [|b8 [|b9 c]]]]]]]]];
    cbn [length] in Hlen; try lia;
    repeat match goal with
           | H : Forall _ (_ :: _) |- _ =>
               let Hb := fresh "Hb" in
               apply Forall_cons in H as [Hb H]; destruct Hb as [-> | ->]
           end;
    (eexists; split; [reflexivity|]; split;
     [split; [vm_compute; discriminate|reflexivity]
     |intros Hl; try discriminate Hl; reflexivity]).
Qed.

Lemma key_loop_bits (bits : list Z) : forall (count i : nat) (byte_array : list Z),
  Forall is_bit bits ->
  count = 0 \/ i + 8 * count < length bits + 8 ->
  exists bytes : list Z,
    key_loop count i (map bit_char bits) byte_array = Ret (byte_array ++ bytes) /\
    length bytes = count /\
    forall k : nat, k < count -> i + 8 * (k + 1) <= length bits ->
      bytes !! k = Some (byte_value 0 (take 8 (drop (i + 8 * k) bits))).
Proof.
  induction count as [|count IH]; intros i byte_array Hbits Hcount.
  - exists []. rewrite app_nil_r. split_ands; try reflexivity. intros k Hk. lia.
  - destruct Hcount as [Hc|Hc]; [discriminate|].
    destruct (int_base2_bits (take 8 (drop i bits))) as (v & Hv & Hbyte & Hfull).
    { apply Forall_take, Forall_drop. exact Hbits. }
    { rewrite length_take, length_drop. lia. }
    destruct (IH (i + 8) (byte_array ++ [v]) Hbits ltac:(lia)) as (bytes & Hrun & Hl & Hk).
    exists (v :: bytes). cbn [key_loop].
    rewrite skipn_map, firstn_map, Hv, decide_True by exact Hbyte.
    rewrite Hrun, <- app_assoc. split_ands; [reflexivity|simpl; lia|].
    intros [|k] Hlt Hle.
    + change ((v :: bytes) !! 0) with (Some v).
      rewrite Nat.mul_0_r, Nat.add_0_r. f_equal.
      apply Hfull. rewrite length_take, length_drop. lia.
    + change ((v :: bytes) !! S k) with (bytes !! k).
      rewrite (Hk k) by lia. do 4 f_equal. lia.
Qed.

Lemma bytes_loop_values (count : nat) : forall (i : nat) (padded byte_array : list Z),
  length padded = i + 8 * count -> Forall is_bit padded ->
  bytes_loop count i padded byte_array
  = Ret (byte_array
           ++ map (fun k => byte_value 0 (take 8 (drop (i + 8 * k) padded))) (seq 0 count)).
Proof.
  induction count as [|count IH]; intros i padded byte_array Hlen Hbits.
  - cbn. now rewrite app_nil_r.
  - assert (Hchunk : length (take 8 (drop i padded)) = 8).
    { rewrite length_take, length_drop. lia. }
    destruct (int_base2_bits (take 8 (drop i padded))) as (v & _ & Hbyte & Hfull).
    { apply Forall_take, Forall_drop. exact Hbits. }
    { lia. }
    rewrite (Hfull Hchunk) in Hbyte.
    cbn [bytes_loop]. rewrite decide_True by exact Hbyte.
    rewrite (IH (i + 8)) by (lia || assumption).
    rewrite <- app_assoc. cbn [seq map app]. rewrite Nat.mul_0_r, Nat.add_0_r.
    do 3 f_equal. rewrite <- seq_shift, map_map.
    apply map_ext. intros k. do 3 f_equal. lia.
Qed.

Lemma derive_aes_key_window (sha256 : list Z -> list Z) (quantum_bits : list Z)
    (key_size : nat) :
  Forall is_bit quantum_bits ->
  exists key_bytes : list Z,
    bits_to_bytes (key_window key_size quantum_bits) = Ret key_bytes /\
    length key_bytes = key_size /\
    derive_aes_key sha256 quantum_bits key_size
    = Ret (take key_size (sha256 key_bytes)).
Proof.
  intros Hbits.
  set (padded := quantum_bits ++ replicate (8 * key_size - length quantum_bits) 0%Z).
  assert (Hpb : Forall is_bit padded).
  { apply Forall_app. split; [exact Hbits|]. apply Forall_replicate. now left. }
  assert (Hpl : 8 * key_size <= length padded).
  { subst padded. rewrite length_app, length_replicate. lia. }
  set (values := map (fun k => byte_value 0 (take 8 (drop (8 * k) padded)))
                     (seq 0 key_size)).
  exists values. split_ands.
  - unfold bits_to_bytes, key_window. fold padded.
    assert (Hwl : length (take (8 * key_size) padded) = 8 * key_size).
    { rewrite length_take. lia. }
    rewrite Hwl, decide_False by lia_div.
    rewrite Hwl.
    replace ((8 * key_size + 7) / 8) with key_size by lia_div.
    rewrite bytes_loop_values by (rewrite ?Hwl; try lia; now apply Forall_take).
    cbn [app Nat.add]. f_equal. subst values.
    apply map_ext_in. intros k Hk. apply in_seq in Hk. f_equal.
    rewrite <- (take_drop (8 * key_size) padded) at 2.
    rewrite drop_app_le by (rewrite Hwl; lia).
    rewrite take_app_le; [reflexivity|].
    rewrite length_drop, Hwl. lia.
  - subst values. now rewrite length_map, length_seq.
  - unfold derive_aes_key. rewrite (bit_string_of_bits _ Hbits), length_map.
    assert (Hstr : (if decide (length quantum_bits < key_size * 8)
                    then map bit_char quantum_bits
                         ++ replicate (key_size * 8 - length quantum_bits) "0"%char
                    else map bit_char quantum_bits) = map bit_char padded).
    { subst padded. rewrite map_app.
      destruct (decide (length quantum_bits < key_size * 8)) as [Hlt|Hge].
      - f_equal. replace (8 * key_size) with (key_size * 8) by lia.
        generalize (key_size * 8 - length quantum_bits). intros n.
        induction n as [|n IHn]; [reflexivity|]. cbn. now rewrite IHn.
      - replace (8 * key_size - length quantum_bits) with 0 by lia.
        cbn. now rewrite app_nil_r. }
    rewrite Hstr, length_map.
    destruct (key_loop_bits padded ((length padded + 7) / 8) 0 [] Hpb)
      as (bytes & Hrun & Hl & Hk).
    { right. lia_div. }
    rewrite Hrun, bind_Ret. cbn [app]. do 3 f_equal.
    apply list_eq. intros k. subst values.
    destruct (decide (k < key_size)) as [Hlt|Hge].
    + rewrite lookup_take_lt by exact Hlt.
      rewrite list_lookup_fmap, lookup_seq_lt by exact Hlt. cbn.
      rewrite (Hk k) by lia_div. reflexivity.
    + rewrite lookup_take_ge by lia.
      rewrite list_lookup_fmap, lookup_seq_ge by lia. reflexivity.
Qed.

(** X30.  Key derivation from quantum bits.  On a list of bits
    [derive_aes_key] never raises, and the bytes it hashes are
    [bits_to_bytes] of the first [8 * key_size] bits, zero bits standing in
    for missing ones.  So the derived key depends on nothing else: two bit
    lists that agree on this window give the same key, and in particular a
    list shorter than the window and the same list followed by a zero bit
    do. *)
Theorem derive_aes_key_depends_on_window (sha256 : list Z -> list Z)
    (quantum_bits quantum_bits' : list Z) (key_size : nat) :
  Forall is_bit quantum_bits ->
  (exists key_bytes : list Z,
     bits_to_bytes (key_window key_size quantum_bits) = Ret key_bytes /\
     length key_bytes = key_size /\
     derive_aes_key sha256 quantum_bits key_size
     = Ret (take key_size (sha256 key_bytes))) /\
  (Forall is_bit quantum_bits' ->
   key_window key_size quantum_bits' = key_window key_size quantum_bits ->
   derive_aes_key sha256 quantum_bits' key_size
   = derive_aes_key sha256 quantum_bits key_size) /\
  (length quantum_bits < 8 * key_size ->
   derive_aes_key sha256 (quantum_bits ++ [0%Z]) key_size
   = derive_aes_key sha256 quantum_bits key_size).
Proof.
  intros Hbits.
  assert (Hsame : forall other : list Z,
            Forall is_bit other ->
            key_window key_size other = key_window key_size quantum_bits ->
            derive_aes_key sha256 other key_size
            = derive_aes_key sha256 quantum_bits key_size).
  { intros other Hother Hwin.
    destruct (derive_aes_key_window sha256 quantum_bits key_size Hbits)
      as (kb & Hkb & _ & Hrun).
    destruct (derive_aes_key_window sha256 other key_size Hother)
      as (kb' & Hkb' & _ & Hrun').
    rewrite Hwin, Hkb in Hkb'. injection Hkb' as <-.
    now rewrite Hrun, Hrun'. }
  split_ands.
  - now apply derive_aes_key_window.
  - apply Hsame.
  - intros Hshort. apply Hsame.
    + apply Forall_app. split; [exact Hbits|]. constructor; [now left|constructor].
    + unfold key_window. f_equal. rewrite <- app_assoc. f_equal.
      rewrite length_app. cbn [length app].
      replace (8 * key_size - length quantum_bits)
        with (S (8 * key_size - (length quantum_bits + 1))) by lia.
      reflexivity.
Qed.

Lemma derive_aes_key_depends_on_window_witness :
  derive_aes_key (fun data => data) [1; 0; 1; 0]%Z 2
  = derive_aes_key (fun data => data) [1; 0; 1]%Z 2 /\
  derive_aes_key (fun data => data) [1; 0; 1]%Z 2 = Ret [160; 0]%Z.
Proof.
  assert (Hbits : Forall is_bit [1; 0; 1]%Z).
  { repeat constructor; (now left) || (now right). }
  destruct (derive_aes_key_depends_on_window (fun data => data) [1; 0; 1]%Z [] 2 Hbits)
    as (_ & _ & Hext).
  split; [apply Hext; simpl; lia|reflexivity].
Defined.
